(** * flame-chart-js: clustering, viewport, layout and hover dispatch

    A shallow embedding of the layout core of flame-chart-js v2.3.1: tree
    flattening, meta/render clustering, the render engines' zoom and pan
    state and the layout of their panels, the flame-chart plugin's
    [setData], blocks and drag, the hover dispatcher and the cursor of the
    interactions engine, the search in a series of points, the overview
    graph of the timeframe selector, the blocks of the marks, and the
    parsing and the rows of the waterfall; followed by the properties
    proved of it.

    Numbers.  A JavaScript [number] is modelled by an exact rational [Q]:
    arithmetic is the exact one, comparisons are the usual total order and
    equality of numbers is [Qeq] ([==]).  NaN and the infinities have no
    counterpart.  Rounding has none either, so the properties are stated
    through the expressions and the comparisons that the source evaluates
    rather than through identities between different expressions, which
    rounding breaks.  Where a property is about such an identity (the
    coordinate transforms) the operations are written with their rounding
    ([Rounded]), and binary64 itself ([Double]) serves for an example.
    Integer-valued fields that the code only counts with ([level], [index],
    panel ids) are [nat]; the time-grid accuracy and the levels of the
    overview graph are [Z]. *)

From Stdlib Require Import QArith Qround Qabs Lqa ZArith Lia String Sorted Permutation.
From Stdlib Require PrimFloat.
From stdpp Require Import base list option strings gmap.

Local Open Scope Q_scope.

(** ** Comparisons of numbers, as the booleans the code branches on *)

Module Num.
Definition ltb (x y : Q) : bool := negb (Qle_bool y x).
Definition leb (x y : Q) : bool := Qle_bool x y.
Definition gtb (x y : Q) : bool := ltb y x.
Definition geb (x y : Q) : bool := leb y x.
Definition eqb (x y : Q) : bool := Qeq_bool x y.
End Num.

(** [last], as the source defines it: [array[array.length - 1]], which is
    [undefined] on the empty array. *)
Definition last {A} (array : list A) : option A :=
  array !! (length array - 1)%nat.

(** ** Data model *)

(** [FlameChartNode].  An absent [children] field is the empty list: [walk]
    does nothing on either. *)
#[warnings="-register-all"]
Inductive FlameChartNode : Type := mkFlameChartNode {
  name : string;
  start : Q;
  duration : Q;
  type : option string;
  color : option string;
  children : list FlameChartNode
}.

(** [FlatTreeNode]; [parent] is the flat node of the parent, [null] at a root. *)
#[warnings="-register-all"]
Inductive FlatTreeNode : Type := mkFlatTreeNode {
  source : FlameChartNode;
  end_ : Q;
  parent : option FlatTreeNode;
  level : nat;
  index : nat
}.

Module Meta.
Record MetaClusterizedFlatTreeNode : Type := mk {
  nodes : list FlatTreeNode
}.
End Meta.

Module Cluster.
Record ClusterizedFlatTreeNode : Type := mk {
  start : Q;
  end_ : Q;
  duration : Q;
  type : option string;
  color : option string;
  level : nat;
  nodes : list FlatTreeNode
}.
End Cluster.

(** Both cluster kinds are used where the code destructures [{ nodes }]. *)
Class HasNodes (T : Type) := nodesOf : T -> list FlatTreeNode.
#[global] Instance meta_HasNodes : HasNodes Meta.MetaClusterizedFlatTreeNode := Meta.nodes.
#[global] Instance cluster_HasNodes : HasNodes Cluster.ClusterizedFlatTreeNode := Cluster.nodes.

(** ** Tree flattening *)

Module TreeClusters.

Section Walk.
Context {P St : Type}.
(** The callback, with the state it closes over made explicit. *)
Variable cb : FlameChartNode -> option P -> nat -> St -> P * St.

(** One iteration of [treeList.forEach]: call [cb] on the child, then walk
    its children with the callback's result as their parent.  (The callback
    always returns a node here, so that [res || child] is [res].) *)
Fixpoint walkChild (child : FlameChartNode) (parent : option P) (level : nat)
    (s : St) : St :=
  let '(res, s1) := cb child parent level s in
  fold_left (fun s' c => walkChild c (Some res) (S level) s') (children child) s1.

Definition walk (treeList : list FlameChartNode) (parent : option P)
    (level : nat) (s : St) : St :=
  fold_left (fun s' c => walkChild c parent level s') treeList s.
End Walk.

(** [Array.prototype.sort] with a comparator: a stable sort; insertion from
    the right keeps equal elements in their order. *)
Section Sort.
Context {A : Type} (compareFn : A -> A -> Q).

Fixpoint sortInsert (x : A) (l : list A) : list A :=
  match l with
  | [] => [x]
  | y :: l' => if Num.leb (compareFn x y) 0 then x :: y :: l'
               else y :: sortInsert x l'
  end.

Definition sort (l : list A) : list A := foldr sortInsert [] l.
End Sort.

(** [a.level - b.level || a.source.start - b.source.start] *)
Definition flatTreeCompare (a b : FlatTreeNode) : Q :=
  let d := inject_Z (Z.of_nat (level a) - Z.of_nat (level b)) in
  if Num.eqb d 0 then start (source a) - start (source b) else d.

Definition flatTreeCallback (node : FlameChartNode) (parent : option FlatTreeNode)
    (level : nat) (s : list FlatTreeNode * nat) : FlatTreeNode * (list FlatTreeNode * nat) :=
  let '(result, index) := s in
  let newNode := {| source := node;
                    end_ := start node + duration node;
                    parent := parent;
                    level := level;
                    index := index |} in
  (newNode, (result ++ [newNode], S index)).

Definition flatTree (treeList : list FlameChartNode) : list FlatTreeNode :=
  let '(result, _) := walk flatTreeCallback treeList None 0%nat ([], 0%nat) in
  sort flatTreeCompare result.

Definition getFlatTreeMinMax (flatTree : list FlatTreeNode) : Q * Q :=
  let '(_, min, max) :=
    fold_left (fun '(isFirst, min, max) n =>
                 let start := start (source n) in
                 let end' := end_ n in
                 if (isFirst : bool) then (false, start, end')
                 else (false,
                       (if Num.ltb min start then min else start),
                       (if Num.gtb max end' then max else end')))
              flatTree (true, 0, 0) in
  (min, max).

(** ** Clustering *)

Definition MIN_BLOCK_SIZE : Q := 1.
Definition STICK_DISTANCE : Q := 25 # 100.
Definition MIN_CLUSTER_SIZE : Q := MIN_BLOCK_SIZE * 2 + STICK_DISTANCE.

(** Fails (a [TypeError] in the source) on the empty array, whose [nodes[0]]
    and [last(nodes)] are [undefined]. *)
Definition calcClusterDuration (nodes : list FlatTreeNode) : option Q :=
  firstNode ← nodes !! 0%nat;
  lastNode ← last nodes;
  Some (start (source lastNode) + duration (source lastNode) - start (source firstNode)).

Definition checkNodeTimeboundNesting (node : FlatTreeNode) (start' end' : Q) : bool :=
  (Num.ltb (start (source node)) end' && Num.gtb (end_ node) start')
  || (Num.gtb (start (source node)) start' && Num.ltb (end_ node) end').

Definition checkClusterTimeboundNesting (node : Cluster.ClusterizedFlatTreeNode)
    (start' end' : Q) : bool :=
  (Num.ltb (Cluster.start node) end' && Num.gtb (Cluster.end_ node) start')
  || (Num.gtb (Cluster.start node) start' && Num.ltb (Cluster.end_ node) end').

Definition defaultClusterizeCondition (prevNode node : FlatTreeNode) : bool :=
  bool_decide (color (source prevNode) = color (source node))
  && bool_decide (type (source prevNode) = type (source node)).

(** The body of the [reduce] of [metaClusterizeFlatTree].  [lastCluster] is
    the last array of [acc] itself, so [lastCluster.push(node)] changes
    [acc] at its last position. *)
Definition metaClusterizeStep (condition : FlatTreeNode -> FlatTreeNode -> bool)
    (acc : list (list FlatTreeNode)) (node : FlatTreeNode) : list (list FlatTreeNode) :=
  match last acc with
  | Some lastCluster =>
      match last lastCluster with
      | Some lastNode =>
          if Nat.eqb (level lastNode) (level node) && condition lastNode node
          then alter (fun c => c ++ [node]) (length acc - 1)%nat acc
          else acc ++ [[node]]
      | None => acc ++ [[node]]
      end
  | None => acc ++ [[node]]
  end.

Definition metaClusterizeFlatTree (flatTree : list FlatTreeNode)
    (condition : FlatTreeNode -> FlatTreeNode -> bool) : list Meta.MetaClusterizedFlatTreeNode :=
  map Meta.mk
    (List.filter (fun nodes => negb (Nat.eqb (length nodes) 0))
       (fold_left (metaClusterizeStep condition) flatTree [])).

(** [array[i] = x] for [i <= array.length]: replaces inside, extends at the
    end.  (Beyond the end JavaScript leaves holes; the scan below keeps
    [index] equal to the length, see [clusterizeScan_index].) *)
Definition arraySet {A} (array : list A) (i : nat) (x : A) : list A :=
  if (i <? length array)%nat then <[i := x]> array else array ++ [x].

(** The variables of [clusterizeFlatTree]'s scan ([scanIndex] is its
    [index]).  [lastCluster] refers to an array that is also an element of
    [acc]: it is kept as the position of that element, and writing through
    it writes into [acc]. *)
Record ScanState : Type := mkScan {
  acc : list (list FlatTreeNode);
  lastCluster : option nat;
  lastNode : option FlatTreeNode;
  scanIndex : nat
}.

Section Clusterize.
Variables (zoom start' end' stickDistance minBlockSize : Q).

(** The merge test of the second branch. *)
Definition sticks (lastNode node : FlatTreeNode) : bool :=
  Num.ltb ((start (source node)
            - (start (source lastNode) + duration (source lastNode))) * zoom)
          stickDistance
  && Num.ltb (duration (source node) * zoom) minBlockSize
  && Num.ltb (duration (source lastNode) * zoom) minBlockSize.

Definition writeLast (s : ScanState) (k : nat) (node : FlatTreeNode) : ScanState :=
  {| acc := alter (fun c => arraySet c (scanIndex s) node) k (acc s);
     lastCluster := Some k;
     lastNode := lastNode s;
     scanIndex := S (scanIndex s) |}.

Definition openCluster (s : ScanState) (node : FlatTreeNode) : ScanState :=
  {| acc := acc s ++ [[node]];
     lastCluster := Some (length (acc s));
     lastNode := lastNode s;
     scanIndex := 1 |}.

Definition setLastNode (s : ScanState) (node : FlatTreeNode) : ScanState :=
  {| acc := acc s; lastCluster := lastCluster s;
     lastNode := Some node; scanIndex := scanIndex s |}.

(** The body of [for (const node of nodes)]. *)
Definition clusterizeNode (s : ScanState) (node : FlatTreeNode) : ScanState :=
  if checkNodeTimeboundNesting node start' end' then
    let s1 :=
      match lastCluster s, lastNode s with
      | Some k, None => writeLast s k node
      | Some k, Some lastNode =>
          if sticks lastNode node then writeLast s k node
          else openCluster s node
      | None, _ => openCluster s node
      end in
    setLastNode s1 node
  else s.

(** The body of the [reduce]: the scan variables are reset, [acc] goes on. *)
Definition clusterizeScan {T} `{HasNodes T} (acc0 : list (list FlatTreeNode))
    (cluster : T) : list (list FlatTreeNode) :=
  acc (fold_left clusterizeNode (nodesOf cluster)
         {| acc := acc0; lastCluster := None; lastNode := None; scanIndex := 0 |}).

(** The body of the final [map]. *)
Definition makeCluster (nodes : list FlatTreeNode) : option Cluster.ClusterizedFlatTreeNode :=
  node ← nodes !! 0%nat;
  duration ← calcClusterDuration nodes;
  Some {| Cluster.start := start (source node);
          Cluster.end_ := start (source node) + duration;
          Cluster.duration := duration;
          Cluster.type := type (source node);
          Cluster.color := color (source node);
          Cluster.level := level node;
          Cluster.nodes := nodes |}.

Definition clusterizeCore {T} `{HasNodes T} (metaClusterizedFlatTree : list T)
    : option (list Cluster.ClusterizedFlatTreeNode) :=
  mapM makeCluster (fold_left clusterizeScan metaClusterizedFlatTree []).
End Clusterize.

(** [clusterizeFlatTree] with its default parameters: [start = 0], [end = 0],
    [stickDistance = STICK_DISTANCE], [minBlockSize = MIN_BLOCK_SIZE] stand in
    for an argument that is not given. *)
Definition clusterizeFlatTree {T} `{HasNodes T} (metaClusterizedFlatTree : list T)
    (zoom : Q) (start' end' stickDistance minBlockSize : option Q)
    : option (list Cluster.ClusterizedFlatTreeNode) :=
  clusterizeCore zoom (default 0 start') (default 0 end')
    (default STICK_DISTANCE stickDistance) (default MIN_BLOCK_SIZE minBlockSize)
    metaClusterizedFlatTree.

(** The body of the [reduce] of [reclusterizeClusteredFlatTree]. *)
Definition reclusterizeStep (zoom start' end' : Q) (stickDistance minBlockSize : option Q)
    (acc : option (list Cluster.ClusterizedFlatTreeNode))
    (cluster : Cluster.ClusterizedFlatTreeNode)
    : option (list Cluster.ClusterizedFlatTreeNode) :=
  acc ← acc;
  if checkClusterTimeboundNesting cluster start' end' then
    if Num.leb (Cluster.duration cluster * zoom) MIN_CLUSTER_SIZE then
      Some (acc ++ [cluster])
    else
      sub ← clusterizeFlatTree [cluster] zoom (Some start') (Some end')
               stickDistance minBlockSize;
      Some (acc ++ sub)
  else Some acc.

Definition reclusterizeClusteredFlatTree
    (clusteredFlatTree : list Cluster.ClusterizedFlatTreeNode)
    (zoom start' end' : Q) (stickDistance minBlockSize : option Q)
    : option (list Cluster.ClusterizedFlatTreeNode) :=
  fold_left (reclusterizeStep zoom start' end' stickDistance minBlockSize)
    clusteredFlatTree (Some []).

End TreeClusters.
Import TreeClusters.

(** ** Render engines *)

Module BasicRenderEngine.
(** The fields of the viewport state. *)
Record t : Type := mk {
  width : Q;
  height : Q;
  zoom : Q;
  positionX : Q;
  min : Q;
  max : Q
}.

Definition timeToPosition (e : t) (time : Q) : Q :=
  time * zoom e - positionX e * zoom e.

Definition pixelToTime (e : t) (width' : Q) : Q := width' / zoom e.

Definition setZoom (e : t) (zoom' : Q) : t :=
  {| width := width e; height := height e; zoom := zoom';
     positionX := positionX e; min := min e; max := max e |}.

Definition setPositionX (e : t) (x : Q) : t * Q :=
  let currentPos := positionX e in
  ({| width := width e; height := height e; zoom := zoom e;
      positionX := x; min := min e; max := max e |},
   x - currentPos).

Definition setMinMax (e : t) (min' max' : Q) : t :=
  {| width := width e; height := height e; zoom := zoom e;
     positionX := positionX e; min := min'; max := max' |}.

Definition getInitialZoom (e : t) : Q :=
  if Num.gtb (max e - min e) 0 then width e / (max e - min e) else 1.

Definition getRealView (e : t) : Q := width e / zoom e.
End BasicRenderEngine.

(** The coordinate transforms with the rounding of each operation: [fl]
    takes the exact result of an operation to the number of the format that
    stands for it.  With [fl] the identity these are the two functions
    above. *)
Module Rounded.
Section Operations.
Variable fl : Q -> Q.

Definition timeToPosition (e : BasicRenderEngine.t) (time : Q) : Q :=
  fl (fl (time * BasicRenderEngine.zoom e)
      - fl (BasicRenderEngine.positionX e * BasicRenderEngine.zoom e)).

Definition pixelToTime (e : BasicRenderEngine.t) (width' : Q) : Q :=
  fl (width' / BasicRenderEngine.zoom e).
End Operations.

(** A rounding to compute with: to the nearest multiple of [1/1024]. *)
Definition grid (x : Q) : Q := inject_Z (Qfloor (x * 1024 + (1 # 2))) / 1024.
End Rounded.

(** The same two functions on binary64 numbers, as functions of the fields
    they read. *)
Module Double.
Import PrimFloat.

Definition timeToPosition (zoom positionX time : float) : float :=
  (time * zoom - positionX * zoom)%float.

Definition pixelToTime (zoom width' : float) : float := (width' / zoom)%float.
End Double.

(** The methods a subclass overrides and the inherited ones call through
    [this]. *)
Class RenderEngineClass (E : Type) := {
  basic : E -> BasicRenderEngine.t;
  thisSetZoom : E -> Q -> E;
  thisSetPositionX : E -> Q -> E * Q
}.

#[global] Instance basic_RenderEngineClass : RenderEngineClass BasicRenderEngine.t := {
  basic := id;
  thisSetZoom := BasicRenderEngine.setZoom;
  thisSetPositionX := BasicRenderEngine.setPositionX
}.

Section Inherited.
Context {E : Type} `{RenderEngineClass E}.
Import BasicRenderEngine.

Definition tryToChangePosition (e : E) (positionDelta : Q) : E :=
  let realView := getRealView (basic e) in
  let positionX := positionX (basic e) in
  if Num.leb (positionX + positionDelta + realView) (max (basic e))
     && Num.geb (positionX + positionDelta) (min (basic e))
  then (thisSetPositionX e (positionX + positionDelta)).1
  else if Num.leb (positionX + positionDelta) (min (basic e))
  then (thisSetPositionX e (min (basic e))).1
  else if Num.geb (positionX + positionDelta + realView) (max (basic e))
  then (thisSetPositionX e (max (basic e) - realView)).1
  else e.

Definition resetView (e : E) : E :=
  let e1 := thisSetZoom e (getInitialZoom (basic e)) in
  (thisSetPositionX e1 (min (basic e1))).1.
End Inherited.

Module OffscreenRenderEngine.
(** A panel's engine.  The engines a panel makes with [makeChild] (its
    [children]) are left out of the model: their extent and size follow the
    panel's, their zoom and position are their own, and nothing modelled
    here reads them; the one way they act back on the root, a change of
    height that calls the root's [recalcChildrenSizes], is noted at
    [Layout.offscreenResize]. *)
Record t : Type := mk {
  base : BasicRenderEngine.t;
  flexible : bool;
  collapsed : bool;
  position : Q;
  id : option nat
}.

Definition withBase (e : t) (b : BasicRenderEngine.t) : t :=
  {| base := b; flexible := flexible e; collapsed := collapsed e;
     position := position e; id := id e |}.

(** [setZoom], [setPositionX] are the inherited ones. *)
Definition setZoom (e : t) (zoom : Q) : t :=
  withBase e (BasicRenderEngine.setZoom (base e) zoom).

Definition setPositionX (e : t) (x : Q) : t * Q :=
  let '(b, res) := BasicRenderEngine.setPositionX (base e) x in (withBase e b, res).

Definition setMinMax (e : t) (min max : Q) : t :=
  withBase e (BasicRenderEngine.setMinMax (base e) min max).
End OffscreenRenderEngine.

Definition MAX_ACCURACY : Z := 6.

Module RenderEngine.
(** The root engine: the inherited fields, the panels' engines and the
    accuracy of its time grid ([timeGrid.accuracy]). *)
Record t : Type := mk {
  base : BasicRenderEngine.t;
  children : list OffscreenRenderEngine.t;
  timeGridAccuracy : Z
}.

Definition getAccuracy (e : t) : Z := timeGridAccuracy e.

Definition setZoom (e : t) (zoom : Q) : t * bool :=
  if (getAccuracy e <? MAX_ACCURACY)%Z || Num.leb zoom (BasicRenderEngine.zoom (base e))
  then ({| base := BasicRenderEngine.setZoom (base e) zoom;
           children := map (fun engine => OffscreenRenderEngine.setZoom engine zoom) (children e);
           timeGridAccuracy := timeGridAccuracy e |},
        true)
  else (e, false).

Definition setPositionX (e : t) (x : Q) : t * Q :=
  let '(b, res) := BasicRenderEngine.setPositionX (base e) x in
  ({| base := b;
      children := map (fun engine => (OffscreenRenderEngine.setPositionX engine x).1) (children e);
      timeGridAccuracy := timeGridAccuracy e |},
   res).

Definition setMinMax (e : t) (min max : Q) : t :=
  {| base := BasicRenderEngine.setMinMax (base e) min max;
     children := map (fun engine => OffscreenRenderEngine.setMinMax engine min max) (children e);
     timeGridAccuracy := timeGridAccuracy e |}.
End RenderEngine.

#[global] Instance root_RenderEngineClass : RenderEngineClass RenderEngine.t := {
  basic := RenderEngine.base;
  thisSetZoom e zoom := (RenderEngine.setZoom e zoom).1;
  thisSetPositionX := RenderEngine.setPositionX
}.

(** ** The flame-chart plugin and the chart it sits in *)

Module FlameChartPlugin.
(** The plugin's data fields.  (Its colour table is left out.) *)
Record t : Type := mk {
  data : list FlameChartNode;
  flatTree : list FlatTreeNode;
  min : Q;
  max : Q;
  metaClusterizedFlatTree : list Meta.MetaClusterizedFlatTreeNode;
  initialClusterizedFlatTree : list Cluster.ClusterizedFlatTreeNode;
  actualClusterizedFlatTree : list Cluster.ClusterizedFlatTreeNode;
  positionY : Q;
  selectedRegion : option FlatTreeNode;
  hoveredRegion : option FlatTreeNode
}.

Definition setDataField (p : t) (data' : list FlameChartNode) : t :=
  mk data' (flatTree p) (min p) (max p) (metaClusterizedFlatTree p)
     (initialClusterizedFlatTree p) (actualClusterizedFlatTree p)
     (positionY p) (selectedRegion p) (hoveredRegion p).

Definition calcMinMax (p : t) : t :=
  let '(min', max') := getFlatTreeMinMax (flatTree p) in
  mk (data p) (flatTree p) min' max' (metaClusterizedFlatTree p)
     (initialClusterizedFlatTree p) (actualClusterizedFlatTree p)
     (positionY p) (selectedRegion p) (hoveredRegion p).

Definition parseData (p : t) : t :=
  calcMinMax
    (mk (data p) (TreeClusters.flatTree (data p)) (min p) (max p) (metaClusterizedFlatTree p)
        (initialClusterizedFlatTree p) (actualClusterizedFlatTree p)
        (positionY p) (selectedRegion p) (hoveredRegion p)).

(** [renderEngine] is the panel's engine, which the plugin only reads. *)
Definition reclusterizeClusteredFlatTree (p : t) (renderEngine : BasicRenderEngine.t)
    : option t :=
  actual ← TreeClusters.reclusterizeClusteredFlatTree (initialClusterizedFlatTree p)
             (BasicRenderEngine.zoom renderEngine)
             (BasicRenderEngine.positionX renderEngine)
             (BasicRenderEngine.positionX renderEngine
              + BasicRenderEngine.getRealView renderEngine)
             None None;
  Some (mk (data p) (flatTree p) (min p) (max p) (metaClusterizedFlatTree p)
           (initialClusterizedFlatTree p) actual
           (positionY p) (selectedRegion p) (hoveredRegion p)).

Definition initData (p : t) (renderEngine : BasicRenderEngine.t) : option t :=
  let meta := metaClusterizeFlatTree (flatTree p) defaultClusterizeCondition in
  initial ← clusterizeFlatTree meta (BasicRenderEngine.zoom renderEngine)
              (Some (min p)) (Some (max p)) None None;
  reclusterizeClusteredFlatTree
    (mk (data p) (flatTree p) (min p) (max p) meta initial
        (actualClusterizedFlatTree p)
        (positionY p) (selectedRegion p) (hoveredRegion p))
    renderEngine.

Definition reset (p : t) : t :=
  mk (data p) (flatTree p) (min p) (max p) (metaClusterizedFlatTree p)
     (initialClusterizedFlatTree p) (actualClusterizedFlatTree p)
     0 None (hoveredRegion p).
End FlameChartPlugin.

(** A plugin of the chart: the flame-chart plugin, or another one, of which
    only the optional [min] and [max] matter here. *)
Inductive Plugin : Type :=
  | FlamePlugin (p : FlameChartPlugin.t)
  | OtherPlugin (min max : option Q).

Definition pluginMin (p : Plugin) : option Q :=
  match p with FlamePlugin p => Some (FlameChartPlugin.min p) | OtherPlugin m _ => m end.

Definition pluginMax (p : Plugin) : option Q :=
  match p with FlamePlugin p => Some (FlameChartPlugin.max p) | OtherPlugin _ m => m end.

(** [Array.prototype.reduce] without an initial value: a [TypeError] on the
    empty array. *)
Definition reduce1 {A} (f : A -> A -> A) (l : list A) : option A :=
  match l with
  | [] => None
  | x :: l' => Some (fold_left f l' x)
  end.

Definition Math_min (a b : Q) : Q := if Num.leb a b then a else b.
Definition Math_max (a b : Q) : Q := if Num.leb a b then b else a.

(** The chart: the root engine and the plugins, plugin [i] drawing on the
    root's child engine [i]. *)
Record Chart : Type := mkChart {
  renderEngine : RenderEngine.t;
  plugins : list Plugin
}.

(** [RenderEngine.calcMinMax] *)
Definition calcMinMax (c : Chart) : option Chart :=
  min ← reduce1 Math_min (omap pluginMin (plugins c));
  max ← reduce1 Math_max (omap pluginMax (plugins c));
  Some {| renderEngine := RenderEngine.setMinMax (renderEngine c) min max;
          plugins := plugins c |}.

(** [FlameChartPlugin.setData], called on plugin [i] of the chart.  [None]
    stands for a thrown exception (and for an [i] that is not a flame-chart
    plugin with its engine).  The two [render] requests at the end only
    schedule a frame. *)
Definition setData (c : Chart) (i : nat) (data : list FlameChartNode) : option Chart :=
  plugin ← plugins c !! i;
  engine ← RenderEngine.children (renderEngine c) !! i;
  match plugin with
  | OtherPlugin _ _ => None
  | FlamePlugin p =>
      let p1 := FlameChartPlugin.parseData (FlameChartPlugin.setDataField p data) in
      p2 ← FlameChartPlugin.initData p1 (OffscreenRenderEngine.base engine);
      let p3 := FlameChartPlugin.reset p2 in
      c1 ← calcMinMax {| renderEngine := renderEngine c;
                         plugins := <[i := FlamePlugin p3]> (plugins c) |};
      Some {| renderEngine := resetView (renderEngine c1); plugins := plugins c1 |}
  end.

(** ** Hit regions and the interactions engines *)

Inductive RegionTypes : Type :=
  | WATERFALL_NODE | CLUSTER | TIMEFRAME | TIMEFRAME_AREA | TIMEFRAME_KNOB
  | KNOB_RESIZE | TOGGLE | TIMESTAMP | TIMESERIES.

Inductive CursorTypes : Type :=
  | TEXT | ROW_RESIZE | POINTER | EW_RESIZE | GRABBING.

Module Mouse.
Record t : Type := mk { x : Q; y : Q }.
End Mouse.

Module HitRegion.
(** [data] is whatever the plugin attached; [id] is the id of the
    separated engine that registered the region, absent on a region
    registered with the root engine. *)
Record t (D : Type) : Type := mk {
  type : RegionTypes;
  data : D;
  x : Q;
  y : Q;
  w : Q;
  h : Q;
  cursor : option CursorTypes;
  id : option nat
}.
Arguments mk {D}.
Arguments type {D}.
Arguments data {D}.
Arguments x {D}.
Arguments y {D}.
Arguments w {D}.
Arguments h {D}.
Arguments cursor {D}.
Arguments id {D}.
End HitRegion.

(** What a handler does besides changing the state, in order: the events it
    emits and the frames it asks for. *)
Inductive Effect (D : Type) : Type :=
  | EmitHover (region : option (HitRegion.t D)) (mouse : Mouse.t)
  | PartialRender
  | Render.
Arguments EmitHover {D}.
Arguments PartialRender {D}.
Arguments Render {D}.

Module SeparatedInteractionsEngine.
(** [renderEngine] is the position, among the root engine's children, of
    the panel's engine. *)
Record t (D : Type) : Type := mk {
  id : nat;
  renderEngine : nat;
  hitRegions : list (HitRegion.t D)
}.
Arguments mk {D}.
Arguments id {D}.
Arguments renderEngine {D}.
Arguments hitRegions {D}.

Definition clearHitRegions {D} (e : t D) : t D :=
  {| id := id e; renderEngine := renderEngine e; hitRegions := [] |}.

Definition addHitRegion {D} (e : t D) (type : RegionTypes) (data : D)
    (x y w h : Q) (cursor : option CursorTypes) : t D :=
  {| id := id e; renderEngine := renderEngine e;
     hitRegions := hitRegions e
                   ++ [ {| HitRegion.type := type; HitRegion.data := data;
                           HitRegion.x := x; HitRegion.y := y;
                           HitRegion.w := w; HitRegion.h := h;
                           HitRegion.cursor := cursor;
                           HitRegion.id := Some (id e) |} ] |}.
End SeparatedInteractionsEngine.

Module InteractionsEngine.
Section WithData.
Context {D : Type}.

(** [canvasCursor] is [renderEngine.canvas.style.cursor] ([None] for the
    empty string); [hoveredInstance] is the position of the instance in
    [instances]. *)
Record t : Type := mk {
  renderEngine : RenderEngine.t;
  hitRegions : list (HitRegion.t D);
  instances : list (SeparatedInteractionsEngine.t D);
  mouse : Mouse.t;
  selectedRegion : option (HitRegion.t D);
  hoveredRegion : option (HitRegion.t D);
  hoveredInstance : option nat;
  moveActive : bool;
  currentCursor : option CursorTypes;
  canvasCursor : option CursorTypes
}.

Definition setRenderEngine (s : t) (e : RenderEngine.t) : t :=
  mk e (hitRegions s) (instances s) (mouse s) (selectedRegion s)
     (hoveredRegion s) (hoveredInstance s) (moveActive s)
     (currentCursor s) (canvasCursor s).

Definition setHoveredRegion (s : t) (r : option (HitRegion.t D)) : t :=
  mk (renderEngine s) (hitRegions s) (instances s) (mouse s) (selectedRegion s)
     r (hoveredInstance s) (moveActive s)
     (currentCursor s) (canvasCursor s).

Definition setHoveredInstance (s : t) (i : option nat) : t :=
  mk (renderEngine s) (hitRegions s) (instances s) (mouse s) (selectedRegion s)
     (hoveredRegion s) i (moveActive s)
     (currentCursor s) (canvasCursor s).

Definition setCursors (s : t) (current canvas : option CursorTypes) : t :=
  mk (renderEngine s) (hitRegions s) (instances s) (mouse s) (selectedRegion s)
     (hoveredRegion s) (hoveredInstance s) (moveActive s)
     current canvas.

Definition addHitRegion (s : t) (type : RegionTypes) (data : D)
    (x y w h : Q) (cursor : option CursorTypes) : t :=
  mk (renderEngine s)
     (hitRegions s
      ++ [ {| HitRegion.type := type; HitRegion.data := data;
              HitRegion.x := x; HitRegion.y := y;
              HitRegion.w := w; HitRegion.h := h;
              HitRegion.cursor := cursor;
              HitRegion.id := None |} ])
     (instances s) (mouse s) (selectedRegion s)
     (hoveredRegion s) (hoveredInstance s) (moveActive s)
     (currentCursor s) (canvasCursor s).

(** The rectangle test of both [find]s, [offsetTop] being [0] for the
    root's own regions. *)
Definition regionContains (m : Mouse.t) (offsetTop : Q) (r : HitRegion.t D) : bool :=
  Num.geb (Mouse.x m) (HitRegion.x r)
  && Num.leb (Mouse.x m) (HitRegion.x r + HitRegion.w r)
  && Num.geb (Mouse.y m) (HitRegion.y r + offsetTop)
  && Num.leb (Mouse.y m) (HitRegion.y r + HitRegion.h r + offsetTop).

Definition rootRegionContains (m : Mouse.t) (r : HitRegion.t D) : bool :=
  Num.geb (Mouse.x m) (HitRegion.x r)
  && Num.leb (Mouse.x m) (HitRegion.x r + HitRegion.w r)
  && Num.geb (Mouse.y m) (HitRegion.y r)
  && Num.leb (Mouse.y m) (HitRegion.y r + HitRegion.h r).

Definition panelOf (s : t) (inst : SeparatedInteractionsEngine.t D)
    : option OffscreenRenderEngine.t :=
  RenderEngine.children (renderEngine s) !! SeparatedInteractionsEngine.renderEngine inst.

Definition instanceContains (s : t) (inst : SeparatedInteractionsEngine.t D) : bool :=
  match panelOf s inst with
  | Some engine =>
      Num.leb (OffscreenRenderEngine.position engine) (Mouse.y (mouse s))
      && Num.geb (BasicRenderEngine.height (OffscreenRenderEngine.base engine)
                  + OffscreenRenderEngine.position engine)
                 (Mouse.y (mouse s))
  | None => false
  end.

(** [Array.prototype.find] with the position of the element found. *)
Fixpoint findIndex {A} (f : A -> bool) (l : list A) (i : nat) : option (nat * A) :=
  match l with
  | [] => None
  | a :: l' => if f a then Some (i, a) else findIndex f l' (S i)
  end.

Definition getHoveredRegion (s : t) : t * option (HitRegion.t D) :=
  match List.find (rootRegionContains (mouse s)) (hitRegions s) with
  | Some found => (s, Some found)
  | None =>
      match findIndex (instanceContains s) (instances s) 0 with
      | Some (i, hoveredInstance) =>
          let offsetTop :=
            match panelOf s hoveredInstance with
            | Some engine => OffscreenRenderEngine.position engine
            | None => 0
            end in
          (setHoveredInstance s (Some i),
           List.find (regionContains (mouse s) offsetTop)
             (SeparatedInteractionsEngine.hitRegions hoveredInstance))
      | None => (setHoveredInstance s None, None)
      end
  end.

Definition clearCursor (s : t) : t :=
  let '(s1, found) := getHoveredRegion s in
  match found with
  | Some r =>
      match HitRegion.cursor r with
      | Some c => setCursors s1 None (Some c)
      | None => setCursors s1 None None
      end
  | None => setCursors s1 None None
  end.

Definition setCursor (s : t) (cursor : CursorTypes) : t :=
  setCursors s (Some cursor) (Some cursor).

(** [hoveredRegion.id !== this.hoveredRegion.id] *)
Definition idDiffers (a b : HitRegion.t D) : bool :=
  negb (bool_decide (HitRegion.id a = HitRegion.id b)).

(** [this.hoveredRegion] is the field; [found] is the method's local
    [hoveredRegion]. *)
Definition checkRegionHover (s : t) : t * list (Effect D) :=
  let '(s0, found) := getHoveredRegion s in
  let first :=
    match found, hoveredRegion s0 with
    | Some new, Some old =>
        if idDiffers new old then [EmitHover None (mouse s0)] else []
    | _, _ => []
    end in
  match found with
  | Some new =>
      let s1 :=
        match currentCursor s0, HitRegion.cursor new with
        | None, Some c => setCursors s0 None (Some c)
        | None, None => clearCursor s0
        | Some _, _ => s0
        end in
      let s2 := setHoveredRegion s1 (Some new) in
      (s2, first ++ [EmitHover (Some new) (mouse s2); PartialRender])
  | None =>
      match hoveredRegion s0 with
      | Some _ =>
          let s1 := match currentCursor s0 with
                    | None => clearCursor s0
                    | Some _ => s0
                    end in
          let s2 := setHoveredRegion s1 None in
          (s2, first ++ [EmitHover None (mouse s2); PartialRender])
      | None => (s0, first)
      end
  end.

(** [handleMouseWheel], for a wheel event with the given deltas. *)
Definition handleMouseWheel (s : t) (deltaX deltaY : Q) : t * list (Effect D) :=
  let engine := renderEngine s in
  let realView := BasicRenderEngine.getRealView (basic engine) in
  let initialZoom := BasicRenderEngine.getInitialZoom (basic engine) in
  let startPosition := BasicRenderEngine.positionX (basic engine) in
  let startZoom := BasicRenderEngine.zoom (basic engine) in
  let positionScrollDelta := deltaX / BasicRenderEngine.zoom (basic engine) in
  let zoomDelta := (deltaY / 1000) * BasicRenderEngine.zoom (basic engine) in
  let engine1 := tryToChangePosition engine positionScrollDelta in
  let zoomDelta :=
    if Num.geb (BasicRenderEngine.zoom (basic engine1) - zoomDelta) initialZoom
    then zoomDelta
    else BasicRenderEngine.zoom (basic engine1) - initialZoom in
  let engine2 :=
    if negb (Num.eqb zoomDelta 0) then
      let '(engine', zoomed) :=
        RenderEngine.setZoom engine1 (BasicRenderEngine.zoom (basic engine1) - zoomDelta) in
      if zoomed then
        let proportion := Mouse.x (mouse s) / BasicRenderEngine.width (basic engine') in
        let timeDelta :=
          realView - BasicRenderEngine.width (basic engine')
                     / BasicRenderEngine.zoom (basic engine') in
        let positionDelta := timeDelta * proportion in
        tryToChangePosition engine' positionDelta
      else engine'
    else engine1 in
  let '(s', effects) := checkRegionHover (setRenderEngine s engine2) in
  (s',
   effects
   ++ if negb (Num.eqb startPosition (BasicRenderEngine.positionX (basic engine2)))
         || negb (Num.eqb startZoom (BasicRenderEngine.zoom (basic engine2)))
      then [Render] else []).
End WithData.
Arguments t : clear implicits.
End InteractionsEngine.


(** ** Runs of the hover dispatcher *)

Section HoverRun.
Context {D : Type}.
Import InteractionsEngine.

(** Only [checkRegionHover] writes [hoveredRegion] after construction.  A
    run is given by the states the engine is in when [checkRegionHover] is
    called, whatever happened in between; [hoveredRegion] is carried from
    one call to the next. *)
Fixpoint hoverRun (hovered : option (HitRegion.t D)) (frames : list (InteractionsEngine.t D))
    : list (Effect D) :=
  match frames with
  | [] => []
  | frame :: frames' =>
      let '(s', effects) := checkRegionHover (setHoveredRegion frame hovered) in
      effects ++ hoverRun (hoveredRegion s') frames'
  end.

(** The regions of the [hover] events among the effects, in order. *)
Definition hoverEvents (effects : list (Effect D)) : list (option (HitRegion.t D)) :=
  omap (fun e => match e with EmitHover region _ => Some region | _ => None end) effects.
End HoverRun.

(** ** Groupings into runs *)

Section Runs.
Context {A : Type} (R : A -> A -> bool).

(** Every two neighbours of [c] are related. *)
Fixpoint chained (c : list A) : Prop :=
  match c with
  | a :: (b :: _) as c' => R a b = true /\ chained c'
  | _ => True
  end.

(** Across every two neighbouring groups, the last element of the first is
    not related to the first element of the second. *)
Fixpoint separated (cs : list (list A)) : Prop :=
  match cs with
  | c1 :: (c2 :: _) as cs' =>
      (forall a b, last c1 = Some a -> head c2 = Some b -> R a b = false)
      /\ separated cs'
  | _ => True
  end.

(** [cs] cuts [l] into its maximal runs of related neighbours. *)
Definition Runs (l : list A) (cs : list (list A)) : Prop :=
  concat cs = l
  /\ Forall (fun c => c <> []) cs
  /\ Forall chained cs
  /\ separated cs.
End Runs.

(** ** Depth in a forest *)

(** The number of [parent] links from a flat node up to a root. *)
Fixpoint parentDepth (node : FlatTreeNode) : nat :=
  match node with
  | mkFlatTreeNode _ _ parent _ _ =>
      match parent with
      | None => 0
      | Some p => S (parentDepth p)
      end
  end.

(** [atDepth forest d node]: [node] is [d] levels below a root of [forest],
    the roots themselves being at depth 0. *)
Inductive atDepth : list FlameChartNode -> nat -> FlameChartNode -> Prop :=
  | atDepth_root forest node :
      In node forest -> atDepth forest 0 node
  | atDepth_child forest p d node :
      In p forest -> atDepth (children p) d node -> atDepth forest (S d) node.

(** The nodes of a forest, parents before children. *)
Fixpoint preorder (node : FlameChartNode) : list FlameChartNode :=
  node :: flat_map preorder (children node).

(** The order of the comparator of [flatTree]. *)
Definition flatTreeLe (a b : FlatTreeNode) : Prop :=
  (level a < level b)%nat
  \/ (level a = level b /\ start (source a) <= start (source b)).



(** ** The chart container's zoom and the layout of the panels *)

(** [FlameChartContainer.setZoom(start, end)], on the root engine.  (The
    [render] request at its end only schedules a frame.) *)
Definition FlameChartContainer_setZoom (e : RenderEngine.t) (start' end' : Q)
    : RenderEngine.t :=
  let zoom := BasicRenderEngine.width (RenderEngine.base e) / (end' - start') in
  let e1 := (RenderEngine.setPositionX e start').1 in
  (RenderEngine.setZoom e1 zoom).1.

Module Layout.

Inductive EngineType : Type := flexibleStatic | flexibleGrowing | static.

(** The truth value of a plugin's optional [height]: [undefined] and [0]
    are false. *)
Definition truthy (height : option Q) : bool :=
  match height with
  | Some h => negb (Num.eqb h 0)
  | None => false
  end.

(** [a || b] on numbers. *)
Definition orNum (a b : Q) : Q := if Num.eqb a 0 then b else a.

(** [height ?? 0] *)
Definition orZero (height : option Q) : Q := default 0 height.

Definition engineType (engine : OffscreenRenderEngine.t) (pluginHeight : option Q)
    : EngineType :=
  if OffscreenRenderEngine.flexible engine && truthy pluginHeight then flexibleStatic
  else if negb (truthy pluginHeight) then flexibleGrowing
  else static.

Definition engineHeight (engine : OffscreenRenderEngine.t) : Q :=
  BasicRenderEngine.height (OffscreenRenderEngine.base engine).

(** What the [reduce] for [freeSpace] takes off for one panel. *)
Definition takenHeight (type : EngineType) (engine : OffscreenRenderEngine.t)
    (pluginHeight : option Q) : Q :=
  if OffscreenRenderEngine.collapsed engine then 0
  else match type with
       | flexibleGrowing => orNum (engineHeight engine) 0
       | flexibleStatic => orNum (orNum (engineHeight engine) (orZero pluginHeight)) 0
       | static => orZero pluginHeight
       end.

(** The new height of one panel. *)
Definition newHeight (freeSpacePart : Q) (type : EngineType)
    (engine : OffscreenRenderEngine.t) (pluginHeight : option Q) : Q :=
  if OffscreenRenderEngine.collapsed engine then 0
  else match type with
       | static => orZero pluginHeight
       | flexibleGrowing => orNum (engineHeight engine) 0 + freeSpacePart
       | flexibleStatic =>
           if Num.eqb (engineHeight engine) 0 then orZero pluginHeight
           else engineHeight engine
       end.

Record Size : Type := mkSize {
  width : Q;
  position : Q;
  height : Q
}.

(** The panels with their plugins' heights; a [TypeError] when a panel has
    no plugin at its index. *)
Definition panels (children : list OffscreenRenderEngine.t)
    (pluginHeights : list (option Q))
    : option (list (EngineType * OffscreenRenderEngine.t * option Q)) :=
  mapM (fun '(index, engine) =>
          pluginHeight ← pluginHeights !! index;
          Some (engineType engine pluginHeight, engine, pluginHeight))
       (imap (fun index engine => (index, engine)) children).

(** [RenderEngine.getChildrenSizes]; [pluginHeights] gives the [height] of
    each plugin.  With no [flexibleGrowing] panel the quotient in
    [freeSpacePart] is by zero; it is then used for no panel. *)
Definition getChildrenSizes (e : RenderEngine.t) (pluginHeights : list (option Q))
    : option (list Size) :=
  ps ← panels (RenderEngine.children e) pluginHeights;
  let freeSpace :=
    fold_left (fun acc '(type, engine, pluginHeight) =>
                 acc - takenHeight type engine pluginHeight)
              ps (BasicRenderEngine.height (RenderEngine.base e)) in
  let flexibleGrowingCount :=
    length (List.filter (fun '(type, _, _) =>
                           match type with flexibleGrowing => true | _ => false end) ps) in
  let freeSpacePart :=
    inject_Z (Qfloor (freeSpace / inject_Z (Z.of_nat flexibleGrowingCount))) in
  Some (fold_left (fun '(position, result) '(type, engine, pluginHeight) =>
                     let height := newHeight freeSpacePart type engine pluginHeight in
                     (position + height,
                      result ++ [ {| width := BasicRenderEngine.width (RenderEngine.base e);
                                     position := position;
                                     height := height |} ]))
                  ps (0, [])).2.

(** [BasicRenderEngine.resize(width, height)], with the arguments that may
    be [undefined]; the second component is [isHeightChanged] when
    something changed and [false] otherwise. *)
Definition basicResize (b : BasicRenderEngine.t) (width' height' : option Q)
    : BasicRenderEngine.t * bool :=
  let isWidthChanged :=
    match width' with
    | Some w => negb (Num.eqb (BasicRenderEngine.width b) w)
    | None => false
    end in
  let isHeightChanged :=
    match height' with
    | Some h => negb (Num.eqb (BasicRenderEngine.height b) h)
    | None => false
    end in
  if isWidthChanged || isHeightChanged then
    ({| BasicRenderEngine.width :=
          if isWidthChanged then default 0 width' else BasicRenderEngine.width b;
        BasicRenderEngine.height :=
          if isHeightChanged then default 0 height' else BasicRenderEngine.height b;
        BasicRenderEngine.zoom := BasicRenderEngine.zoom b;
        BasicRenderEngine.positionX := BasicRenderEngine.positionX b;
        BasicRenderEngine.min := BasicRenderEngine.min b;
        BasicRenderEngine.max := BasicRenderEngine.max b |},
     isHeightChanged)
  else (b, false).

(** [OffscreenRenderEngine.resize(size, true)], as the root calls it, on a
    panel that has made no engine of its own: its [children] array is empty
    and the [forEach] at the end of the method does nothing.  (Only the
    timeframe selector calls [makeChild], in its [postInit]; the engine it
    makes has the root for [parent], and a change of its height calls the
    root's [recalcChildrenSizes] from inside the root's own loop, which
    this model does not follow.) *)
Definition offscreenResize (engine : OffscreenRenderEngine.t) (size : Size)
    : OffscreenRenderEngine.t :=
  {| OffscreenRenderEngine.base :=
       (basicResize (OffscreenRenderEngine.base engine)
          (Some (width size)) (Some (height size))).1;
     OffscreenRenderEngine.flexible := OffscreenRenderEngine.flexible engine;
     OffscreenRenderEngine.collapsed := OffscreenRenderEngine.collapsed engine;
     OffscreenRenderEngine.position := position size;
     OffscreenRenderEngine.id := OffscreenRenderEngine.id engine |}.

(** [RenderEngine.recalcChildrenSizes]: the engine with its panels resized,
    and the new [freeSpace]; for panels that have made no engine of their
    own, see [offscreenResize]. *)
Definition recalcChildrenSizes (e : RenderEngine.t) (pluginHeights : list (option Q))
    : option (RenderEngine.t * Q) :=
  childrenSizes ← getChildrenSizes e pluginHeights;
  let freeSpace :=
    fold_left (fun acc size => acc - height size) childrenSizes
      (BasicRenderEngine.height (RenderEngine.base e)) in
  children ← mapM (fun '(index, engine) =>
                     size ← childrenSizes !! index;
                     Some (offscreenResize engine size))
                  (imap (fun index engine => (index, engine)) (RenderEngine.children e));
  Some ({| RenderEngine.base := RenderEngine.base e;
           RenderEngine.children := children;
           RenderEngine.timeGridAccuracy := RenderEngine.timeGridAccuracy e |},
        freeSpace).

(** [RenderEngine.resize(width, height)], called with numbers. *)
Definition resize (e : RenderEngine.t) (pluginHeights : list (option Q))
    (width' height' : Q) : option (RenderEngine.t * Q) :=
  let currentWidth := BasicRenderEngine.width (RenderEngine.base e) in
  let e1 := {| RenderEngine.base :=
                 (basicResize (RenderEngine.base e) (Some width') (Some height')).1;
               RenderEngine.children := RenderEngine.children e;
               RenderEngine.timeGridAccuracy := RenderEngine.timeGridAccuracy e |} in
  '(e2, freeSpace) ← recalcChildrenSizes e1 pluginHeights;
  let e3 :=
    if Num.gtb (BasicRenderEngine.getInitialZoom (basic e2))
               (BasicRenderEngine.zoom (basic e2))
    then resetView e2
    else if Num.gtb (BasicRenderEngine.positionX (basic e2))
                    (BasicRenderEngine.min (basic e2))
    then tryToChangePosition e2
           (- BasicRenderEngine.pixelToTime (basic e2) ((width' - currentWidth) / 2))
    else e2 in
  Some (e3, freeSpace).

End Layout.

(** ** Searching the points of a series *)

Module ChartSearch.

(** A point of a series is the array [[time, value]]. *)
Definition Point : Type := (Q * Q)%type.

(** What a call comes to: a returned value ([None] for [null]), a
    [TypeError] on reading the time of an absent point, or a loop cut off
    by the bound on its iterations. *)
Inductive Result : Type :=
  | Return (point : option Point)
  | TypeError
  | OutOfFuel.

(** [array[i]] at an integer index. *)
Definition at_ (array : list Point) (i : Z) : option Point :=
  if (i <? 0)%Z then None else array !! Z.to_nat i.

(** The [while] loop, for at most [fuel] iterations. *)
Fixpoint search (fuel : nat) (array : list Point) (value : Q) (start end' : Z) : Result :=
  if (start <=? end')%Z then
    match fuel with
    | O => OutOfFuel
    | S fuel' =>
        let mid := Qceiling (inject_Z (end' + start) / 2) in
        match at_ array (mid - 1) with
        | None => TypeError
        | Some before =>
            match at_ array mid with
            | None => TypeError
            | Some at_mid =>
                if Num.geb value before.1 && Num.leb value at_mid.1 then
                  Return (Some (if Num.ltb (Qabs (value - before.1))
                                           (Qabs (value - at_mid.1))
                                then before else at_mid))
                else if Num.ltb at_mid.1 value
                then search fuel' array value (mid + 1) end'
                else search fuel' array value start (mid - 1)
            end
        end
    end
  else Return None.

Definition chartPointsBinarySearch (array : list Point) (value : Q) (outside : bool)
    : Result :=
  match at_ array 0 with
  | None => TypeError
  | Some first =>
      if Num.geb first.1 value then Return (if outside then Some first else None)
      else
        match last array with
        | None => TypeError
        | Some last' =>
            if Num.leb last'.1 value then Return (if outside then Some last' else None)
            else if (length array <=? 1)%nat then Return (Some first)
            else search (length array) array value 0 (Z.of_nat (length array) - 1)
        end
  end.

End ChartSearch.

(** ** Dragging the flame chart *)

Module FlameChartDrag.

(** The rectangle [calcRect] gives. *)
Record Rect : Type := mkRect { x : Q; y : Q; w : Q }.

(** [FlameChartPlugin.calcRect]; [renderEngine] is the panel's engine and
    [blockHeight] its row height. *)
Definition calcRect (p : FlameChartPlugin.t) (renderEngine : BasicRenderEngine.t)
    (blockHeight : Q) (start duration : Q) (level : nat) : Rect :=
  let w := duration * BasicRenderEngine.zoom renderEngine in
  {| x := BasicRenderEngine.timeToPosition renderEngine start;
     y := inject_Z (Z.of_nat level) * (blockHeight + 1) - FlameChartPlugin.positionY p;
     w := if Num.leb w (1 # 10) then 1 # 10
          else if Num.geb w 3 then w - 1 else w - w / 3 |}.

Definition setPositionY (p : FlameChartPlugin.t) (y : Q) : FlameChartPlugin.t :=
  FlameChartPlugin.mk (FlameChartPlugin.data p) (FlameChartPlugin.flatTree p)
    (FlameChartPlugin.min p) (FlameChartPlugin.max p)
    (FlameChartPlugin.metaClusterizedFlatTree p)
    (FlameChartPlugin.initialClusterizedFlatTree p)
    (FlameChartPlugin.actualClusterizedFlatTree p)
    y (FlameChartPlugin.selectedRegion p) (FlameChartPlugin.hoveredRegion p).

Section WithData.
Context {D : Type}.

(** [FlameChartPlugin.handlePositionChange]; [s] is the root interactions
    engine, which holds the root render engine (the panel's
    [tryToChangePosition] is the root's).  The last component is the frame
    it asks for, if any. *)
Definition handlePositionChange (p : FlameChartPlugin.t) (s : InteractionsEngine.t D)
    (deltaX deltaY : Q) : FlameChartPlugin.t * InteractionsEngine.t D * list (Effect D) :=
  let startPositionY := FlameChartPlugin.positionY p in
  let startPositionX :=
    BasicRenderEngine.positionX (basic (InteractionsEngine.renderEngine s)) in
  let s1 := InteractionsEngine.setCursor s GRABBING in
  let p1 :=
    if Num.geb (FlameChartPlugin.positionY p + deltaY) 0
    then setPositionY p (FlameChartPlugin.positionY p + deltaY)
    else setPositionY p 0 in
  let s2 :=
    InteractionsEngine.setRenderEngine s1
      (tryToChangePosition (InteractionsEngine.renderEngine s1) deltaX) in
  (p1, s2,
   if negb (Num.eqb startPositionX
              (BasicRenderEngine.positionX (basic (InteractionsEngine.renderEngine s2))))
      || negb (Num.eqb startPositionY (FlameChartPlugin.positionY p1))
   then [Render] else []).
End WithData.

End FlameChartDrag.

(** ** The marks *)

Module MarksPlugin.

(** A mark, with the fields the layout reads. *)
Record Mark : Type := mkMark {
  shortName : string;
  timestamp : Q
}.

Definition calcMarksBlockPosition (position prevEnding : Q) : Q :=
  if Num.gtb position 0 then
    if Num.gtb prevEnding position then prevEnding else position
  else position.

(** A block that [render] queues and registers as a hit region: the mark,
    its left edge and its width. *)
Record Block : Type := mkBlock {
  node : Mark;
  blockPosition : Q;
  fullWidth : Q
}.

(** [MarksPlugin.render]: the blocks in the order they are queued.
    [measureText] is the width the canvas gives for a text. *)
Definition render (renderEngine : BasicRenderEngine.t) (blockPaddingLeftRight : Q)
    (measureText : string -> Q) (marks : list Mark) : list Block :=
  (fold_left
     (fun '(prevEnding, blocks) node =>
        let width := measureText (shortName node) in
        let fullWidth := width + blockPaddingLeftRight * 2 in
        let position := BasicRenderEngine.timeToPosition renderEngine (timestamp node) in
        let blockPosition := calcMarksBlockPosition position prevEnding in
        (blockPosition + fullWidth,
         blocks ++ [ {| node := node; blockPosition := blockPosition;
                        fullWidth := fullWidth |} ]))
     marks (0, [])).2.

End MarksPlugin.

(** ** The overview graph of the timeframe selector *)

Module RenderDots.

Inductive DotType : Type := start | end_.

(** A dot [{time, type}] of the list that [makeRenderDots] is given. *)
Record Dot : Type := mkDot {
  time : Q;
  type : DotType
}.

(** One step of [makeRenderDots]: the two pushes and the level after them.
    (The test [type === 'start' || type === 'end'] before the first push
    holds for both types.) *)
Definition renderStep (s : list (Q * Z) * Z * Z) (dot : Dot) : list (Q * Z) * Z * Z :=
  let '(renderDots, level, maxLevel) := s in
  let renderDots := renderDots ++ [(time dot, level)] in
  let level := match type dot with start => (level + 1)%Z | end_ => (level - 1)%Z end in
  let maxLevel := Z.max maxLevel level in
  (renderDots ++ [(time dot, level)], level, maxLevel).

(** [makeRenderDots]: the dots [[time, level]] and [maxLevel]. *)
Definition makeRenderDots (dots : list Dot) : list (Q * Z) * Z :=
  let '(renderDots, _, maxLevel) := fold_left renderStep dots ([], 0%Z, 0%Z) in
  (renderDots, maxLevel).

(** The dots that [makeFlameChartDots] and [makeWaterfallDots] make of a
    list of intervals [{start, end}]: a [start] and an [end] for each, then
    sorted by time. *)
Definition intervalDots (intervals : list (Q * Q)) : list Dot :=
  sort (fun a b => time a - time b)
    (flat_map (fun '(start', end') =>
                 [ {| time := start'; type := start |};
                   {| time := end'; type := end_ |} ])
       intervals).

End RenderDots.

(** ** The waterfall *)

(** [getValueByChoice], [property] being the field read. *)
Definition getValueByChoice {A} (array : list A) (property : A -> Q)
    (comparator : Q -> Q -> Q) (defaultValue : Q) : Q :=
  match array with
  | [] => defaultValue
  | first :: _ => fold_left (fun acc x => comparator acc (property x)) array (property first)
  end.

Module Waterfall.

(** A [start] or [end] of an interval: a key of the item's [timing], or a
    time. *)
Inductive TimeRef : Type :=
  | Key (key : string)
  | Time (time : Q).

Inductive IntervalType : Type := block | line.

Module Interval.
Record t : Type := mk {
  name : string;
  color : string;
  type : IntervalType;
  start : TimeRef;
  end_ : TimeRef
}.
End Interval.

Module Item.
(** [intervals] is the name of a list of [waterfall.intervals], or a list.
    ([meta] is carried along unread and left out.) *)
Record t : Type := mk {
  name : string;
  intervals : string + list Interval.t;
  timing : gmap string Q
}.
End Item.

Record t : Type := mk {
  items : list Item.t;
  intervals : gmap string (list Interval.t)
}.

Module Prepared.
(** An interval with its times resolved. *)
Record t : Type := mk {
  start : Q;
  end_ : Q;
  color : string;
  name : string;
  type : IntervalType
}.
End Prepared.

Module Parsed.
Record t : Type := mk {
  intervals : list Prepared.t;
  textBlock : Q * Q;
  name : string;
  timing : gmap string Q;
  min : Q;
  max : Q;
  index : nat
}.
End Parsed.

(** [typeof start === 'string' ? timing[start] : start]; [None] is
    [undefined]. *)
Definition resolve (timing : gmap string Q) (ref : TimeRef) : option Q :=
  match ref with
  | Key key => timing !! key
  | Time time => Some time
  end.

(** The [map] of the intervals and the [filter] that keeps those with two
    numbers. *)
Definition prepare (timing : gmap string Q) (resolvedIntervals : list Interval.t)
    : list Prepared.t :=
  omap (fun interval =>
          start ← resolve timing (Interval.start interval);
          end' ← resolve timing (Interval.end_ interval);
          Some {| Prepared.start := start; Prepared.end_ := end';
                  Prepared.color := Interval.color interval;
                  Prepared.name := Interval.name interval;
                  Prepared.type := Interval.type interval |})
       resolvedIntervals.

Definition isBlock (interval : Prepared.t) : bool :=
  match Prepared.type interval with block => true | line => false end.

(** The callback of the [map] over the items; a [TypeError] when the item
    names a list that [waterfall.intervals] does not have. *)
Definition parseItem (waterfall : t) (index : nat) (item : Item.t) : option Parsed.t :=
  resolvedIntervals ←
    match Item.intervals item with
    | inl key => intervals waterfall !! key
    | inr intervals => Some intervals
    end;
  let preparedIntervals := prepare (Item.timing item) resolvedIntervals in
  let blocks := List.filter isBlock preparedIntervals in
  let blockStart := getValueByChoice blocks Prepared.start Math_min 0 in
  let blockEnd := getValueByChoice blocks Prepared.end_ Math_max 0 in
  let min := getValueByChoice preparedIntervals Prepared.start Math_min 0 in
  let max := getValueByChoice preparedIntervals Prepared.end_ Math_max 0 in
  Some {| Parsed.intervals := preparedIntervals;
          Parsed.textBlock := (blockStart, blockEnd);
          Parsed.name := Item.name item;
          Parsed.timing := Item.timing item;
          Parsed.min := min;
          Parsed.max := max;
          Parsed.index := index |}.

(** [a.min - b.min || b.max - a.max] *)
Definition compareItems (a b : Parsed.t) : Q :=
  let d := Parsed.min a - Parsed.min b in
  if Num.eqb d 0 then Parsed.max b - Parsed.max a else d.

Definition parseWaterfall (waterfall : t) : option (list Parsed.t) :=
  parsed ← mapM (fun '(index, item) => parseItem waterfall index item)
              (imap (fun index item => (index, item)) (items waterfall));
  Some (sort compareItems
          (List.filter (fun item => negb (length (Parsed.intervals item) =? 0)%nat) parsed)).

End Waterfall.

(** ** The rows of the waterfall *)

Module WaterfallPlugin.
Import Waterfall.

(** The filter of [render]: what is kept for the window
    [[leftSide, rightSide]]. *)
Definition viewed (leftSide rightSide : Q) (entry : Parsed.t) : bool :=
  negb ((Num.ltb rightSide (Parsed.min entry) && Num.ltb rightSide (Parsed.max entry))
        || (Num.gtb leftSide (Parsed.max entry) && Num.gtb rightSide (Parsed.min entry))).

(** The [while] loop of [render] that pops the stack; the stack is written
    with its top, the array's last element, first. *)
Fixpoint popStack (entry : Parsed.t) (stack : list Parsed.t) : list Parsed.t :=
  match stack with
  | [] => []
  | top :: rest =>
      if Num.gtb (Parsed.min entry - Parsed.max top) 0 then popStack entry rest
      else stack
  end.

(** The callback of the [map] of [render]: the stack after it and the entry
    with its level. *)
Definition levelStep (s : list Parsed.t * list (Parsed.t * nat)) (entry : Parsed.t)
    : list Parsed.t * list (Parsed.t * nat) :=
  let '(stack, result) := s in
  let stack := popStack entry stack in
  let level := length stack in
  (entry :: stack, result ++ [(entry, level)]).

(** [viewedData] of [render]: the entries in view, each with its level. *)
Definition viewedData (data : list Parsed.t) (leftSide rightSide : Q)
    : list (Parsed.t * nat) :=
  (fold_left levelStep (List.filter (viewed leftSide rightSide) data) ([], [])).2.

End WaterfallPlugin.

(** * Properties *)

(** ** The comparisons decide the order of the numbers *)

Lemma leb_le x y : Num.leb x y = true <-> x <= y.
Proof. apply Qle_bool_iff. Qed.

Lemma leb_gt x y : Num.leb x y = false <-> y < x.
Proof.
  unfold Num.leb. split; intros H.
  - apply Qnot_le_lt. intros Hle. apply Qle_bool_iff in Hle. congruence.
  - destruct (Qle_bool x y) eqn:E; [|reflexivity].
    apply Qle_bool_iff in E. lra.
Qed.

Lemma ltb_lt x y : Num.ltb x y = true <-> x < y.
Proof. unfold Num.ltb. rewrite negb_true_iff. apply leb_gt. Qed.

Lemma ltb_ge x y : Num.ltb x y = false <-> y <= x.
Proof. unfold Num.ltb. rewrite negb_false_iff. apply leb_le. Qed.

Lemma gtb_gt x y : Num.gtb x y = true <-> y < x.
Proof. apply ltb_lt. Qed.

Lemma gtb_le x y : Num.gtb x y = false <-> x <= y.
Proof. apply ltb_ge. Qed.

Lemma geb_ge x y : Num.geb x y = true <-> y <= x.
Proof. apply leb_le. Qed.

Lemma geb_lt x y : Num.geb x y = false <-> x < y.
Proof. apply leb_gt. Qed.

Lemma eqb_eq x y : Num.eqb x y = true <-> x == y.
Proof. apply Qeq_bool_iff. Qed.

Lemma eqb_neq x y : Num.eqb x y = false <-> ~ x == y.
Proof.
  unfold Num.eqb. split.
  - intros H E. apply Qeq_bool_iff in E. congruence.
  - intros N. destruct (Qeq_bool x y) eqn:E; [|reflexivity].
    apply Qeq_bool_iff in E. contradiction.
Qed.

(** Case analysis on a comparison, with the order fact in the context. *)
Ltac cmp_cases :=
  repeat match goal with
  | |- context [Num.leb ?a ?b] =>
      let E := fresh "E" in
      destruct (Num.leb a b) eqn:E;
      [apply leb_le in E | apply leb_gt in E]
  | |- context [Num.geb ?a ?b] =>
      let E := fresh "E" in
      destruct (Num.geb a b) eqn:E;
      [apply geb_ge in E | apply geb_lt in E]
  | |- context [Num.ltb ?a ?b] =>
      let E := fresh "E" in
      destruct (Num.ltb a b) eqn:E;
      [apply ltb_lt in E | apply ltb_ge in E]
  | |- context [Num.gtb ?a ?b] =>
      let E := fresh "E" in
      destruct (Num.gtb a b) eqn:E;
      [apply gtb_gt in E | apply gtb_le in E]
  end; simpl.
(** ** Coordinate transforms *)

Section Coordinates.
Import BasicRenderEngine.

Lemma Rounded_exact (e : t) (x : Q) :
  Rounded.timeToPosition (fun q => q) e x = timeToPosition e x
  /\ Rounded.pixelToTime (fun q => q) e x = pixelToTime e x.
Proof. split; reflexivity. Qed.

Section RoundingError.
Variable fl : Q -> Q.
Variables u eta : Q.
Hypothesis fl_error : forall x, Qabs (fl x - x) <= u * Qabs x + eta.
Hypothesis u_nonneg : 0 <= u.

Lemma Qabs_diff_triangle (x y z : Q) : Qabs (x - z) <= Qabs (x - y) + Qabs (y - z).
Proof.
  assert (E : x - z == (x - y) + (y - z)) by ring.
  rewrite E. apply Qabs_triangle.
Qed.

Lemma Qabs_near (x y d : Q) : Qabs (x - y) <= d -> Qabs x <= Qabs y + d.
Proof.
  intros H.
  assert (E : x == y + (x - y)) by ring.
  rewrite E at 1.
  eapply Qle_trans; [apply Qabs_triangle|]. lra.
Qed.

(** Rounding a number that is within [d] of [y], itself of size at most
    [m], gives a number within [d + (u * (m + d) + eta)] of [y]. *)
Lemma fl_close (x y d m : Q) :
  Qabs (x - y) <= d -> Qabs y <= m ->
  Qabs (fl x - y) <= d + (u * (m + d) + eta).
Proof.
  intros Hd Hm.
  pose proof (Qabs_diff_triangle (fl x) x y) as Ht.
  pose proof (fl_error x) as He.
  pose proof (Qabs_near x y d Hd) as Hx.
  assert (Hu : u * Qabs x <= u * (m + d)).
  { rewrite (Qmult_comm u (Qabs x)), (Qmult_comm u (m + d)).
    apply Qmult_le_compat_r; [lra | exact u_nonneg]. }
  lra.
Qed.
End RoundingError.

Lemma grid_monotone (x y : Q) : x <= y -> Rounded.grid x <= Rounded.grid y.
Proof.
  intros H. unfold Rounded.grid.
  apply Qmult_le_compat_r; [|discriminate].
  rewrite <- Zle_Qle. apply Qfloor_resp_le. lra.
Qed.

Lemma grid_error (x : Q) : Qabs (Rounded.grid x - x) <= 0 * Qabs x + (1 # 2048).
Proof.
  unfold Rounded.grid.
  pose proof (Qfloor_le (x * 1024 + (1 # 2))) as Hlo.
  pose proof (Qlt_floor (x * 1024 + (1 # 2))) as Hhi.
  rewrite inject_Z_plus in Hhi. change (inject_Z 1) with 1 in Hhi.
  set (n := inject_Z (Qfloor (x * 1024 + (1 # 2)))) in *. clearbody n.
  apply Qabs_Qle_condition.
  unfold Qdiv. change (/ 1024) with (1 # 1024). split; lra.
Qed.

(** C2, as the code has it.  [pixelToTime] turns a width in pixels into a
    duration, so going to pixels and back gives the time relative to the
    left edge, [t - positionX], up to the rounding of the four operations on
    the way.  For a rounding [fl] that is monotone and whose error on [x] is
    at most [u * |x| + eta] (binary64 rounding to nearest is one, with
    [u = 2^-53] and [eta = 2^-1075], as long as nothing overflows):
    [timeToPosition t] is within [e1 + e2] of [(t - positionX) * zoom]; the
    round trip is within [(e1 + e2) / zoom + e3] of [t - positionX], which
    for [eta = 0] is [(|t| + |positionX|) * ((1 + u)^3 - 1)]; in exact
    arithmetic ([u = eta = 0]) the round trip is [t - positionX] itself;
    and for a positive zoom [timeToPosition] is non-decreasing. *)
Theorem C2_pixelToTime_timeToPosition (fl : Q -> Q) (u eta : Q) (e : t) (time : Q) :
  (forall x y, x <= y -> fl x <= fl y) ->
  (forall x, Qabs (fl x - x) <= u * Qabs x + eta) ->
  0 <= u ->
  0 < zoom e ->
  let size := (Qabs time + Qabs (positionX e)) * zoom e in
  let e1 := u * size + 2 * eta in
  let e2 := u * (size + e1) + eta in
  let e3 := u * ((size + e1 + e2) / zoom e) + eta in
  let roundTrip := Rounded.pixelToTime fl e (Rounded.timeToPosition fl e time) in
  Qabs (Rounded.timeToPosition fl e time - (time - positionX e) * zoom e) <= e1 + e2
  /\ Qabs (roundTrip - (time - positionX e)) <= (e1 + e2) / zoom e + e3
  /\ (eta == 0 ->
      (e1 + e2) / zoom e + e3
      == (Qabs time + Qabs (positionX e)) * ((1 + u) * (1 + u) * (1 + u) - 1))
  /\ (u == 0 -> eta == 0 -> roundTrip == time - positionX e)
  /\ (forall t1 t2, t1 <= t2 ->
        Rounded.timeToPosition fl e t1 <= Rounded.timeToPosition fl e t2).
Proof.
  intros Hmono Herr Hu Hz. cbv zeta.
  set (z := zoom e) in *. set (p := positionX e).
  set (size := (Qabs time + Qabs p) * z).
  set (e1 := u * size + 2 * eta).
  set (e2 := u * (size + e1) + eta).
  set (e3 := u * ((size + e1 + e2) / z) + eta).
  assert (Heta : 0 <= eta).
  { pose proof (Herr 0) as H0. pose proof (Qabs_nonneg (fl 0 - 0)) as H1.
    change (Qabs 0) with 0 in H0. lra. }
  assert (Hzabs : Qabs z == z) by (apply Qabs_pos; lra).
  assert (Ha : Qabs (fl (time * z) - time * z) <= u * (Qabs time * z) + eta).
  { pose proof (Herr (time * z)) as H0. rewrite Qabs_Qmult, Hzabs in H0. exact H0. }
  assert (Hb : Qabs (fl (p * z) - p * z) <= u * (Qabs p * z) + eta).
  { pose proof (Herr (p * z)) as H0. rewrite Qabs_Qmult, Hzabs in H0. exact H0. }
  assert (Hsize : Qabs ((time - p) * z) <= size).
  { rewrite Qabs_Qmult, Hzabs. unfold size.
    apply Qmult_le_compat_r; [|lra].
    assert (E : time - p == time + - p) by ring. rewrite E.
    eapply Qle_trans; [apply Qabs_triangle|]. rewrite Qabs_opp. lra. }
  assert (Hab : Qabs (fl (time * z) - fl (p * z) - (time - p) * z) <= e1).
  { assert (E : fl (time * z) - fl (p * z) - (time - p) * z
               == (fl (time * z) - time * z) + - (fl (p * z) - p * z)) by ring.
    rewrite E. eapply Qle_trans; [apply Qabs_triangle|]. rewrite Qabs_opp.
    unfold e1, size. lra. }
  assert (Hc : Qabs (Rounded.timeToPosition fl e time - (time - p) * z) <= e1 + e2).
  { unfold Rounded.timeToPosition. fold z p.
    apply (fl_close fl u eta Herr Hu _ _ e1 size Hab Hsize). }
  assert (Hzinv : 0 < / z) by (apply Qinv_lt_0_compat; exact Hz).
  assert (Hq : Qabs (Rounded.timeToPosition fl e time / z - (time - p)) <= (e1 + e2) / z).
  { assert (E : Rounded.timeToPosition fl e time / z - (time - p)
               == (Rounded.timeToPosition fl e time - (time - p) * z) * / z)
      by (field; lra).
    rewrite E, Qabs_Qmult, (Qabs_pos (/ z)) by lra.
    unfold Qdiv. apply Qmult_le_compat_r; [exact Hc | lra]. }
  assert (Htp : Qabs (time - p) <= size / z).
  { assert (E : size / z == Qabs time + Qabs p) by (unfold size; field; lra).
    rewrite E.
    assert (E' : time - p == time + - p) by ring. rewrite E'.
    eapply Qle_trans; [apply Qabs_triangle|]. rewrite Qabs_opp. lra. }
  assert (Hd : Qabs (Rounded.pixelToTime fl e (Rounded.timeToPosition fl e time)
                     - (time - p)) <= (e1 + e2) / z + e3).
  { unfold Rounded.pixelToTime. fold z.
    pose proof (fl_close fl u eta Herr Hu _ _ _ _ Hq Htp) as H0.
    assert (E : e3 == u * (size / z + (e1 + e2) / z) + eta)
      by (unfold e3; field; lra).
    rewrite E. exact H0. }
  split; [exact Hc|]. split; [exact Hd|]. split; [|split].
  - intros E0. unfold e3, e2, e1, size. rewrite E0. field. lra.
  - intros Eu E0.
    assert (Ezero : (e1 + e2) / z + e3 == 0).
    { unfold e3, e2, e1. rewrite Eu, E0. field. lra. }
    rewrite Ezero in Hd.
    apply Qabs_Qle_condition in Hd. lra.
  - intros t1 t2 Ht. unfold Rounded.timeToPosition. fold z p.
    apply Hmono.
    assert (H1 : fl (t1 * z) <= fl (t2 * z)).
    { apply Hmono. apply Qmult_le_compat_r; lra. }
    lra.
Qed.

Definition C2_engine : t :=
  {| width := 100; height := 50; zoom := 2; positionX := 1; min := 0; max := 10 |}.

Lemma C2_pixelToTime_timeToPosition_witness :
  Qabs (Rounded.pixelToTime Rounded.grid C2_engine
          (Rounded.timeToPosition Rounded.grid C2_engine 3)
        - (3 - positionX C2_engine)) <= 1 # 512.
Proof.
  assert (Hz : 0 < zoom C2_engine) by reflexivity.
  assert (Hu : 0 <= 0) by discriminate.
  pose proof (proj1 (proj2 (C2_pixelToTime_timeToPosition Rounded.grid 0 (1 # 2048)
                              C2_engine 3 grid_monotone grid_error Hu Hz))) as H.
  cbv zeta in H. eapply Qle_trans; [exact H|].
  vm_compute. discriminate.
Defined.

(** C2 as stated fails: with the left edge at time 1, time 3 of the extent
    [0, 10] goes to pixel 4 at zoom 2 and comes back as 2, not 3. *)
Lemma C2_counterexample :
  0 < zoom C2_engine
  /\ min C2_engine <= 3 <= max C2_engine
  /\ timeToPosition C2_engine 3 == 4
  /\ pixelToTime C2_engine (timeToPosition C2_engine 3) == 2
  /\ ~ pixelToTime C2_engine (timeToPosition C2_engine 3) == 3.
Proof.
  repeat split; try reflexivity; try discriminate.
Qed.
End Coordinates.

Section Binary64.
Import PrimFloat.

(** In binary64 itself, at the zoom nearest to 0.3 and with the left edge
    at 0: time 7 and the next number after it go to the same pixel, so that
    [timeToPosition] is not strictly increasing; and the pixel of time 7
    comes back as a time that is not 7. *)
Lemma timeToPosition_binary64 :
  let zoom := (3 / 10)%float in
  let later := next_up 7%float in
  ltb 7%float later = true
  /\ eqb (Double.timeToPosition zoom 0%float 7%float)
         (Double.timeToPosition zoom 0%float later) = true
  /\ eqb (Double.pixelToTime zoom (Double.timeToPosition zoom 0%float 7%float)) 7%float
     = false.
Proof. vm_compute. repeat split. Qed.
End Binary64.

(** ** Panning *)

Section Pan.
Import BasicRenderEngine.

Lemma root_setPositionX_basic (e : RenderEngine.t) (x : Q) :
  basic (RenderEngine.setPositionX e x).1
  = (BasicRenderEngine.setPositionX (basic e) x).1.
Proof. reflexivity. Qed.

(** Panning the root engine changes [positionX] only. *)
Lemma tryToChangePosition_frame (e : RenderEngine.t) (positionDelta : Q) :
  let e' := tryToChangePosition e positionDelta in
  width (basic e') = width (basic e) /\ zoom (basic e') = zoom (basic e)
  /\ min (basic e') = min (basic e) /\ max (basic e') = max (basic e)
  /\ height (basic e') = height (basic e).
Proof.
  unfold tryToChangePosition.
  destruct (_ && _); [|destruct (Num.leb _ _); [|destruct (Num.geb _ _)]];
    simpl; auto.
Qed.

(** The three cases of [tryToChangePosition]; one of them always applies. *)
Lemma tryToChangePosition_cases (e : RenderEngine.t) (positionDelta : Q) :
  let b := basic e in
  let realView := getRealView b in
  let target := positionX b + positionDelta in
  let x' := positionX (basic (tryToChangePosition e positionDelta)) in
  (min b <= target /\ target + realView <= max b /\ x' = target)
  \/ (~ (min b <= target /\ target + realView <= max b)
      /\ target <= min b /\ x' = min b)
  \/ (min b < target /\ max b < target + realView /\ x' = max b - realView).
Proof.
  unfold tryToChangePosition. simpl.
  cmp_cases; simpl; try (left; repeat split; auto; lra);
    try (right; left; repeat split; auto; lra);
    try (right; right; repeat split; auto; lra); lra.
Qed.

(** C5, as the code has it, for a window that is not wider than the extent
    ([min <= max - width/zoom], the zoom taken non-zero, the quotient
    [width/zoom] being infinite in the source otherwise).  The position
    after a pan is never left of [min].  When the moved window stays in
    range the full delta is applied, and the window ends at or before
    [max]: [positionX + width/zoom <= max].  Otherwise the position is
    [min] (when the target is at or left of [min]) or [max - width/zoom],
    and in both cases it is at most [max - width/zoom].  Every comparison
    is one between expressions the source itself evaluates. *)
Theorem C5_pan_clamp (e : RenderEngine.t) (deltaTime : Q) :
  let b := basic e in
  let b' := basic (tryToChangePosition e deltaTime) in
  let realView := width b / zoom b in
  let target := positionX b + deltaTime in
  ~ zoom b == 0 ->
  min b <= max b - realView ->
  (min b' = min b /\ max b' = max b /\ width b' = width b /\ zoom b' = zoom b)
  /\ min b' <= positionX b'
  /\ (min b <= target /\ target + realView <= max b ->
      positionX b' = target /\ positionX b' + width b' / zoom b' <= max b')
  /\ (~ (min b <= target /\ target + realView <= max b) ->
      ((target <= min b /\ positionX b' = min b)
       \/ (min b < target /\ positionX b' = max b - realView))
      /\ positionX b' <= max b' - width b' / zoom b').
Proof.
  cbv zeta. intros _ Hfit.
  destruct (tryToChangePosition_frame e deltaTime) as (Hw & Hz & Hmin & Hmax & _).
  cbv zeta in Hw, Hz, Hmin, Hmax.
  split; [repeat split; assumption|].
  rewrite Hw, Hz, Hmin, Hmax.
  destruct (tryToChangePosition_cases e deltaTime)
    as [(H1 & H2 & Hx) | [(Hn & H1 & Hx) | (H1 & H2 & Hx)]];
    unfold getRealView in *; rewrite Hx.
  - split; [exact H1|]. split.
    + intros _. split; [reflexivity | exact H2].
    + intros Hn. exfalso. apply Hn. split; assumption.
  - split; [apply Qle_refl|]. split.
    + intros H. exfalso. apply Hn. exact H.
    + intros _. split; [|exact Hfit].
      left. split; [assumption | reflexivity].
  - split; [exact Hfit|]. split.
    + intros [_ H3]. exfalso. exact (Qlt_not_le _ _ H2 H3).
    + intros _. split; [|apply Qle_refl].
      right. split; [assumption | reflexivity].
Qed.

Definition C5_fit_engine : RenderEngine.t :=
  {| RenderEngine.base :=
       {| width := 100; height := 50; zoom := 20; positionX := 2; min := 0; max := 10 |};
     RenderEngine.children := [];
     RenderEngine.timeGridAccuracy := 0 |}.

Lemma C5_pan_clamp_witness :
  let b' := basic (tryToChangePosition C5_fit_engine 7) in
  min b' <= positionX b' /\ positionX b' <= max b' - width b' / zoom b'.
Proof.
  cbv zeta.
  assert (Hz : ~ zoom (basic C5_fit_engine) == 0) by (simpl; discriminate).
  assert (Hfit : min (basic C5_fit_engine)
                 <= max (basic C5_fit_engine)
                    - width (basic C5_fit_engine) / zoom (basic C5_fit_engine))
    by (vm_compute; discriminate).
  destruct (C5_pan_clamp C5_fit_engine 7 Hz Hfit) as (_ & Hlo & _ & Hclamped).
  split; [exact Hlo|].
  apply Hclamped. intros [_ H]. vm_compute in H. apply H. reflexivity.
Defined.

(** A state the code reaches by zooming out: extent [0, 10], 100 pixels
    wide, zoom 5, so that the window spans 20 time units. *)
Definition C5_wide_engine : RenderEngine.t :=
  {| RenderEngine.base :=
       {| width := 100; height := 50; zoom := 5; positionX := 0; min := 0; max := 10 |};
     RenderEngine.children := [];
     RenderEngine.timeGridAccuracy := 0 |}.

(** C5 as stated fails there: a pan by 0 leaves [positionX = 0], which is
    above [max - width/zoom = -10]. *)
Lemma C5_counterexample :
  let b' := basic (tryToChangePosition C5_wide_engine 0) in
  positionX b' == 0
  /\ max b' - width b' / zoom b' == -10
  /\ ~ (min b' <= positionX b' /\ positionX b' <= max b' - width b' / zoom b').
Proof.
  simpl. repeat split; try reflexivity.
  intros [_ H]. revert H. vm_compute. intros H. apply H. reflexivity.
Qed.
End Pan.

(** ** Setting the zoom *)

Section Zoom.
Import BasicRenderEngine.

(** The state [setZoom] leaves when it accepts. *)
Lemma setZoom_accepted (e : RenderEngine.t) (z : Q) :
  (RenderEngine.setZoom e z).2 = true ->
  zoom (basic (RenderEngine.setZoom e z).1) = z
  /\ Forall (fun engine => zoom (OffscreenRenderEngine.base engine) = z)
       (RenderEngine.children (RenderEngine.setZoom e z).1)
  /\ length (RenderEngine.children (RenderEngine.setZoom e z).1)
     = length (RenderEngine.children e).
Proof.
  unfold RenderEngine.setZoom.
  destruct (_ || _); simpl; [|discriminate].
  intros _. split; [reflexivity|]. split.
  - apply List.Forall_map. apply Forall_forall. intros c _. reflexivity.
  - apply length_map.
Qed.

Lemma setZoom_condition (e : RenderEngine.t) (z : Q) :
  (RenderEngine.setZoom e z).2 = true
  <-> (RenderEngine.getAccuracy e < MAX_ACCURACY)%Z \/ z <= zoom (basic e).
Proof.
  unfold RenderEngine.setZoom. simpl.
  destruct (Z.ltb_spec (RenderEngine.getAccuracy e) MAX_ACCURACY) as [Ha|Ha]; simpl.
  - split; auto.
  - cmp_cases.
    + split; auto.
    + split; [discriminate|]. intros [H|H]; [lia | lra].
Qed.

(** C8: [setZoom z] fails, leaving the engine as it was, exactly when the
    accuracy of the time grid has reached [MAX_ACCURACY] and [z] is above
    the current zoom; it succeeds, with [z] the zoom of the engine and of
    every panel, exactly when the accuracy is below [MAX_ACCURACY] or [z]
    is at most the current zoom. *)
Theorem C8_setZoom_rejected_iff (e : RenderEngine.t) (z : Q) :
  (RenderEngine.setZoom e z = (e, false)
   <-> (MAX_ACCURACY <= RenderEngine.getAccuracy e)%Z /\ zoom (basic e) < z)
  /\ ((RenderEngine.setZoom e z).2 = true
      /\ zoom (basic (RenderEngine.setZoom e z).1) = z
      /\ Forall (fun engine => zoom (OffscreenRenderEngine.base engine) = z)
           (RenderEngine.children (RenderEngine.setZoom e z).1)
      <-> (RenderEngine.getAccuracy e < MAX_ACCURACY)%Z \/ z <= zoom (basic e)).
Proof.
  split.
  - pose proof (setZoom_condition e z) as Hc.
    split.
    + intros Heq. rewrite Heq in Hc. simpl in Hc.
      split.
      * destruct (Z.lt_ge_cases (RenderEngine.getAccuracy e) MAX_ACCURACY) as [H|H];
          [|exact H].
        assert (false = true) by (apply Hc; left; exact H). discriminate.
      * apply Qnot_le_lt. intros H.
        assert (false = true) by (apply Hc; right; exact H). discriminate.
    + intros [Ha Hz]. unfold RenderEngine.setZoom.
      destruct (Z.ltb_spec (RenderEngine.getAccuracy e) MAX_ACCURACY) as [Ha'|_];
        [lia|]. simpl.
      replace (Num.leb z (zoom (RenderEngine.base e))) with false; [reflexivity|].
      symmetry. apply leb_gt. exact Hz.
  - split.
    + intros (H & _). apply setZoom_condition. exact H.
    + intros H. apply setZoom_condition in H.
      destruct (setZoom_accepted e z H) as (H1 & H2 & _). auto.
Qed.

(** The wheel handler and the hover check leave the render engine alone. *)
Lemma getHoveredRegion_renderEngine {D} (s : InteractionsEngine.t D) :
  InteractionsEngine.renderEngine (InteractionsEngine.getHoveredRegion s).1
  = InteractionsEngine.renderEngine s.
Proof.
  unfold InteractionsEngine.getHoveredRegion.
  destruct (List.find _ _); [reflexivity|].
  destruct (InteractionsEngine.findIndex _ _ _) as [[i inst]|]; reflexivity.
Qed.

Lemma clearCursor_renderEngine {D} (s : InteractionsEngine.t D) :
  InteractionsEngine.renderEngine (InteractionsEngine.clearCursor s)
  = InteractionsEngine.renderEngine s.
Proof.
  unfold InteractionsEngine.clearCursor.
  pose proof (getHoveredRegion_renderEngine s) as H.
  destruct (InteractionsEngine.getHoveredRegion s) as [s1 found]. simpl in H.
  destruct found as [r|]; [destruct (HitRegion.cursor r)|]; simpl; exact H.
Qed.

Lemma checkRegionHover_renderEngine {D} (s : InteractionsEngine.t D) :
  InteractionsEngine.renderEngine (InteractionsEngine.checkRegionHover s).1
  = InteractionsEngine.renderEngine s.
Proof.
  unfold InteractionsEngine.checkRegionHover.
  pose proof (getHoveredRegion_renderEngine s) as H.
  destruct (InteractionsEngine.getHoveredRegion s) as [s0 found]. simpl in H.
  destruct found as [new|].
  - simpl. destruct (InteractionsEngine.currentCursor s0);
      [|destruct (HitRegion.cursor new)]; simpl;
      rewrite ?clearCursor_renderEngine; exact H.
  - destruct (InteractionsEngine.hoveredRegion s0); simpl; [|exact H].
    destruct (InteractionsEngine.currentCursor s0); simpl;
      rewrite ?clearCursor_renderEngine; exact H.
Qed.
End Zoom.

(** ** The zoom floor *)

Section ZoomFloor.
Import BasicRenderEngine.

Lemma tryToChangePosition_initialZoom (e : RenderEngine.t) (positionDelta : Q) :
  getInitialZoom (basic (tryToChangePosition e positionDelta))
  = getInitialZoom (basic e).
Proof.
  destruct (tryToChangePosition_frame e positionDelta) as (Hw & _ & Hmin & Hmax & _).
  unfold getInitialZoom. rewrite Hw, Hmin, Hmax. reflexivity.
Qed.

Lemma tryToChangePosition_zoom (e : RenderEngine.t) (positionDelta : Q) :
  zoom (basic (tryToChangePosition e positionDelta)) = zoom (basic e).
Proof. apply tryToChangePosition_frame. Qed.

Lemma setZoom_initialZoom (e : RenderEngine.t) (z : Q) :
  getInitialZoom (basic (RenderEngine.setZoom e z).1) = getInitialZoom (basic e).
Proof.
  unfold RenderEngine.setZoom. destruct (_ || _); reflexivity.
Qed.

(** C9, as the code has it: [setZoom] applies a zoom-out request as it is.
    At a zoom of at least [initialZoom] (a positive number)
    [setZoom (initialZoom / 2)] is accepted and leaves the zoom at the
    requested [initialZoom / 2], which is below [initialZoom]; the initial
    zoom of the engine is what it was. *)
Theorem C9_zoom_floor (e : RenderEngine.t) :
  let initialZoom := getInitialZoom (basic e) in
  let r := RenderEngine.setZoom e (initialZoom / 2) in
  0 < initialZoom ->
  initialZoom <= zoom (basic e) ->
  r.2 = true
  /\ zoom (basic r.1) = initialZoom / 2
  /\ zoom (basic r.1) < initialZoom
  /\ getInitialZoom (basic r.1) = initialZoom.
Proof.
  cbv zeta. intros H0 Hge.
  set (initialZoom := getInitialZoom (basic e)) in *.
  assert (Hhalf : initialZoom / 2 < initialZoom).
  { clearbody initialZoom. unfold Qdiv. change (/ 2) with (1 # 2). lra. }
  assert (Hacc : (RenderEngine.setZoom e (initialZoom / 2)).2 = true).
  { apply setZoom_condition. right. lra. }
  destruct (setZoom_accepted e (initialZoom / 2) Hacc) as (Hz & _).
  split; [exact Hacc|]. split; [exact Hz|]. split.
  - rewrite Hz. exact Hhalf.
  - apply setZoom_initialZoom.
Qed.

(** The extent [0, 10] on 100 pixels, fitted: [zoom = initialZoom = 10]. *)
Definition C9_engine : RenderEngine.t :=
  {| RenderEngine.base :=
       {| width := 100; height := 50; zoom := 10; positionX := 0; min := 0; max := 10 |};
     RenderEngine.children := [];
     RenderEngine.timeGridAccuracy := 0 |}.

Lemma C9_zoom_floor_witness :
  (RenderEngine.setZoom C9_engine (getInitialZoom (basic C9_engine) / 2)).2 = true
  /\ zoom (basic (RenderEngine.setZoom C9_engine (getInitialZoom (basic C9_engine) / 2)).1)
     = getInitialZoom (basic C9_engine) / 2.
Proof.
  assert (H0 : 0 < getInitialZoom (basic C9_engine)) by reflexivity.
  assert (H1 : getInitialZoom (basic C9_engine) <= zoom (basic C9_engine))
    by (vm_compute; discriminate).
  destruct (C9_zoom_floor C9_engine H0 H1) as (Ha & Hs & _).
  split; [exact Ha | exact Hs].
Defined.

(** C9 as stated fails: at the fitted zoom 10, [setZoom (initialZoom / 2)]
    is a zoom-out, which [setZoom] accepts; the zoom becomes 5. *)
Lemma C9_counterexample :
  let e' := (RenderEngine.setZoom C9_engine (getInitialZoom (basic C9_engine) / 2)).1 in
  zoom (basic C9_engine) == getInitialZoom (basic C9_engine)
  /\ (RenderEngine.setZoom C9_engine (getInitialZoom (basic C9_engine) / 2)).2 = true
  /\ zoom (basic e') == 5
  /\ ~ zoom (basic e') == getInitialZoom (basic e').
Proof.
  cbv zeta. repeat split; try reflexivity.
  vm_compute. discriminate.
Qed.
End ZoomFloor.

(** ** Groupings into runs *)

Lemma last_list_last {A} (l : list A) : last l = list.last l.
Proof. unfold last. rewrite last_lookup. f_equal. lia. Qed.

Lemma last_snoc' {A} (l : list A) (x : A) : last (l ++ [x]) = Some x.
Proof. rewrite last_list_last. apply last_snoc. Qed.

Lemma last_nil' {A} : last (@nil A) = None.
Proof. reflexivity. Qed.

Lemma last_inv {A} (l : list A) :
  (l = [] /\ last l = None) \/ (exists l' x, l = l' ++ [x] /\ last l = Some x).
Proof.
  destruct l as [|a l] using rev_ind.
  - left. split; reflexivity.
  - right. exists l, a. split; [reflexivity | apply last_snoc'].
Qed.

Section RunsFacts.
Context {A : Type} (R : A -> A -> bool).

Lemma chained_snoc (c : list A) (x : A) :
  chained R (c ++ [x]) <-> chained R c /\ (forall a, last c = Some a -> R a x = true).
Proof.
  induction c as [|a c IH].
  - simpl. split; [intros _; split; [exact I | discriminate] | intros _; exact I].
  - destruct c as [|b c].
    + simpl. split.
      * intros [H _]. split; [exact I|]. intros a' [= <-]. exact H.
      * intros [_ H]. split; [apply H; reflexivity | exact I].
    + change ((a :: b :: c) ++ [x]) with (a :: (b :: c) ++ [x]).
      change (chained R (a :: (b :: c) ++ [x]))
        with (R a b = true /\ chained R ((b :: c) ++ [x])).
      change (chained R (a :: b :: c)) with (R a b = true /\ chained R (b :: c)).
      rewrite IH.
      assert (Hl : last (a :: b :: c) = last (b :: c)).
      { rewrite !last_list_last. apply last_cons_cons. }
      rewrite Hl. tauto.
Qed.

Lemma chained_split (c l1 l2 : list A) (a b : A) :
  chained R c -> c = l1 ++ a :: b :: l2 -> R a b = true.
Proof.
  intros Hc ->. induction l1 as [|x l1 IH].
  - apply Hc.
  - apply IH. destruct l1; apply Hc.
Qed.

Lemma separated_snoc (cs : list (list A)) (c : list A) :
  separated R (cs ++ [c])
  <-> separated R cs
      /\ (forall c0 a b, last cs = Some c0 -> last c0 = Some a -> head c = Some b ->
          R a b = false).
Proof.
  induction cs as [|c1 cs IH].
  - simpl. split; [intros _; split; [exact I | discriminate] | intros _; exact I].
  - destruct cs as [|c2 cs].
    + simpl. split.
      * intros [H _]. split; [exact I|]. intros c0 a b [= <-]. apply H.
      * intros [_ H]. split; [|exact I]. intros a b. apply H. reflexivity.
    + change ((c1 :: c2 :: cs) ++ [c]) with (c1 :: (c2 :: cs) ++ [c]).
      change (separated R (c1 :: (c2 :: cs) ++ [c]))
        with ((forall a b, last c1 = Some a -> head c2 = Some b -> R a b = false)
              /\ separated R ((c2 :: cs) ++ [c])).
      change (separated R (c1 :: c2 :: cs))
        with ((forall a b, last c1 = Some a -> head c2 = Some b -> R a b = false)
              /\ separated R (c2 :: cs)).
      rewrite IH.
      assert (Hl : last (c1 :: c2 :: cs) = last (c2 :: cs)).
      { rewrite !last_list_last. apply last_cons_cons. }
      rewrite Hl. tauto.
Qed.

(** Replacing the last group by a longer one with the same first element. *)
Lemma separated_extend (cs : list (list A)) (c : list A) (x : A) :
  c <> [] -> separated R (cs ++ [c]) -> separated R (cs ++ [c ++ [x]]).
Proof.
  intros Hne. rewrite !separated_snoc. intros [H1 H2]. split; [exact H1|].
  intros c0 a b Hc0 Ha Hb. apply (H2 c0 a b Hc0 Ha).
  destruct c; [contradiction | exact Hb].
Qed.

Lemma Runs_nil : Runs R [] [].
Proof.
  split; [reflexivity|]. split; [constructor|]. split; [constructor | exact I].
Qed.

(** The first element opens the first run. *)
Lemma Runs_open_first (x : A) : Runs R [x] [[x]].
Proof.
  split; [reflexivity|]. split; [|split; [|exact I]].
  - apply Forall_singleton. discriminate.
  - apply Forall_singleton. exact I.
Qed.

(** An element related to the last one extends the last run. *)
Lemma Runs_extend (l : list A) (cs : list (list A)) (c : list A) (a x : A) :
  Runs R l (cs ++ [c]) -> last c = Some a -> R a x = true ->
  Runs R (l ++ [x]) (cs ++ [c ++ [x]]).
Proof.
  intros (Hcat & Hne & Hch & Hsep) Ha HR.
  apply Forall_app in Hne as [Hne1 Hne2]. apply Forall_app in Hch as [Hch1 Hch2].
  apply Forall_inv in Hne2. apply Forall_inv in Hch2.
  split; [|split; [|split]].
  - rewrite <- Hcat, !concat_app. simpl. rewrite !app_nil_r, app_assoc. reflexivity.
  - apply Forall_app. split; [exact Hne1|]. apply Forall_singleton.
    destruct c; discriminate.
  - apply Forall_app. split; [exact Hch1|]. apply Forall_singleton.
    apply chained_snoc. split; [exact Hch2|].
    intros a' Ha'. rewrite Ha in Ha'. injection Ha' as <-. exact HR.
  - apply separated_extend; assumption.
Qed.

(** An element not related to the last one opens a new run. *)
Lemma Runs_open (l : list A) (cs : list (list A)) (c : list A) (a x : A) :
  Runs R l (cs ++ [c]) -> last c = Some a -> R a x = false ->
  Runs R (l ++ [x]) ((cs ++ [c]) ++ [[x]]).
Proof.
  intros (Hcat & Hne & Hch & Hsep) Ha HR.
  split; [|split; [|split]].
  - rewrite concat_app, Hcat. reflexivity.
  - apply Forall_app. split; [exact Hne|]. apply Forall_singleton. discriminate.
  - apply Forall_app. split; [exact Hch|]. apply Forall_singleton. exact I.
  - apply separated_snoc. split; [exact Hsep|].
    intros c0 a' b Hc0 Ha' [= <-].
    rewrite last_snoc' in Hc0. injection Hc0 as <-.
    rewrite Ha in Ha'. injection Ha' as <-. exact HR.
Qed.

Lemma Runs_last (l : list A) (cs : list (list A)) (c : list A) :
  Runs R l (cs ++ [c]) -> last l = last c /\ c <> [].
Proof.
  intros (Hcat & Hne & _).
  apply Forall_app in Hne as [_ Hne]. apply Forall_inv in Hne.
  split; [|exact Hne].
  rewrite <- Hcat, concat_app. simpl. rewrite app_nil_r.
  destruct (last_inv c) as [[-> _] | (c' & x & -> & Hx)]; [contradiction|].
  rewrite Hx, app_assoc. apply last_snoc'.
Qed.

Lemma Runs_nil_inv (cs : list (list A)) : Runs R [] cs -> cs = [].
Proof.
  intros (Hcat & Hne & _). destruct cs as [|c cs]; [reflexivity|].
  apply Forall_cons in Hne as [Hc _]. destruct c; [contradiction | discriminate].
Qed.

Lemma separated_app_inv (cs1 cs2 : list (list A)) (c1 c2 : list A) (a b : A) :
  separated R ((cs1 ++ [c1]) ++ c2 :: cs2) ->
  last c1 = Some a -> head c2 = Some b -> R a b = false.
Proof.
  rewrite <- app_assoc. simpl.
  induction cs1 as [|c cs1 IH]; intros Hsep.
  - apply Hsep.
  - apply IH. destruct cs1; apply Hsep.
Qed.

(** No cut falls between two related neighbours of [l]. *)
Lemma Runs_no_cut (l : list A) (cs cs1 cs2 : list (list A)) (xs ys : list A) (a b : A) :
  Runs R l cs -> l = xs ++ a :: b :: ys -> R a b = true ->
  cs = cs1 ++ cs2 -> concat cs1 = xs ++ [a] -> False.
Proof.
  intros (Hcat & Hne & _ & Hsep) -> HR -> Hcs1.
  rewrite concat_app, Hcs1, <- app_assoc in Hcat. simpl in Hcat.
  apply app_inv_head in Hcat.
  apply Forall_app in Hne as [Hne1 Hne2].
  destruct (last_inv cs1) as [[-> _] | (cs1' & c1 & -> & _)].
  { simpl in Hcs1. destruct xs; discriminate. }
  destruct cs2 as [|c2 cs2]; [discriminate|].
  apply Forall_app in Hne1 as [_ Hc1]. apply Forall_inv in Hc1.
  apply Forall_cons in Hne2 as [Hc2 _].
  assert (Ha : last c1 = Some a).
  { rewrite concat_app in Hcs1. simpl in Hcs1. rewrite app_nil_r in Hcs1.
    destruct (last_inv c1) as [[-> _] | (c1' & x & -> & Hx)]; [contradiction|].
    rewrite Hx. rewrite app_assoc in Hcs1. apply app_inj_tail in Hcs1 as [_ ->].
    reflexivity. }
  assert (Hb : head c2 = Some b).
  { destruct c2 as [|b' c2]; [contradiction|]. simpl in Hcat.
    injection Hcat as -> _. reflexivity. }
  rewrite (separated_app_inv _ _ _ _ _ _ Hsep Ha Hb) in HR. discriminate.
Qed.
End RunsFacts.

(** ** Meta-clustering *)

Section MetaClusters.
Variable condition : FlatTreeNode -> FlatTreeNode -> bool.

(** The test of [metaClusterizeFlatTree]'s [if], on the two nodes. *)
Let joins (lastNode node : FlatTreeNode) : bool :=
  Nat.eqb (level lastNode) (level node) && condition lastNode node.

Lemma alter_last {A} (f : A -> A) (l : list A) (x : A) :
  alter f (length (l ++ [x]) - 1)%nat (l ++ [x]) = l ++ [f x].
Proof.
  rewrite length_app. simpl.
  replace (length l + 1 - 1)%nat with (length l + 0)%nat by lia.
  rewrite alter_app_r. reflexivity.
Qed.

Lemma metaClusterizeStep_Runs (l : list FlatTreeNode) (acc : list (list FlatTreeNode))
    (node : FlatTreeNode) :
  Runs joins l acc -> Runs joins (l ++ [node]) (metaClusterizeStep condition acc node).
Proof.
  intros HR. unfold metaClusterizeStep.
  destruct (last_inv acc) as [[-> ->] | (acc' & c & -> & ->)].
  - destruct HR as (<- & _). apply Runs_open_first.
  - destruct (Runs_last _ _ _ _ HR) as [_ Hne].
    destruct (last_inv c) as [[-> _] | (c' & a & Hc & ->)]; [contradiction|].
    fold (joins a node). destruct (joins a node) eqn:Ej.
    + rewrite alter_last. apply (Runs_extend _ _ _ _ a); [exact HR | | exact Ej].
      rewrite Hc. apply last_snoc'.
    + apply (Runs_open _ _ _ _ a); [exact HR | | exact Ej].
      rewrite Hc. apply last_snoc'.
Qed.

Lemma metaClusterize_fold_Runs (flatTree l : list FlatTreeNode)
    (acc : list (list FlatTreeNode)) :
  Runs joins l acc ->
  Runs joins (l ++ flatTree) (fold_left (metaClusterizeStep condition) flatTree acc).
Proof.
  revert l acc. induction flatTree as [|node flatTree IH]; intros l acc HR.
  - rewrite app_nil_r. exact HR.
  - simpl. replace (l ++ node :: flatTree) with ((l ++ [node]) ++ flatTree)
      by (rewrite <- app_assoc; reflexivity).
    apply IH, metaClusterizeStep_Runs, HR.
Qed.

Lemma filter_nonempty {A} (cs : list (list A)) :
  Forall (fun c => c <> []) cs ->
  List.filter (fun nodes => negb (Nat.eqb (length nodes) 0)) cs = cs.
Proof.
  induction 1 as [|c cs Hc _ IH]; [reflexivity|].
  simpl. destruct c; [contradiction|]. simpl. rewrite IH. reflexivity.
Qed.

Lemma metaClusterizeFlatTree_Runs (flatTree : list FlatTreeNode) :
  Runs joins flatTree (map Meta.nodes (metaClusterizeFlatTree flatTree condition)).
Proof.
  unfold metaClusterizeFlatTree.
  pose proof (metaClusterize_fold_Runs flatTree [] [] (Runs_nil joins)) as HR.
  simpl in HR.
  rewrite filter_nonempty by apply HR.
  rewrite map_map. simpl. rewrite map_id. exact HR.
Qed.

(** C7: the meta-clusters cut the flat sequence into consecutive non-empty
    pieces; neighbours inside a cluster have the same level and satisfy the
    condition; and no cut separates two neighbours of the sequence that have
    the same level and satisfy the condition.  (This needs neither the order
    of the sequence nor that the condition is an equivalence.) *)
Theorem C7_metaClusters_partition (flatTree : list FlatTreeNode) :
  let clusters := map Meta.nodes (metaClusterizeFlatTree flatTree condition) in
  concat clusters = flatTree
  /\ Forall (fun c => c <> []) clusters
  /\ (forall c l1 a b l2,
        In c clusters -> c = l1 ++ a :: b :: l2 ->
        level a = level b /\ condition a b = true)
  /\ (forall xs a b ys,
        flatTree = xs ++ a :: b :: ys ->
        level a = level b -> condition a b = true ->
        ~ exists cs1 cs2, clusters = cs1 ++ cs2 /\ concat cs1 = xs ++ [a]).
Proof.
  cbv zeta. pose proof (metaClusterizeFlatTree_Runs flatTree) as HR.
  split; [apply HR|]. split; [apply HR|]. split.
  - intros c l1 a b l2 Hin Hc.
    destruct HR as (_ & _ & Hch & _).
    rewrite List.Forall_forall in Hch.
    pose proof (chained_split joins c l1 l2 a b (Hch c Hin) Hc) as Hj.
    unfold joins in Hj. apply andb_true_iff in Hj as [Hl Hcond].
    apply Nat.eqb_eq in Hl. split; assumption.
  - intros xs a b ys Hflat Hl Hcond (cs1 & cs2 & Hcs & Hcat).
    apply (Runs_no_cut joins _ _ cs1 cs2 xs ys a b HR Hflat); [|exact Hcs|exact Hcat].
    unfold joins. rewrite Hl, Nat.eqb_refl, Hcond. reflexivity.
Qed.
End MetaClusters.

(** ** Render clustering *)

Lemma arraySet_end {A} (c : list A) (x : A) : arraySet c (length c) x = c ++ [x].
Proof. unfold arraySet. rewrite Nat.ltb_irrefl. reflexivity. Qed.

Lemma alter_middle {A} (f : A -> A) (l1 l2 : list A) (x : A) :
  alter f (length l1 + length l2)%nat (l1 ++ l2 ++ [x]) = l1 ++ l2 ++ [f x].
Proof.
  rewrite alter_app_r.
  replace (length l2) with (length l2 + 0)%nat by lia.
  rewrite alter_app_r. reflexivity.
Qed.

Section ClusterizeFacts.
Variables (zoom start' end' stickDistance minBlockSize : Q).

Let sticks := sticks zoom stickDistance minBlockSize.
Let visible (node : FlatTreeNode) : bool := checkNodeTimeboundNesting node start' end'.
Let clusterizeNode := clusterizeNode zoom start' end' stickDistance minBlockSize.


(** The state of the scan after the nodes whose visible ones are [vis], when
    it began with [acc0]: the arrays added are the runs [g] of [vis];
    [lastNode] is the last visible node; [lastCluster] refers to the last
    array, and [scanIndex] is its length. *)
Definition ScanInv (acc0 : list (list FlatTreeNode)) (vis : list FlatTreeNode)
    (s : ScanState) : Prop :=
  exists g,
    acc s = acc0 ++ g
    /\ Runs sticks vis g
    /\ lastNode s = last vis
    /\ ((g = [] /\ lastCluster s = None)
        \/ (exists g' c, g = g' ++ [c]
                         /\ lastCluster s = Some (length acc0 + length g')%nat
                         /\ scanIndex s = length c)).

Lemma ScanInv_init (acc0 : list (list FlatTreeNode)) :
  ScanInv acc0 []
    {| acc := acc0; lastCluster := None; lastNode := None; scanIndex := 0 |}.
Proof.
  exists []. simpl. rewrite app_nil_r.
  split; [reflexivity|]. split; [apply Runs_nil|]. split; [reflexivity|].
  left. split; reflexivity.
Qed.

Lemma clusterizeNode_skip (s : ScanState) (node : FlatTreeNode) :
  visible node = false -> clusterizeNode s node = s.
Proof.
  unfold visible, clusterizeNode, TreeClusters.clusterizeNode. intros ->. reflexivity.
Qed.

Lemma clusterizeNode_ScanInv (acc0 : list (list FlatTreeNode)) (vis : list FlatTreeNode)
    (s : ScanState) (node : FlatTreeNode) :
  ScanInv acc0 vis s -> visible node = true ->
  ScanInv acc0 (vis ++ [node]) (clusterizeNode s node).
Proof.
  intros (g & Hacc & HR & Hlast & Hg) Hvis.
  unfold clusterizeNode, TreeClusters.clusterizeNode.
  unfold visible in Hvis. rewrite Hvis.
  destruct Hg as [[-> Hlc] | (g' & c & -> & Hlc & Hidx)].
  - (* the first visible node of the meta-cluster *)
    rewrite Hlc. destruct HR as (<- & _). simpl.
    exists [[node]]. simpl. rewrite Hacc, app_nil_r.
    split; [reflexivity|]. split; [apply Runs_open_first|].
    split; [reflexivity|]. right. exists [], [node]. simpl.
    repeat split; f_equal; lia.
  - destruct (Runs_last _ _ _ _ HR) as [Hl Hne].
    destruct (last_inv c) as [[-> _] | (c' & a & Hc & Ha)]; [contradiction|].
    rewrite Hlc, Hlast, Hl, Ha.
    fold (sticks a node). destruct (sticks a node) eqn:Es.
    + (* merged into the open cluster *)
      exists (g' ++ [c ++ [node]]). simpl.
      rewrite Hacc, Hidx, alter_middle, arraySet_end.
      split; [reflexivity|]. split; [apply (Runs_extend _ _ _ _ a); assumption|].
      split; [symmetry; apply last_snoc'|].
      right. exists g', (c ++ [node]).
      rewrite length_app. simpl. repeat split; lia.
    + (* a new cluster *)
      exists ((g' ++ [c]) ++ [[node]]). simpl.
      rewrite Hacc.
      split; [rewrite <- !app_assoc; reflexivity|].
      split; [apply (Runs_open _ _ _ _ a); assumption|].
      split; [symmetry; apply last_snoc'|].
      right. exists (g' ++ [c]), [node].
      rewrite !length_app. simpl. repeat split; f_equal; lia.
Qed.

Lemma clusterize_fold_ScanInv (acc0 : list (list FlatTreeNode))
    (nodes vis : list FlatTreeNode) (s : ScanState) :
  ScanInv acc0 vis s ->
  ScanInv acc0 (vis ++ List.filter visible nodes) (fold_left clusterizeNode nodes s).
Proof.
  revert vis s. induction nodes as [|node nodes IH]; intros vis s HI.
  - simpl. rewrite app_nil_r. exact HI.
  - simpl. destruct (visible node) eqn:Ev.
    + replace (vis ++ node :: List.filter visible nodes)
        with ((vis ++ [node]) ++ List.filter visible nodes)
        by (rewrite <- app_assoc; reflexivity).
      apply IH, clusterizeNode_ScanInv; assumption.
    + rewrite clusterizeNode_skip by exact Ev. apply IH, HI.
Qed.

(** The scan keeps [scanIndex] at the length of the array [lastCluster]
    refers to: [arraySet] only ever extends it at its end. *)
Lemma clusterizeScan_index (acc0 : list (list FlatTreeNode)) (nodes : list FlatTreeNode) :
  let s := fold_left clusterizeNode nodes
             {| acc := acc0; lastCluster := None; lastNode := None; scanIndex := 0 |} in
  match lastCluster s with
  | Some k => exists c, acc s !! k = Some c /\ scanIndex s = length c
  | None => List.filter visible nodes = []
  end.
Proof.
  cbv zeta.
  destruct (clusterize_fold_ScanInv acc0 nodes [] _ (ScanInv_init acc0))
    as (g & Hacc & HR & _ & [[-> ->] | (g' & c & -> & -> & Hidx)]).
  - destruct HR as (HR & _). simpl in HR. symmetry. exact HR.
  - exists c. split; [|exact Hidx]. rewrite Hacc.
    rewrite lookup_app_r by lia.
    replace (length acc0 + length g' - length acc0)%nat with (length g' + 0)%nat by lia.
    rewrite lookup_app_r by lia.
    replace (length g' + 0 - length g')%nat with 0%nat by lia. reflexivity.
Qed.

Lemma clusterizeScan_Runs {T} `{HasNodes T} (acc0 : list (list FlatTreeNode)) (cluster : T) :
  exists g,
    clusterizeScan zoom start' end' stickDistance minBlockSize acc0 cluster = acc0 ++ g
    /\ Runs sticks (List.filter visible (nodesOf cluster)) g.
Proof.
  unfold clusterizeScan.
  destruct (clusterize_fold_ScanInv acc0 (nodesOf cluster) [] _ (ScanInv_init acc0))
    as (g & Hacc & HR & _).
  exists g. split; [exact Hacc | exact HR].
Qed.

Lemma clusterize_fold_Runs {T} `{HasNodes T} (metas : list T)
    (acc0 : list (list FlatTreeNode)) :
  exists groups,
    fold_left (clusterizeScan zoom start' end' stickDistance minBlockSize) metas acc0
    = acc0 ++ concat groups
    /\ Forall2 (fun cluster g => Runs sticks (List.filter visible (nodesOf cluster)) g)
         metas groups.
Proof.
  revert acc0. induction metas as [|cluster metas IH]; intros acc0.
  - exists []. simpl. rewrite app_nil_r. split; [reflexivity | constructor].
  - simpl. destruct (clusterizeScan_Runs acc0 cluster) as (g & -> & HR).
    destruct (IH (acc0 ++ g)) as (groups & -> & HF).
    exists (g :: groups). simpl. rewrite app_assoc.
    split; [reflexivity|]. constructor; assumption.
Qed.
End ClusterizeFacts.

(** The fields of a finished cluster: it begins at its first node, its
    duration is the end of its last node less its [start], its [end] is
    its [start] plus its [duration] (computed so, not copied from the last
    node), and it has the first node's level, type and colour. *)
Definition clusterSpans (c : Cluster.ClusterizedFlatTreeNode) : Prop :=
  exists firstNode lastNode,
    head (Cluster.nodes c) = Some firstNode
    /\ last (Cluster.nodes c) = Some lastNode
    /\ Cluster.start c = start (source firstNode)
    /\ Cluster.duration c
       = start (source lastNode) + duration (source lastNode) - start (source firstNode)
    /\ Cluster.end_ c = Cluster.start c + Cluster.duration c
    /\ Cluster.level c = level firstNode
    /\ Cluster.type c = type (source firstNode)
    /\ Cluster.color c = color (source firstNode).

Lemma makeCluster_nonempty (nodes : list FlatTreeNode) :
  nodes <> [] ->
  exists c, makeCluster nodes = Some c /\ Cluster.nodes c = nodes /\ clusterSpans c.
Proof.
  intros Hne. unfold makeCluster, calcClusterDuration.
  destruct nodes as [|firstNode rest]; [contradiction|].
  destruct (last_inv (firstNode :: rest)) as [[? _] | (l' & lastNode & Hl & Hlast)];
    [discriminate|].
  rewrite Hlast. simpl.
  eexists. split; [reflexivity|]. split; [reflexivity|].
  exists firstNode, lastNode. simpl.
  split; [reflexivity|]. split; [exact Hlast|].
  repeat split; reflexivity.
Qed.

Lemma mapM_makeCluster (cs : list (list FlatTreeNode)) :
  Forall (fun c => c <> []) cs ->
  exists out, mapM makeCluster cs = Some out
              /\ map Cluster.nodes out = cs
              /\ Forall clusterSpans out.
Proof.
  induction 1 as [|nodes cs Hne _ (out & Hout & Hmap & Hspan)].
  - exists []. repeat split; constructor.
  - destruct (makeCluster_nonempty nodes Hne) as (c & Hc & Hn & Hs).
    exists (c :: out). simpl. rewrite Hc. simpl. rewrite Hout. simpl.
    split; [reflexivity|]. split; [rewrite Hn, Hmap; reflexivity|].
    constructor; assumption.
Qed.

Lemma Forall_concat {A} (P : A -> Prop) (ls : list (list A)) :
  Forall (Forall P) ls -> Forall P (concat ls).
Proof.
  induction 1 as [|l ls Hl _ IH]; simpl; [constructor|].
  apply Forall_app. split; assumption.
Qed.

Section RenderClusters.
Context {T : Type} `{HasNodes T}.
Variables (zoom : Q) (start' end' stickDistance minBlockSize : option Q).

Let visibleStart := default 0 start'.
Let visibleEnd := default 0 end'.
Let stick := default STICK_DISTANCE stickDistance.
Let minBlock := default MIN_BLOCK_SIZE minBlockSize.

(** The nodes of a meta-cluster that the scan does not skip. *)
Definition visibleNodes (cluster : T) : list FlatTreeNode :=
  List.filter (fun node => checkNodeTimeboundNesting node visibleStart visibleEnd)
    (nodesOf cluster).


Lemma clusterizeFlatTree_groups (metas : list T) :
  exists out groups,
    clusterizeFlatTree metas zoom start' end' stickDistance minBlockSize = Some out
    /\ map Cluster.nodes out = concat groups
    /\ Forall2 (fun cluster g =>
                  Runs (sticks zoom stick minBlock) (visibleNodes cluster) g)
         metas groups
    /\ Forall clusterSpans out.
Proof.
  unfold clusterizeFlatTree, clusterizeCore.
  destruct (clusterize_fold_Runs zoom visibleStart visibleEnd stick minBlock metas [])
    as (groups & Hfold & HF).
  fold visibleStart visibleEnd stick minBlock. rewrite Hfold. simpl.
  destruct (mapM_makeCluster (concat groups)) as (out & Hout & Hmap & Hspan).
  { apply Forall_concat. clear Hfold. induction HF as [|m g ms gs HR _ IH]; constructor.
    - apply HR.
    - exact IH. }
  exists out, groups. repeat split; assumption.
Qed.

End RenderClusters.

(** ** Re-clustering *)

Section Reclusterize.
Variables (zoom start' end' : Q) (stickDistance minBlockSize : option Q).

(** The two alternatives of [checkClusterTimeboundNesting]. *)
Definition overlapsRange (cluster : Cluster.ClusterizedFlatTreeNode) : Prop :=
  (Cluster.start cluster < end' /\ start' < Cluster.end_ cluster)
  \/ (start' < Cluster.start cluster /\ Cluster.end_ cluster < end').

Lemma checkClusterTimeboundNesting_spec (cluster : Cluster.ClusterizedFlatTreeNode) :
  checkClusterTimeboundNesting cluster start' end' = true <-> overlapsRange cluster.
Proof.
  unfold checkClusterTimeboundNesting, overlapsRange.
  rewrite orb_true_iff, !andb_true_iff, !ltb_lt, !gtb_gt. tauto.
Qed.

(** What one cluster contributes to the result. *)
Definition reclusterizePiece (cluster : Cluster.ClusterizedFlatTreeNode)
    (piece : list Cluster.ClusterizedFlatTreeNode) : Prop :=
  (overlapsRange cluster
   /\ Cluster.duration cluster * zoom <= MIN_CLUSTER_SIZE
   /\ piece = [cluster])
  \/ (overlapsRange cluster
      /\ MIN_CLUSTER_SIZE < Cluster.duration cluster * zoom
      /\ clusterizeFlatTree [cluster] zoom (Some start') (Some end')
           stickDistance minBlockSize = Some piece)
  \/ (~ overlapsRange cluster /\ piece = []).

Lemma reclusterizeStep_piece (acc : list Cluster.ClusterizedFlatTreeNode)
    (cluster : Cluster.ClusterizedFlatTreeNode) :
  exists piece,
    reclusterizeStep zoom start' end' stickDistance minBlockSize (Some acc) cluster
    = Some (acc ++ piece)
    /\ reclusterizePiece cluster piece.
Proof.
  unfold reclusterizeStep, reclusterizePiece. simpl.
  destruct (checkClusterTimeboundNesting cluster start' end') eqn:Eo.
  - apply checkClusterTimeboundNesting_spec in Eo.
    destruct (Num.leb _ _) eqn:Ew.
    + apply leb_le in Ew. exists [cluster]. split; [reflexivity|]. left. auto.
    + apply leb_gt in Ew.
      destruct (clusterizeFlatTree_groups zoom (Some start') (Some end')
                  stickDistance minBlockSize [cluster])
        as (piece & _ & Hp & _).
      exists piece. rewrite Hp. simpl. split; [reflexivity|]. right. left. auto.
  - exists []. rewrite app_nil_r. split; [reflexivity|]. right. right.
    split; [|reflexivity]. intros Ho. apply checkClusterTimeboundNesting_spec in Ho.
    congruence.
Qed.

Lemma reclusterize_fold (clusters acc : list Cluster.ClusterizedFlatTreeNode) :
  exists pieces,
    fold_left (reclusterizeStep zoom start' end' stickDistance minBlockSize)
      clusters (Some acc)
    = Some (acc ++ concat pieces)
    /\ Forall2 reclusterizePiece clusters pieces.
Proof.
  revert acc. induction clusters as [|cluster clusters IH]; intros acc.
  - exists []. simpl. rewrite app_nil_r. split; [reflexivity | constructor].
  - cbn [fold_left].
    destruct (reclusterizeStep_piece acc cluster) as (piece & -> & Hp).
    destruct (IH (acc ++ piece)) as (pieces & -> & HF).
    exists (piece :: pieces). simpl. rewrite app_assoc.
    split; [reflexivity|]. constructor; assumption.
Qed.

(** C1, as the code has it: the result of [reclusterizeClusteredFlatTree] is
    made, cluster by cluster and in order, of the cluster itself when it
    overlaps the visible range and its width on screen, [duration * zoom],
    is at most [MIN_CLUSTER_SIZE]; of the result of render clustering over
    the cluster alone when it overlaps the range and is wider than that; and
    of nothing when it does not overlap the range.  [MIN_CLUSTER_SIZE] is
    the constant [2 * MIN_BLOCK_SIZE + STICK_DISTANCE = 2.25], whatever
    [stickDistance] and [minBlockSize] are passed. *)
Theorem C1_reclusterize (clusters : list Cluster.ClusterizedFlatTreeNode) :
  MIN_CLUSTER_SIZE == 2 * MIN_BLOCK_SIZE + STICK_DISTANCE
  /\ MIN_CLUSTER_SIZE == 225 # 100
  /\ exists pieces,
       reclusterizeClusteredFlatTree clusters zoom start' end' stickDistance minBlockSize
       = Some (concat pieces)
       /\ Forall2 (fun cluster piece =>
            (overlapsRange cluster
             /\ Cluster.duration cluster * zoom <= MIN_CLUSTER_SIZE
             /\ piece = [cluster])
            \/ (overlapsRange cluster
                /\ MIN_CLUSTER_SIZE < Cluster.duration cluster * zoom
                /\ clusterizeFlatTree [cluster] zoom (Some start') (Some end')
                     stickDistance minBlockSize = Some piece)
            \/ (~ overlapsRange cluster /\ piece = []))
            clusters pieces.
Proof.
  split; [reflexivity|]. split; [reflexivity|].
  destruct (reclusterize_fold clusters []) as (pieces & Hfold & HF).
  exists pieces. split; [exact Hfold | exact HF].
Qed.
End Reclusterize.

(** Two short nodes four time units apart, on one level. *)
Definition C1_node1 : FlatTreeNode :=
  {| source := {| name := "a"; start := 0; duration := 1;
                  type := None; color := None; children := [] |};
     end_ := 1; parent := None; level := 0; index := 0 |}.

Definition C1_node2 : FlatTreeNode :=
  {| source := {| name := "b"; start := 5; duration := 1;
                  type := None; color := None; children := [] |};
     end_ := 6; parent := None; level := 0; index := 1 |}.

(** The cluster render clustering makes of them at zoom 1/100. *)
Definition C1_cluster : Cluster.ClusterizedFlatTreeNode :=
  {| Cluster.start := 0; Cluster.end_ := 0 + (5 + 1 - 0); Cluster.duration := 5 + 1 - 0;
     Cluster.type := None; Cluster.color := None; Cluster.level := 0;
     Cluster.nodes := [C1_node1; C1_node2] |}.

Lemma C1_cluster_clustered :
  clusterizeFlatTree [ {| Meta.nodes := [C1_node1; C1_node2] |} ]
    (1 # 100) (Some 0) (Some 6) None None
  = Some [C1_cluster].
Proof. reflexivity. Qed.

(** C1 as stated fails in both directions, with the thresholds at their
    defaults ([2 * minBlockSize + stickDistance = 2.25]).  At zoom 1 the
    cluster is 6 pixels wide, above the threshold, and is not kept: it is
    clustered again, into two.  At zoom 3/10 it is 1.8 pixels wide, below the
    threshold, and is kept, although clustering it again would split it. *)
Lemma C1_counterexample :
  checkClusterTimeboundNesting C1_cluster 0 100 = true
  /\ 2 * MIN_BLOCK_SIZE + STICK_DISTANCE < Cluster.duration C1_cluster * 1
  /\ length <$> reclusterizeClusteredFlatTree [C1_cluster] 1 0 100
                  (Some STICK_DISTANCE) (Some MIN_BLOCK_SIZE) = Some 2%nat
  /\ reclusterizeClusteredFlatTree [C1_cluster] 1 0 100
       (Some STICK_DISTANCE) (Some MIN_BLOCK_SIZE) <> Some [C1_cluster]
  /\ Cluster.duration C1_cluster * (3 # 10) <= 2 * MIN_BLOCK_SIZE + STICK_DISTANCE
  /\ reclusterizeClusteredFlatTree [C1_cluster] (3 # 10) 0 100
       (Some STICK_DISTANCE) (Some MIN_BLOCK_SIZE) = Some [C1_cluster]
  /\ length <$> clusterizeFlatTree [C1_cluster] (3 # 10) (Some 0) (Some 100)
                  (Some STICK_DISTANCE) (Some MIN_BLOCK_SIZE) = Some 2%nat.
Proof.
  split; [reflexivity|]. split; [reflexivity|]. split; [reflexivity|].
  split; [vm_compute; discriminate|]. split; [vm_compute; discriminate|].
  split; reflexivity.
Qed.

(** ** Flattening *)

Section SortFacts.
Context {A : Type} (compareFn : A -> A -> Q).

Let le (a b : A) : Prop := compareFn a b <= 0.

Hypothesis le_total : forall a b, le a b \/ le b a.
Hypothesis le_trans : forall a b c, le a b -> le b c -> le a c.

Lemma sortInsert_Permutation (x : A) (l : list A) :
  Permutation (sortInsert compareFn x l) (x :: l).
Proof.
  induction l as [|y l IH]; simpl; [reflexivity|].
  destruct (Num.leb _ _); [reflexivity|].
  rewrite IH. apply perm_swap.
Qed.

Lemma sort_Permutation (l : list A) : Permutation (sort compareFn l) l.
Proof.
  induction l as [|x l IH]; simpl; [reflexivity|].
  rewrite sortInsert_Permutation. constructor. exact IH.
Qed.

Lemma sortInsert_HdRel (a x : A) (l : list A) :
  le a x -> HdRel le a l -> HdRel le a (sortInsert compareFn x l).
Proof.
  intros Hax Hal. destruct l as [|y l]; simpl; [constructor; exact Hax|].
  destruct (Num.leb _ _); constructor; [exact Hax|].
  inversion Hal; assumption.
Qed.

Lemma sortInsert_Sorted (x : A) (l : list A) :
  Sorted le l -> Sorted le (sortInsert compareFn x l).
Proof.
  induction 1 as [|y l Hl IH Hy]; simpl; [repeat constructor|].
  destruct (Num.leb (compareFn x y) 0) eqn:E.
  - apply leb_le in E. constructor; [constructor; assumption|].
    constructor. exact E.
  - apply leb_gt in E. constructor; [exact IH|].
    apply sortInsert_HdRel; [|exact Hy].
    destruct (le_total y x) as [H|H]; [exact H|]. unfold le in H. lra.
Qed.

Lemma sort_StronglySorted (l : list A) : StronglySorted le (sort compareFn l).
Proof.
  apply Sorted_StronglySorted; [exact le_trans|].
  induction l as [|x l IH]; simpl; [constructor|].
  apply sortInsert_Sorted, IH.
Qed.
End SortFacts.

Lemma flatTreeCompare_le (a b : FlatTreeNode) :
  flatTreeCompare a b <= 0 <-> flatTreeLe a b.
Proof.
  unfold flatTreeCompare, flatTreeLe.
  set (d := (Z.of_nat (level a) - Z.of_nat (level b))%Z).
  destruct (Num.eqb (inject_Z d) 0) eqn:E.
  - apply eqb_eq in E. change 0 with (inject_Z 0) in E. apply (proj1 (inject_Z_injective _ _)) in E.
    unfold d in E. split.
    + intros H. right. split; [lia | lra].
    + intros [H | [_ H]]; [lia | lra].
  - apply eqb_neq in E.
    assert (Hd : d <> 0%Z) by (intros Hd; apply E; rewrite Hd; reflexivity).
    change 0 with (inject_Z 0). rewrite <- Zle_Qle.
    unfold d in *. split.
    + intros H. left. lia.
    + intros [H | [H _]]; lia.
Qed.

Lemma flatTreeLe_total (a b : FlatTreeNode) : flatTreeLe a b \/ flatTreeLe b a.
Proof.
  unfold flatTreeLe.
  destruct (Nat.lt_trichotomy (level a) (level b)) as [H | [H | H]]; auto.
  destruct (Qlt_le_dec (start (source b)) (start (source a))) as [H' | H'].
  - right. right. split; [auto | lra].
  - left. right. split; assumption.
Qed.

Lemma flatTreeLe_trans (a b c : FlatTreeNode) :
  flatTreeLe a b -> flatTreeLe b c -> flatTreeLe a c.
Proof.
  unfold flatTreeLe. intros [H1 | [H1 H1']] [H2 | [H2 H2']].
  - left. lia.
  - left. lia.
  - left. lia.
  - right. split; [lia | lra].
Qed.

Lemma StronglySorted_weaken {A} (R R' : A -> A -> Prop) (l : list A) :
  (forall a b, R a b -> R' a b) -> StronglySorted R l -> StronglySorted R' l.
Proof.
  intros HR. induction 1 as [|a l _ IH Ha]; constructor; [exact IH|].
  eapply Forall_impl; [exact Ha|]. intros b. apply HR.
Qed.

Lemma sort_flatTreeCompare_sorted (l : list FlatTreeNode) :
  StronglySorted flatTreeLe (sort flatTreeCompare l).
Proof.
  eapply StronglySorted_weaken; [| apply (sort_StronglySorted flatTreeCompare)].
  - intros a b H. apply flatTreeCompare_le. exact H.
  - intros a b. destruct (flatTreeLe_total a b) as [H|H];
      apply flatTreeCompare_le in H; auto.
  - intros a b c H1 H2. apply flatTreeCompare_le.
    apply flatTreeCompare_le in H1, H2. eapply flatTreeLe_trans; eassumption.
Qed.

Lemma FlameChartNode_forest_ind (P : FlameChartNode -> Prop) :
  (forall node, Forall P (children node) -> P node) -> forall node, P node.
Proof.
  intros H. fix IH 1. intros [n s d t c ch]. apply H. simpl.
  induction ch as [|x ch IHch]; constructor; [apply IH | exact IHch].
Qed.

Lemma walkChild_eq {P St} (cb : FlameChartNode -> option P -> nat -> St -> P * St)
    (child : FlameChartNode) (parent : option P) (level : nat) (s : St) :
  walkChild cb child parent level s
  = let '(res, s1) := cb child parent level s in
    walk cb (children child) (Some res) (S level) s1.
Proof. destruct child. reflexivity. Qed.

Lemma atDepth_incl (forest forest' : list FlameChartNode) (d : nat) (node : FlameChartNode) :
  (forall x, In x forest -> In x forest') ->
  atDepth forest d node -> atDepth forest' d node.
Proof.
  intros Hincl Hd. inversion Hd; subst.
  - apply atDepth_root. auto.
  - eapply atDepth_child; eauto.
Qed.

(** The level the callback is given for the children of [parent]. *)
Definition levelBelow (parent : option FlatTreeNode) : nat :=
  match parent with
  | None => 0
  | Some p => S (parentDepth p)
  end.

Lemma parentDepth_eq (node : FlatTreeNode) :
  parentDepth node = levelBelow (parent node).
Proof. destruct node. reflexivity. Qed.

(** What [walk] adds to [result] when called at [level] on [forest]: flat
    nodes whose level is the length of their parent chain and whose source
    sits that much below [level] in [forest]; their sources are the nodes of
    the forest, parents first; their indices count on from [index]. *)
Definition walkAdds (forest : list FlameChartNode) (level0 : nat)
    (added : list FlatTreeNode) : Prop :=
  map source added = flat_map preorder forest
  /\ Forall (fun node =>
       parentDepth node = level node
       /\ end_ node = start (source node) + duration (source node)
       /\ exists d, level node = (level0 + d)%nat /\ atDepth forest d (source node))
     added.

Definition walkChildSpec (child : FlameChartNode) : Prop :=
  forall parent level0 result index,
    levelBelow parent = level0 ->
    exists added,
      walkChild flatTreeCallback child parent level0 (result, index)
      = (result ++ added, (index + length added)%nat)
      /\ walkAdds [child] level0 added.

Lemma walk_spec (treeList : list FlameChartNode) :
  Forall walkChildSpec treeList ->
  forall parent level0 result index,
    levelBelow parent = level0 ->
    exists added,
      walk flatTreeCallback treeList parent level0 (result, index)
      = (result ++ added, (index + length added)%nat)
      /\ walkAdds treeList level0 added.
Proof.
  induction 1 as [|child treeList Hc _ IH]; intros parent level0 result index Hp.
  - exists []. simpl. rewrite app_nil_r, Nat.add_0_r.
    split; [reflexivity|]. split; [reflexivity | constructor].
  - unfold walk. cbn [fold_left].
    destruct (Hc parent level0 result index Hp) as (added1 & -> & Hs1 & Hok1).
    destruct (IH parent level0 (result ++ added1) (index + length added1)%nat Hp)
      as (added2 & Heq & Hs2 & Hok2).
    unfold walk in Heq. rewrite Heq.
    exists (added1 ++ added2). rewrite length_app, app_assoc, Nat.add_assoc.
    split; [reflexivity|]. split.
    + rewrite map_app, Hs1, Hs2. simpl. rewrite app_nil_r. reflexivity.
    + apply Forall_app. split.
      * eapply Forall_impl; [exact Hok1|].
        intros node (H1 & H2 & d & H3 & H4). repeat split; try assumption.
        exists d. split; [exact H3|].
        eapply atDepth_incl; [|exact H4]. intros x [<- | []]. left. reflexivity.
      * eapply Forall_impl; [exact Hok2|].
        intros node (H1 & H2 & d & H3 & H4). repeat split; try assumption.
        exists d. split; [exact H3|].
        eapply atDepth_incl; [|exact H4]. intros x Hx. right. exact Hx.
Qed.

Lemma walkChild_spec (child : FlameChartNode) : walkChildSpec child.
Proof.
  induction child as [child IH] using FlameChartNode_forest_ind.
  intros parent level0 result index Hp.
  rewrite walkChild_eq. unfold flatTreeCallback at 1. cbv iota beta.
  set (newNode := {| source := child; end_ := start child + duration child;
                     parent := parent; level := level0; index := index |}).
  destruct (walk_spec (children child) IH (Some newNode) (S level0)
              (result ++ [newNode]) (S index)) as (added & -> & Hs & Hok).
  { simpl. rewrite <- Hp. reflexivity. }
  exists (newNode :: added). simpl.
  rewrite <- app_assoc. simpl.
  split; [f_equal; lia|]. split.
  - simpl. rewrite Hs, app_nil_r. destruct child; reflexivity.
  - constructor.
    + simpl. split; [exact Hp|]. split; [reflexivity|].
      exists 0%nat. split; [lia|]. apply atDepth_root. left. reflexivity.
    + eapply Forall_impl; [exact Hok|].
      intros node (H1 & H2 & d & H3 & H4). repeat split; try assumption.
      exists (S d). split; [lia|].
      eapply atDepth_child; [left; reflexivity | exact H4].
Qed.

Lemma flatTree_walk (treeList : list FlameChartNode) :
  exists result,
    flatTree treeList = sort flatTreeCompare result
    /\ walkAdds treeList 0 result.
Proof.
  unfold flatTree.
  destruct (walk_spec treeList) with (parent := @None FlatTreeNode) (level0 := 0%nat)
    (result := @nil FlatTreeNode) (index := 0%nat) as (added & -> & Hadds).
  - apply Forall_forall. intros child _. apply walkChild_spec.
  - reflexivity.
  - exists added. split; [reflexivity | exact Hadds].
Qed.

(** C6: the output of [flatTree] is sorted by level and, within a level, by
    start; the level of each of its nodes is the number of parent links up
    to a root, and its source sits at that depth in the forest, the roots
    being at depth 0.  (The output has one node for each node of the
    forest.) *)
Theorem C6_flatTree_sorted_levels (treeList : list FlameChartNode) :
  StronglySorted
    (fun a b => (level a < level b)%nat
                \/ (level a = level b /\ start (source a) <= start (source b)))
    (flatTree treeList)
  /\ Forall (fun node =>
       level node = parentDepth node
       /\ atDepth treeList (level node) (source node))
     (flatTree treeList)
  /\ Permutation (map source (flatTree treeList)) (flat_map preorder treeList).
Proof.
  destruct (flatTree_walk treeList) as (result & -> & Hsrc & Hok).
  split; [apply sort_flatTreeCompare_sorted|].
  pose proof (sort_Permutation flatTreeCompare result) as Hperm.
  split.
  - apply (Permutation_Forall (Permutation_sym Hperm)).
    eapply Forall_impl; [exact Hok|].
    intros node (H1 & _ & d & H3 & H4). simpl in H3. subst d.
    split; [symmetry; exact H1 | exact H4].
  - rewrite <- Hsrc. apply Permutation_map. exact Hperm.
Qed.

(** A forest of five nodes on two levels, given out of order. *)
Definition example_forest : list FlameChartNode :=
  [ {| name := "r1"; start := 5; duration := 5; type := None; color := None;
       children :=
         [ {| name := "c"; start := 7; duration := 1; type := None; color := None;
              children := [] |};
           {| name := "b"; start := 5; duration := 1; type := None; color := None;
              children := [] |} ] |};
    {| name := "r0"; start := 0; duration := 5; type := None; color := None;
       children :=
         [ {| name := "a"; start := 1; duration := 2; type := None; color := None;
              children := [] |} ] |} ].

Example flatTree_example :
  map (fun node => (name (source node), level node, index node,
                    name <$> (source <$> parent node)))
      (flatTree example_forest)
  = [ ("r0", 0, 3, None); ("r1", 0, 0, None);
      ("a", 1, 4, Some "r0"); ("b", 1, 2, Some "r1"); ("c", 1, 1, Some "r1") ]%nat.
Proof. reflexivity. Qed.

Example metaClusterize_example :
  map (fun cluster => map (fun node => name (source node)) (Meta.nodes cluster))
      (metaClusterizeFlatTree (flatTree example_forest) defaultClusterizeCondition)
  = [ ["r0"; "r1"]; ["a"; "b"; "c"] ].
Proof. reflexivity. Qed.

(** At a zoom of 1/10 the nodes of each level stick together; at a zoom of 1
    none do. *)
Example clusterize_example :
  (map (fun cluster => map (fun node => name (source node)) (Cluster.nodes cluster))
   <$> clusterizeFlatTree
         (metaClusterizeFlatTree (flatTree example_forest) defaultClusterizeCondition)
         (1 # 10) (Some 0) (Some 10) None None)
  = Some [ ["r0"; "r1"]; ["a"; "b"; "c"] ]
  /\ (map (fun cluster => map (fun node => name (source node)) (Cluster.nodes cluster))
      <$> clusterizeFlatTree
            (metaClusterizeFlatTree (flatTree example_forest) defaultClusterizeCondition)
            1 (Some 0) (Some 10) None None)
     = Some [ ["r0"]; ["r1"]; ["a"]; ["b"]; ["c"] ].
Proof. split; reflexivity. Qed.

(** ** Loading data *)

Lemma clusterizeFlatTree_total {T} `{HasNodes T} (metas : list T) (zoom : Q)
    (start' end' stickDistance minBlockSize : option Q) :
  exists out,
    clusterizeFlatTree metas zoom start' end' stickDistance minBlockSize = Some out.
Proof.
  destruct (clusterizeFlatTree_groups zoom start' end' stickDistance minBlockSize metas)
    as (out & _ & Hout & _).
  exists out. exact Hout.
Qed.

Lemma reclusterizeClusteredFlatTree_total
    (clusters : list Cluster.ClusterizedFlatTreeNode) (zoom start' end' : Q)
    (stickDistance minBlockSize : option Q) :
  exists out,
    reclusterizeClusteredFlatTree clusters zoom start' end' stickDistance minBlockSize
    = Some out.
Proof.
  destruct (reclusterize_fold zoom start' end' stickDistance minBlockSize clusters [])
    as (pieces & Hfold & _).
  exists (concat pieces). exact Hfold.
Qed.

(** [initData] returns, and touches the three cluster fields only. *)
Lemma initData_total (p : FlameChartPlugin.t) (renderEngine : BasicRenderEngine.t) :
  exists initial actual,
    FlameChartPlugin.initData p renderEngine
    = Some (FlameChartPlugin.mk (FlameChartPlugin.data p) (FlameChartPlugin.flatTree p)
              (FlameChartPlugin.min p) (FlameChartPlugin.max p)
              (metaClusterizeFlatTree (FlameChartPlugin.flatTree p)
                 defaultClusterizeCondition)
              initial actual
              (FlameChartPlugin.positionY p) (FlameChartPlugin.selectedRegion p)
              (FlameChartPlugin.hoveredRegion p)).
Proof.
  unfold FlameChartPlugin.initData.
  destruct (clusterizeFlatTree_total
              (metaClusterizeFlatTree (FlameChartPlugin.flatTree p)
                 defaultClusterizeCondition)
              (BasicRenderEngine.zoom renderEngine)
              (Some (FlameChartPlugin.min p)) (Some (FlameChartPlugin.max p)) None None)
    as (initial & ->).
  simpl. unfold FlameChartPlugin.reclusterizeClusteredFlatTree. simpl.
  destruct (reclusterizeClusteredFlatTree_total initial
              (BasicRenderEngine.zoom renderEngine)
              (BasicRenderEngine.positionX renderEngine)
              (BasicRenderEngine.positionX renderEngine
               + BasicRenderEngine.getRealView renderEngine) None None)
    as (actual & ->).
  simpl. exists initial, actual. reflexivity.
Qed.

Lemma omap_lookup_nonempty {A B} (f : A -> option B) (l : list A) (i : nat) (a : A) (b : B) :
  l !! i = Some a -> f a = Some b -> omap f l <> [].
Proof.
  revert i. induction l as [|x l IH]; intros i Hl Hf; [discriminate|].
  simpl. destruct i as [|i]; simpl in Hl.
  - injection Hl as ->. rewrite Hf. discriminate.
  - destruct (f x); [discriminate|]. eapply IH; eassumption.
Qed.

Lemma reduce1_nonempty {A} (f : A -> A -> A) (l : list A) :
  l <> [] -> exists a, reduce1 f l = Some a.
Proof. destruct l; [contradiction|]. intros _. eexists. reflexivity. Qed.

(** [calcMinMax] returns when some plugin has a numeric [min] and [max],
    and leaves the plugins alone. *)
Lemma calcMinMax_total (c : Chart) (i : nat) (p : FlameChartPlugin.t) :
  plugins c !! i = Some (FlamePlugin p) ->
  exists c', calcMinMax c = Some c' /\ plugins c' = plugins c.
Proof.
  intros Hi. unfold calcMinMax.
  destruct (reduce1_nonempty Math_min (omap pluginMin (plugins c))) as (m & ->).
  { eapply omap_lookup_nonempty; [exact Hi | reflexivity]. }
  destruct (reduce1_nonempty Math_max (omap pluginMax (plugins c))) as (m' & ->).
  { eapply omap_lookup_nonempty; [exact Hi | reflexivity]. }
  simpl. eexists. split; reflexivity.
Qed.

(** C3, as the code has it: [setData] checks nothing.  Whatever forest it
    is given, it returns; the plugin then holds that forest as its data,
    with the flat tree, the extent and the meta-clusters computed from it,
    its vertical position back at 0 and its selection cleared; the other
    plugins are as before. *)
Theorem C3_setData_accepts (c : Chart) (i : nat) (p : FlameChartPlugin.t)
    (engine : OffscreenRenderEngine.t) (data : list FlameChartNode) :
  plugins c !! i = Some (FlamePlugin p) ->
  RenderEngine.children (renderEngine c) !! i = Some engine ->
  exists c' p',
    setData c i data = Some c'
    /\ plugins c' !! i = Some (FlamePlugin p')
    /\ (forall j, j <> i -> plugins c' !! j = plugins c !! j)
    /\ FlameChartPlugin.data p' = data
    /\ FlameChartPlugin.flatTree p' = flatTree data
    /\ (FlameChartPlugin.min p', FlameChartPlugin.max p')
       = getFlatTreeMinMax (flatTree data)
    /\ FlameChartPlugin.metaClusterizedFlatTree p'
       = metaClusterizeFlatTree (flatTree data) defaultClusterizeCondition
    /\ FlameChartPlugin.positionY p' = 0
    /\ FlameChartPlugin.selectedRegion p' = None.
Proof.
  intros Hp He. unfold setData. rewrite Hp, He. simpl.
  set (p1 := FlameChartPlugin.parseData (FlameChartPlugin.setDataField p data)).
  destruct (initData_total p1 (OffscreenRenderEngine.base engine))
    as (initial & actual & ->).
  simpl.
  set (p3 := FlameChartPlugin.reset _).
  set (c0 := {| renderEngine := renderEngine c;
                plugins := <[i := FlamePlugin p3]> (plugins c) |}).
  assert (Hi : plugins c0 !! i = Some (FlamePlugin p3)).
  { simpl. apply list_lookup_insert_eq. eapply lookup_lt_Some. exact Hp. }
  destruct (calcMinMax_total c0 i p3 Hi) as (c1 & -> & Hpl).
  simpl. eexists. exists p3. split; [reflexivity|]. simpl. rewrite Hpl.
  split; [exact Hi|]. split.
  { intros j Hj. simpl. apply list_lookup_insert_ne. auto. }
  subst p3 p1. unfold FlameChartPlugin.parseData, FlameChartPlugin.calcMinMax.
  simpl. destruct (getFlatTreeMinMax (flatTree data)) as [mn mx]. simpl.
  repeat split; reflexivity.
Qed.

(** A chart with one flame-chart plugin holding a single interval. *)
Definition C3_old_data : list FlameChartNode :=
  [ {| name := "old"; start := 0; duration := 10;
       type := None; color := None; children := [] |} ].

Definition C3_plugin : FlameChartPlugin.t :=
  {| FlameChartPlugin.data := C3_old_data;
     FlameChartPlugin.flatTree := flatTree C3_old_data;
     FlameChartPlugin.min := 0;
     FlameChartPlugin.max := 10;
     FlameChartPlugin.metaClusterizedFlatTree :=
       metaClusterizeFlatTree (flatTree C3_old_data) defaultClusterizeCondition;
     FlameChartPlugin.initialClusterizedFlatTree := [];
     FlameChartPlugin.actualClusterizedFlatTree := [];
     FlameChartPlugin.positionY := 0;
     FlameChartPlugin.selectedRegion := None;
     FlameChartPlugin.hoveredRegion := None |}.

Definition C3_view : BasicRenderEngine.t :=
  {| BasicRenderEngine.width := 100; BasicRenderEngine.height := 50;
     BasicRenderEngine.zoom := 10; BasicRenderEngine.positionX := 0;
     BasicRenderEngine.min := 0; BasicRenderEngine.max := 10 |}.

Definition C3_panel : OffscreenRenderEngine.t :=
  {| OffscreenRenderEngine.base := C3_view;
     OffscreenRenderEngine.flexible := false;
     OffscreenRenderEngine.collapsed := false;
     OffscreenRenderEngine.position := 0;
     OffscreenRenderEngine.id := Some 0%nat |}.

Definition C3_chart : Chart :=
  {| renderEngine := {| RenderEngine.base := C3_view;
                        RenderEngine.children := [C3_panel];
                        RenderEngine.timeGridAccuracy := 0 |};
     plugins := [FlamePlugin C3_plugin] |}.

(** A forest with an interval of negative duration. *)
Definition C3_bad_data : list FlameChartNode :=
  [ {| name := "bad"; start := 5; duration := -1;
       type := None; color := None; children := [] |} ].

Lemma C3_setData_accepts_witness :
  exists c' p',
    setData C3_chart 0 C3_bad_data = Some c'
    /\ plugins c' !! 0%nat = Some (FlamePlugin p')
    /\ FlameChartPlugin.data p' = C3_bad_data.
Proof.
  destruct (C3_setData_accepts C3_chart 0 C3_plugin C3_panel C3_bad_data
              eq_refl eq_refl)
    as (c' & p' & H1 & H2 & _ & H3 & _).
  exists c', p'. split; [exact H1|]. split; [exact H2 | exact H3].
Defined.

(** C3 as stated fails: given the forest with the negative duration,
    [setData] returns a chart (it does not report a failure) whose plugin
    holds that forest in place of the data it held. *)
Lemma C3_counterexample :
  Exists (fun node => duration node < 0) C3_bad_data
  /\ exists c' p',
       setData C3_chart 0 C3_bad_data = Some c'
       /\ plugins c' !! 0%nat = Some (FlamePlugin p')
       /\ FlameChartPlugin.data p' = C3_bad_data
       /\ FlameChartPlugin.data p' <> FlameChartPlugin.data C3_plugin
       /\ FlameChartPlugin.flatTree p' <> FlameChartPlugin.flatTree C3_plugin.
Proof.
  split; [constructor; reflexivity|].
  destruct (setData C3_chart 0 C3_bad_data) as [c'|] eqn:E; [|vm_compute in E; discriminate].
  vm_compute in E. injection E as <-.
  eexists. eexists. split; [reflexivity|]. split; [reflexivity|].
  split; [reflexivity|]. split; discriminate.
Qed.

(** ** Hover events *)

Section Hover.
Context {D : Type}.
Import InteractionsEngine.

Let region : Type := HitRegion.t D.

Lemma getHoveredRegion_hoveredRegion (s : InteractionsEngine.t D) :
  hoveredRegion (getHoveredRegion s).1 = hoveredRegion s
  /\ currentCursor (getHoveredRegion s).1 = currentCursor s.
Proof.
  unfold getHoveredRegion.
  destruct (List.find _ _); [split; reflexivity|].
  destruct (findIndex _ _ _) as [[i inst]|]; split; reflexivity.
Qed.

Lemma clearCursor_hoveredRegion (s : InteractionsEngine.t D) :
  hoveredRegion (clearCursor s) = hoveredRegion s.
Proof.
  unfold clearCursor.
  pose proof (proj1 (getHoveredRegion_hoveredRegion s)) as H.
  destruct (getHoveredRegion s) as [s1 found]. simpl in H.
  destruct found as [r|]; [destruct (HitRegion.cursor r)|]; simpl; exact H.
Qed.

(** The [hover] events of one call, from the region hovered before and the
    region found now. *)
Definition hoverStep (old found : option region) : list (option region) :=
  match found, old with
  | Some new, Some o => (if idDiffers new o then [None] else []) ++ [Some new]
  | Some new, None => [Some new]
  | None, Some _ => [None]
  | None, None => []
  end.

Lemma checkRegionHover_events (s : InteractionsEngine.t D) :
  hoverEvents (checkRegionHover s).2 = hoverStep (hoveredRegion s) (getHoveredRegion s).2
  /\ hoveredRegion (checkRegionHover s).1 = (getHoveredRegion s).2.
Proof.
  unfold checkRegionHover.
  pose proof (proj1 (getHoveredRegion_hoveredRegion s)) as H.
  destruct (getHoveredRegion s) as [s0 found]. simpl in H. simpl snd. rewrite <- H.
  destruct found as [new|].
  - destruct (hoveredRegion s0) as [old|]; simpl;
      [destruct (idDiffers new old)|]; split; reflexivity.
  - destruct (hoveredRegion s0) as [old|] eqn:Eo; simpl; split;
      try reflexivity; exact Eo.
Qed.

(** Every non-null event of [evs] that directly follows a non-null event,
    or that comes first when [h] is a region, has the id of the one before. *)
Fixpoint sameIdChain (h : option region) (evs : list (option region)) : Prop :=
  match evs with
  | [] => True
  | None :: evs' => sameIdChain None evs'
  | Some r :: evs' =>
      match h with
      | Some r0 => HitRegion.id r0 = HitRegion.id r
      | None => True
      end /\ sameIdChain (Some r) evs'
  end.

(** The region of the last event, [h] when there is none. *)
Definition lastHover (h : option region) (evs : list (option region)) : option region :=
  fold_left (fun _ e => e) evs h.

Lemma sameIdChain_app (h : option region) (evs1 evs2 : list (option region)) :
  sameIdChain h evs1 -> sameIdChain (lastHover h evs1) evs2 ->
  sameIdChain h (evs1 ++ evs2).
Proof.
  revert h. induction evs1 as [|[r|] evs1 IH]; intros h H1 H2; simpl in *.
  - exact H2.
  - destruct H1 as [Hr H1]. split; [exact Hr | apply IH; assumption].
  - apply IH; assumption.
Qed.

Lemma sameIdChain_split (h : option region) (evs xs ys : list (option region))
    (r1 r2 : region) :
  sameIdChain h evs -> evs = xs ++ Some r1 :: Some r2 :: ys ->
  HitRegion.id r1 = HitRegion.id r2.
Proof.
  intros Hc ->. revert h Hc. induction xs as [|[r|] xs IH]; intros h Hc; simpl in Hc.
  - destruct Hc as (_ & Hc & _). exact Hc.
  - destruct Hc as [_ Hc]. exact (IH _ Hc).
  - exact (IH _ Hc).
Qed.

Lemma hoverStep_chain (old found : option region) :
  sameIdChain old (hoverStep old found) /\ lastHover old (hoverStep old found) = found.
Proof.
  destruct found as [new|], old as [o|]; simpl; auto.
  unfold idDiffers. destruct (bool_decide_reflect (HitRegion.id new = HitRegion.id o));
    simpl; auto.
Qed.

Lemma hoverEvents_app (e1 e2 : list (Effect D)) :
  hoverEvents (e1 ++ e2) = hoverEvents e1 ++ hoverEvents e2.
Proof. unfold hoverEvents. apply omap_app. Qed.

Lemma hoverRun_chain (hovered : option region) (frames : list (InteractionsEngine.t D)) :
  sameIdChain hovered (hoverEvents (hoverRun hovered frames)).
Proof.
  revert hovered. induction frames as [|frame frames IH]; intros hovered; [exact I|].
  simpl.
  pose proof (checkRegionHover_events (setHoveredRegion frame hovered)) as [He Hh].
  destruct (checkRegionHover (setHoveredRegion frame hovered)) as [s' effects].
  simpl in He, Hh. rewrite hoverEvents_app, He.
  destruct (hoverStep_chain hovered (getHoveredRegion (setHoveredRegion frame hovered)).2)
    as [Hc Hl].
  apply sameIdChain_app; [exact Hc|]. rewrite Hl, <- Hh. apply IH.
Qed.

(** C10, as the code has it: the identity [checkRegionHover] compares is the
    [id] of a region, that of the separated engine (the panel) that
    registered it.  When the region found has another id than the region
    hovered before, the call emits [hover(null)] and then [hover] of the
    region found; and in every run two [hover] events with regions that
    follow each other directly carry regions of the same id. *)
Theorem C10_hover_order (hovered : option region) (frames : list (InteractionsEngine.t D)) :
  (forall (s : InteractionsEngine.t D) (old new : region),
     hoveredRegion s = Some old ->
     (getHoveredRegion s).2 = Some new ->
     HitRegion.id new <> HitRegion.id old ->
     hoverEvents (checkRegionHover s).2 = [None; Some new])
  /\ (forall xs r1 r2 ys,
        hoverEvents (hoverRun hovered frames) = xs ++ Some r1 :: Some r2 :: ys ->
        HitRegion.id r1 = HitRegion.id r2).
Proof.
  split.
  - intros s old new Ho Hf Hid.
    rewrite (proj1 (checkRegionHover_events s)), Ho, Hf. simpl.
    unfold idDiffers. rewrite bool_decide_eq_false_2 by exact Hid. reflexivity.
  - intros xs r1 r2 ys Hev.
    exact (sameIdChain_split hovered _ xs ys r1 r2 (hoverRun_chain hovered frames) Hev).
Qed.
End Hover.

(** One panel, 50 pixels high at the top of the canvas, with two clusters
    next to each other registered through its separated engine. *)
Definition C10_panel : OffscreenRenderEngine.t :=
  {| OffscreenRenderEngine.base :=
       {| BasicRenderEngine.width := 100; BasicRenderEngine.height := 50;
          BasicRenderEngine.zoom := 10; BasicRenderEngine.positionX := 0;
          BasicRenderEngine.min := 0; BasicRenderEngine.max := 10 |};
     OffscreenRenderEngine.flexible := false;
     OffscreenRenderEngine.collapsed := false;
     OffscreenRenderEngine.position := 0;
     OffscreenRenderEngine.id := Some 0%nat |}.

Definition C10_instance : SeparatedInteractionsEngine.t string :=
  SeparatedInteractionsEngine.addHitRegion
    (SeparatedInteractionsEngine.addHitRegion
       {| SeparatedInteractionsEngine.id := 0;
          SeparatedInteractionsEngine.renderEngine := 0;
          SeparatedInteractionsEngine.hitRegions := [] |}
       CLUSTER "A" 0 0 10 10 None)
    CLUSTER "B" 20 0 10 10 None.

Definition C10_regionA : HitRegion.t string :=
  {| HitRegion.type := CLUSTER; HitRegion.data := "A";
     HitRegion.x := 0; HitRegion.y := 0; HitRegion.w := 10; HitRegion.h := 10;
     HitRegion.cursor := None; HitRegion.id := Some 0%nat |}.

Definition C10_regionB : HitRegion.t string :=
  {| HitRegion.type := CLUSTER; HitRegion.data := "B";
     HitRegion.x := 20; HitRegion.y := 0; HitRegion.w := 10; HitRegion.h := 10;
     HitRegion.cursor := None; HitRegion.id := Some 0%nat |}.

(** The engine with the pointer at [(x, 5)]. *)
Definition C10_frame (x : Q) : InteractionsEngine.t string :=
  {| InteractionsEngine.renderEngine :=
       {| RenderEngine.base := OffscreenRenderEngine.base C10_panel;
          RenderEngine.children := [C10_panel];
          RenderEngine.timeGridAccuracy := 0 |};
     InteractionsEngine.hitRegions := [];
     InteractionsEngine.instances := [C10_instance];
     InteractionsEngine.mouse := {| Mouse.x := x; Mouse.y := 5 |};
     InteractionsEngine.selectedRegion := None;
     InteractionsEngine.hoveredRegion := None;
     InteractionsEngine.hoveredInstance := None;
     InteractionsEngine.moveActive := false;
     InteractionsEngine.currentCursor := None;
     InteractionsEngine.canvasCursor := None |}.

(** C10 as stated fails: moving the pointer from cluster A to cluster B of
    the same panel emits [hover(A)] and then [hover(B)], two regions that
    differ, with no [hover(null)] between them. *)
Lemma C10_counterexample :
  hoverEvents (hoverRun None [C10_frame 5; C10_frame 25])
  = [Some C10_regionA; Some C10_regionB]
  /\ C10_regionA <> C10_regionB.
Proof.
  split; [reflexivity | discriminate].
Qed.



(** * Further properties *)

(** ** The extent of a flat tree *)

(** The accumulator of [getFlatTreeMinMax] once a node has been seen. *)
Lemma getFlatTreeMinMax_fold (l : list FlatTreeNode) (mn mx : Q) (seen : list FlatTreeNode) :
  seen <> [] ->
  Forall (fun n => mn <= start (source n) /\ end_ n <= mx) seen ->
  Exists (fun n => mn = start (source n)) seen ->
  Exists (fun n => mx = end_ n) seen ->
  let '(_, mn', mx') :=
    fold_left (fun '(isFirst, min, max) n =>
                 let start := start (source n) in
                 let end' := end_ n in
                 if (isFirst : bool) then (false, start, end')
                 else (false,
                       (if Num.ltb min start then min else start),
                       (if Num.gtb max end' then max else end')))
      l (false, mn, mx) in
  Forall (fun n => mn' <= start (source n) /\ end_ n <= mx') (seen ++ l)
  /\ Exists (fun n => mn' = start (source n)) (seen ++ l)
  /\ Exists (fun n => mx' = end_ n) (seen ++ l).
Proof.
  revert mn mx seen. induction l as [|n l IH]; intros mn mx seen Hne Hall Hmin Hmax.
  - simpl. rewrite app_nil_r. auto.
  - cbn [fold_left].
    replace (seen ++ n :: l) with ((seen ++ [n]) ++ l)
      by (rewrite <- app_assoc; reflexivity).
    apply IH.
    + destruct seen; discriminate.
    + apply Forall_app. split.
      * eapply Forall_impl; [exact Hall|]. intros m [H1 H2].
        cmp_cases; split; lra.
      * apply Forall_singleton. cmp_cases; split; lra.
    + apply Exists_app. destruct (Num.ltb mn (start (source n))).
      * left. exact Hmin.
      * right. apply Exists_cons_hd. reflexivity.
    + apply Exists_app. destruct (Num.gtb mx (end_ n)).
      * left. exact Hmax.
      * right. apply Exists_cons_hd. reflexivity.
Qed.

(** X1: the extent of the empty flat tree is [(0, 0)]; that of a non-empty
    one is the least start and the greatest end of its nodes, both
    attained. *)
Theorem getFlatTreeMinMax_extent (flatTree : list FlatTreeNode) :
  getFlatTreeMinMax [] = (0, 0)
  /\ (flatTree <> [] ->
      Forall (fun n => (getFlatTreeMinMax flatTree).1 <= start (source n)
                       /\ end_ n <= (getFlatTreeMinMax flatTree).2) flatTree
      /\ Exists (fun n => (getFlatTreeMinMax flatTree).1 = start (source n)) flatTree
      /\ Exists (fun n => (getFlatTreeMinMax flatTree).2 = end_ n) flatTree).
Proof.
  split; [reflexivity|]. intros Hne.
  destruct flatTree as [|n l]; [contradiction|].
  unfold getFlatTreeMinMax. cbn [fold_left].
  pose proof (getFlatTreeMinMax_fold l (start (source n)) (end_ n) [n]) as H.
  destruct (fold_left _ l _) as [[b mn] mx]. simpl.
  apply H.
  - discriminate.
  - apply Forall_singleton. split; lra.
  - apply Exists_cons_hd. reflexivity.
  - apply Exists_cons_hd. reflexivity.
Qed.

Lemma getFlatTreeMinMax_extent_witness :
  Forall (fun n => (getFlatTreeMinMax (flatTree example_forest)).1 <= start (source n)
                   /\ end_ n <= (getFlatTreeMinMax (flatTree example_forest)).2)
    (flatTree example_forest).
Proof.
  refine (proj1 (proj2 (getFlatTreeMinMax_extent (flatTree example_forest)) _)).
  discriminate.
Defined.

(** ** Parents and indices in the flat tree *)

(** How the nodes [walk] adds hang together: a node is either a root of the
    walk, with the parent and level the walk was given, or the child of a
    node added before it. *)
Definition walkLinks (parent0 : option FlatTreeNode) (level0 : nat)
    (forest : list FlameChartNode) (added : list FlatTreeNode) : Prop :=
  Forall (fun node =>
    (parent node = parent0 /\ level node = level0 /\ In (source node) forest)
    \/ (exists p, parent node = Some p /\ In p added
                  /\ In (source node) (children (source p))
                  /\ level node = S (level p)
                  /\ (index p < index node)%nat))
    added.

Lemma walkLinks_weaken (parent0 : option FlatTreeNode) (level0 : nat)
    (forest forest' : list FlameChartNode) (added added' : list FlatTreeNode) :
  (forall x, In x forest -> In x forest') ->
  (forall x, In x added -> In x added') ->
  walkLinks parent0 level0 forest added ->
  Forall (fun node =>
    (parent node = parent0 /\ level node = level0 /\ In (source node) forest')
    \/ (exists p, parent node = Some p /\ In p added'
                  /\ In (source node) (children (source p))
                  /\ level node = S (level p)
                  /\ (index p < index node)%nat))
    added.
Proof.
  intros Hf Ha H. eapply Forall_impl; [exact H|].
  intros node [(H1 & H2 & H3) | (p & H1 & H2 & H3)].
  - left. auto.
  - right. exists p. split; [exact H1|]. split; [apply Ha, H2 | exact H3].
Qed.

Definition walkChildLinked (child : FlameChartNode) : Prop :=
  forall parent0 level0 result index0,
    exists added,
      walkChild flatTreeCallback child parent0 level0 (result, index0)
      = (result ++ added, (index0 + length added)%nat)
      /\ map source added = flat_map preorder [child]
      /\ map index added = seq index0 (length added)
      /\ walkLinks parent0 level0 [child] added.

Lemma walk_linked (treeList : list FlameChartNode) :
  Forall walkChildLinked treeList ->
  forall parent0 level0 result index0,
    exists added,
      walk flatTreeCallback treeList parent0 level0 (result, index0)
      = (result ++ added, (index0 + length added)%nat)
      /\ map source added = flat_map preorder treeList
      /\ map index added = seq index0 (length added)
      /\ walkLinks parent0 level0 treeList added.
Proof.
  induction 1 as [|child treeList Hc _ IH]; intros parent0 level0 result index0.
  - exists []. simpl. rewrite app_nil_r, Nat.add_0_r.
    split; [reflexivity|]. split; [reflexivity|]. split; [reflexivity | constructor].
  - unfold walk. cbn [fold_left].
    destruct (Hc parent0 level0 result index0) as (added1 & -> & Hs1 & Hi1 & Hl1).
    destruct (IH parent0 level0 (result ++ added1) (index0 + length added1)%nat)
      as (added2 & Heq & Hs2 & Hi2 & Hl2).
    unfold walk in Heq. rewrite Heq.
    exists (added1 ++ added2). rewrite length_app, app_assoc, Nat.add_assoc.
    split; [reflexivity|]. split; [|split].
    + rewrite map_app, Hs1, Hs2. simpl. rewrite app_nil_r. reflexivity.
    + rewrite map_app, Hi1, Hi2, seq_app. reflexivity.
    + apply Forall_app. split.
      * apply (walkLinks_weaken parent0 level0 [child] _ added1); [| |exact Hl1].
        -- intros x [<- | []]. left. reflexivity.
        -- intros x Hx. apply in_or_app. left. exact Hx.
      * apply (walkLinks_weaken parent0 level0 treeList _ added2); [| |exact Hl2].
        -- intros x Hx. right. exact Hx.
        -- intros x Hx. apply in_or_app. right. exact Hx.
Qed.

Lemma walkChild_linked (child : FlameChartNode) : walkChildLinked child.
Proof.
  induction child as [child IH] using FlameChartNode_forest_ind.
  intros parent0 level0 result index0.
  rewrite walkChild_eq. unfold flatTreeCallback at 1. cbv iota beta.
  set (newNode := {| source := child; end_ := start child + duration child;
                     parent := parent0; level := level0; index := index0 |}).
  destruct (walk_linked (children child) IH (Some newNode) (S level0)
              (result ++ [newNode]) (S index0)) as (added & -> & Hs & Hi & Hl).
  exists (newNode :: added). simpl.
  rewrite <- app_assoc. simpl.
  split; [f_equal; lia|].
  split; [rewrite Hs, app_nil_r; destruct child; reflexivity|].
  split; [rewrite Hi; reflexivity|].
  constructor.
  - left. simpl. auto.
  - unfold walkLinks in Hl. rewrite List.Forall_forall in Hl. apply List.Forall_forall. intros node Hn.
    right. destruct (Hl node Hn) as [(H1 & H2 & H3) | (p & H1 & H2 & H3)].
    + exists newNode. split; [exact H1|]. split; [left; reflexivity|].
      split; [exact H3|]. split; [exact H2|].
      simpl. assert (Hin : In (index node) (map index added)) by (apply in_map; exact Hn).
      rewrite Hi in Hin. apply in_seq in Hin. lia.
    + exists p. split; [exact H1|]. split; [right; exact H2 | exact H3].
Qed.

Lemma flatTree_linked (treeList : list FlameChartNode) :
  exists result,
    flatTree treeList = sort flatTreeCompare result
    /\ map source result = flat_map preorder treeList
    /\ map index result = seq 0 (length result)
    /\ walkLinks None 0 treeList result.
Proof.
  unfold flatTree.
  destruct (walk_linked treeList) with (parent0 := @None FlatTreeNode) (level0 := 0%nat)
    (result := @nil FlatTreeNode) (index0 := 0%nat) as (added & -> & Hs & Hi & Hl).
  { apply Forall_forall. intros child _. apply walkChild_linked. }
  exists added. auto.
Qed.

Lemma nth_error_map_seq {A} (f : A -> nat) (result : list A) (x : A) :
  map f result = seq 0 (length result) -> In x result ->
  nth_error result (f x) = Some x.
Proof.
  intros Hseq Hin. apply In_nth_error in Hin as (k & Hk).
  assert (Hf : nth_error (map f result) k = Some (f x))
    by (rewrite nth_error_map, Hk; reflexivity).
  rewrite Hseq in Hf.
  assert (Hlt : (k < length result)%nat) by (apply nth_error_Some; congruence).
  rewrite nth_error_seq in Hf.
  destruct (k <? length result)%nat eqn:E; [|apply Nat.ltb_ge in E; lia].
  injection Hf as <-. exact Hk.
Qed.

(** X2: every node of the flat tree ends at its start plus its duration; a
    node without parent is a root of the forest, at level 0; the parent of
    any other node is itself in the flat tree, one level up, visited before
    it, and its source has the node's source among its children; and
    [index] numbers the nodes in the order of the walk, parents first,
    without repetition. *)
Theorem flatTree_parents_indices (treeList : list FlameChartNode) :
  Forall (fun node =>
    end_ node = start (source node) + duration (source node)
    /\ nth_error (flat_map preorder treeList) (index node) = Some (source node)
    /\ match parent node with
       | None => level node = 0%nat /\ In (source node) treeList
       | Some p =>
           In p (flatTree treeList)
           /\ In (source node) (children (source p))
           /\ level node = S (level p)
           /\ (index p < index node)%nat
       end)
    (flatTree treeList)
  /\ NoDup (map index (flatTree treeList)).
Proof.
  destruct (flatTree_linked treeList) as (result & Hflat & Hs & Hi & Hl).
  destruct (flatTree_walk treeList) as (result' & Hflat' & _ & Hok).
  pose proof (sort_Permutation flatTreeCompare result) as Hperm.
  rewrite Hflat. split.
  - apply (Permutation_Forall (Permutation_sym Hperm)).
    unfold walkLinks in Hl. rewrite List.Forall_forall in Hl.
    apply List.Forall_forall. intros node Hn.
    split; [|split].
    + rewrite Hflat in Hflat'.
      assert (Hn' : In node result').
      { apply (Permutation_in _ (sort_Permutation flatTreeCompare result')).
        rewrite <- Hflat'.
        apply (Permutation_in _ (Permutation_sym Hperm)). exact Hn. }
      rewrite List.Forall_forall in Hok. apply (Hok node Hn').
    + rewrite <- Hs.
      rewrite nth_error_map, (nth_error_map_seq index result node Hi Hn). reflexivity.
    + destruct (Hl node Hn) as [(H1 & H2 & H3) | (p & H1 & H2 & H3)].
      * rewrite H1. auto.
      * rewrite H1. split; [|exact H3].
        apply (Permutation_in _ (Permutation_sym Hperm)). exact H2.
  - assert (Hp : Permutation (map index (sort flatTreeCompare result)) (map index result))
      by (apply Permutation_map, Hperm).
    rewrite Hp, Hi. apply NoDup_seq.
Qed.

(** ** Clusters and their members *)

Lemma sublist_of_concat {A} (c : list A) (cs : list (list A)) :
  In c cs -> c `sublist_of` concat cs.
Proof.
  induction cs as [|c' cs IH]; intros Hin; [destruct Hin|].
  simpl. destruct Hin as [-> | Hin].
  - apply sublist_inserts_r. reflexivity.
  - apply sublist_inserts_l, IH, Hin.
Qed.

Lemma sublist_of_filter {A} (f : A -> bool) (l : list A) :
  List.filter f l `sublist_of` l.
Proof.
  induction l as [|a l IH]; simpl; [constructor|].
  destruct (f a); [apply sublist_skip | apply sublist_cons]; exact IH.
Qed.

Lemma sublist_In {A} (l1 l2 : list A) (x : A) :
  l1 `sublist_of` l2 -> In x l1 -> In x l2.
Proof.
  intros Hs Hx. apply list_elem_of_In. apply list_elem_of_In in Hx.
  eapply elem_of_sublist; eassumption.
Qed.

Lemma StronglySorted_sublist {A} (R : A -> A -> Prop) (l1 l2 : list A) :
  l1 `sublist_of` l2 -> StronglySorted R l2 -> StronglySorted R l1.
Proof.
  induction 1 as [|x l1 l2 Hs IH|x l1 l2 Hs IH]; intros Hsorted.
  - constructor.
  - inversion Hsorted as [|? ? Hl2 Hx]; subst. constructor; [apply IH, Hl2|].
    apply List.Forall_forall. intros y Hy.
    rewrite List.Forall_forall in Hx. apply Hx. eapply sublist_In; eassumption.
  - inversion Hsorted; subst. auto.
Qed.

(** A chain of a relation inside an equivalence stays in one class. *)
Lemma chained_class {A} (R : A -> A -> bool) (E : A -> A -> Prop) (c : list A) :
  (forall x y, R x y = true -> E x y) ->
  (forall x, E x x) -> (forall x y, E x y -> E y x) ->
  (forall x y z, E x y -> E y z -> E x z) ->
  chained R c -> forall a b, In a c -> In b c -> E a b.
Proof.
  intros HRE Hrefl Hsym Htrans Hc.
  assert (Hhead : forall c x, chained R (x :: c) -> forall y, In y (x :: c) -> E x y).
  { clear c Hc. induction c as [|z c IH]; intros x Hc y Hy.
    - destruct Hy as [<- | []]. apply Hrefl.
    - destruct Hy as [<- | Hy]; [apply Hrefl|].
      destruct Hc as [Hxz Hc]. apply (Htrans _ z); [apply HRE, Hxz|].
      apply IH; assumption. }
  destruct c as [|x c]; intros a b Ha Hb; [destruct Ha|].
  apply (Htrans _ x); [apply Hsym|]; apply (Hhead c); assumption.
Qed.

(** The nodes of a meta-cluster are in one class of any equivalence that
    holds of two nodes once they are on one level and meet the condition. *)
Lemma metaClusters_class (E : FlatTreeNode -> FlatTreeNode -> Prop)
    (flatTree : list FlatTreeNode) (condition : FlatTreeNode -> FlatTreeNode -> bool) :
  (forall x y, (level x =? level y)%nat && condition x y = true -> E x y) ->
  (forall x, E x x) -> (forall x y, E x y -> E y x) ->
  (forall x y z, E x y -> E y z -> E x z) ->
  Forall (fun cluster =>
            forall a b, In a (Meta.nodes cluster) -> In b (Meta.nodes cluster) -> E a b)
    (metaClusterizeFlatTree flatTree condition).
Proof.
  intros HRE Hrefl Hsym Htrans.
  destruct (metaClusterizeFlatTree_Runs condition flatTree) as (_ & _ & Hch & _).
  rewrite List.Forall_map in Hch.
  eapply Forall_impl; [exact Hch|]. intros cluster Hc. cbv beta in Hc.
  eapply (chained_class _ E _); [| | | |exact Hc]; assumption.
Qed.

(** X3: all nodes of a meta-cluster are on one level, whatever the
    condition; under the default condition they also have one colour and one
    type. *)
Theorem metaClusters_homogeneous (flatTree : list FlatTreeNode)
    (condition : FlatTreeNode -> FlatTreeNode -> bool) :
  Forall (fun cluster =>
            forall a b, In a (Meta.nodes cluster) -> In b (Meta.nodes cluster) ->
                        level a = level b)
    (metaClusterizeFlatTree flatTree condition)
  /\ Forall (fun cluster =>
               forall a b, In a (Meta.nodes cluster) -> In b (Meta.nodes cluster) ->
                           level a = level b
                           /\ color (source a) = color (source b)
                           /\ type (source a) = type (source b))
       (metaClusterizeFlatTree flatTree defaultClusterizeCondition).
Proof.
  split.
  - apply metaClusters_class; try congruence.
    intros x y Hxy. apply andb_true_iff in Hxy as [Hl _]. apply Nat.eqb_eq, Hl.
  - apply metaClusters_class.
    + intros x y Hxy. apply andb_true_iff in Hxy as [Hl Hd].
      unfold defaultClusterizeCondition in Hd.
      apply andb_true_iff in Hd as [Hcol Hty].
      apply bool_decide_eq_true in Hcol, Hty. apply Nat.eqb_eq in Hl. auto.
    + auto.
    + intros x y (H1 & H2 & H3). auto.
    + intros x y z (H1 & H2 & H3) (H4 & H5 & H6). repeat split; congruence.
Qed.

(** Every cluster of the result of [clusterizeFlatTree] is made, by the
    final [map], of a non-empty run of the visible nodes of one of the
    meta-clusters. *)
Lemma clusterizeFlatTree_members {T} `{HasNodes T} (metas : list T) (zoom : Q)
    (start' end' stickDistance minBlockSize : option Q)
    (out : list Cluster.ClusterizedFlatTreeNode) :
  clusterizeFlatTree metas zoom start' end' stickDistance minBlockSize = Some out ->
  Forall (fun c =>
    makeCluster (Cluster.nodes c) = Some c
    /\ clusterSpans c
    /\ exists cluster g,
         In cluster metas /\ In (Cluster.nodes c) g
         /\ Runs (sticks zoom (default STICK_DISTANCE stickDistance)
                    (default MIN_BLOCK_SIZE minBlockSize))
              (visibleNodes start' end' cluster) g)
    out.
Proof.
  intros Hout.
  destruct (clusterizeFlatTree_groups zoom start' end' stickDistance minBlockSize metas)
    as (out' & groups & Hout' & Hmap & HF & Hspan).
  rewrite Hout in Hout'. injection Hout' as <-.
  assert (Hmk : Forall (fun c => makeCluster (Cluster.nodes c) = Some c) out).
  { unfold clusterizeFlatTree, clusterizeCore in Hout.
    apply mapM_Some_1 in Hout.
    clear -Hout. induction Hout as [|nodes c l k Hc _ IH]; constructor; [|exact IH].
    assert (Cluster.nodes c = nodes) as ->; [|exact Hc].
    unfold makeCluster in Hc.
    destruct (nodes !! 0%nat); [|discriminate]. simpl in Hc.
    destruct (calcClusterDuration nodes); [|discriminate]. simpl in Hc.
    injection Hc as <-. reflexivity. }
  rewrite List.Forall_forall in Hmk, Hspan. apply List.Forall_forall. intros c Hc.
  split; [apply Hmk, Hc|]. split; [apply Hspan, Hc|].
  assert (Hin : In (Cluster.nodes c) (concat groups)).
  { rewrite <- Hmap. apply in_map. exact Hc. }
  apply in_concat in Hin as (g & Hg & Hcg).
  clear -HF Hg Hcg. induction HF as [|cluster g' metas groups HR _ IH].
  - destruct Hg.
  - destruct Hg as [-> | Hg].
    + exists cluster, g. split; [left; reflexivity|]. split; [exact Hcg | exact HR].
    + destruct (IH Hg) as (cluster' & g'' & H1 & H2 & H3).
      exists cluster', g''. split; [right; exact H1|]. auto.
Qed.

Lemma cluster_nodes_sublist {T} `{HasNodes T} (start' end' : option Q) (R : FlatTreeNode -> FlatTreeNode -> bool)
    (cluster : T) (g : list (list FlatTreeNode)) (c : list FlatTreeNode) :
  Runs R (visibleNodes start' end' cluster) g -> In c g ->
  c <> [] /\ c `sublist_of` nodesOf cluster.
Proof.
  intros (Hcat & Hne & _) Hc. split.
  - rewrite List.Forall_forall in Hne. apply Hne, Hc.
  - transitivity (visibleNodes start' end' cluster).
    + rewrite <- Hcat. apply sublist_of_concat, Hc.
    + apply sublist_of_filter.
Qed.

(** X4: in the clusters made from the meta-clusters of a flat tree (default
    condition), every member node has the cluster's level, colour and
    type, and is one of the nodes shown to the clustering. *)
Theorem clusters_agree_with_members (flatTree : list FlatTreeNode) (zoom : Q)
    (start' end' stickDistance minBlockSize : option Q) :
  exists out,
    clusterizeFlatTree (metaClusterizeFlatTree flatTree defaultClusterizeCondition)
      zoom start' end' stickDistance minBlockSize = Some out
    /\ Forall (fun c =>
         Cluster.nodes c <> []
         /\ forall node, In node (Cluster.nodes c) ->
              In node flatTree
              /\ checkNodeTimeboundNesting node (default 0 start') (default 0 end') = true
              /\ level node = Cluster.level c
              /\ color (source node) = Cluster.color c
              /\ type (source node) = Cluster.type c)
         out.
Proof.
  destruct (clusterizeFlatTree_total
              (metaClusterizeFlatTree flatTree defaultClusterizeCondition)
              zoom start' end' stickDistance minBlockSize) as (out & Hout).
  exists out. split; [exact Hout|].
  pose proof (clusterizeFlatTree_members _ _ _ _ _ _ _ Hout) as Hm.
  assert (Hhom : Forall (fun cluster =>
                           forall a b, In a (Meta.nodes cluster) -> In b (Meta.nodes cluster) ->
                                       level a = level b
                                       /\ color (source a) = color (source b)
                                       /\ type (source a) = type (source b))
                   (metaClusterizeFlatTree flatTree defaultClusterizeCondition)).
  { apply metaClusters_class.
    - intros x y Hxy. apply andb_true_iff in Hxy as [Hl Hd].
      unfold defaultClusterizeCondition in Hd.
      apply andb_true_iff in Hd as [Hcol Hty].
      apply bool_decide_eq_true in Hcol, Hty. apply Nat.eqb_eq in Hl. auto.
    - auto.
    - intros x y (H1 & H2 & H3). auto.
    - intros x y z (H1 & H2 & H3) (H4 & H5 & H6). repeat split; congruence. }
  pose proof (metaClusterizeFlatTree_Runs defaultClusterizeCondition flatTree) as (Hcat & _).
  rewrite List.Forall_forall in Hhom.
  eapply Forall_impl; [exact Hm|].
  intros c (_ & (firstNode & lastNode & Hh & _ & _ & _ & _ & Hl & Ht & Hc)
            & cluster & g & Hin & Hcg & HR).
  destruct (cluster_nodes_sublist _ _ _ _ _ _ HR Hcg) as [Hne Hsub].
  split; [exact Hne|]. intros node Hnode.
  assert (Hfirst : In firstNode (Cluster.nodes c)).
  { destruct (Cluster.nodes c); [discriminate|]. injection Hh as ->. left. reflexivity. }
  assert (Hnm : In node (Meta.nodes cluster)) by (eapply sublist_In; eassumption).
  assert (Hfm : In firstNode (Meta.nodes cluster)) by (eapply sublist_In; eassumption).
  destruct (Hhom cluster Hin node firstNode Hnm Hfm) as (H1 & H2 & H3).
  split; [|split].
  - rewrite <- Hcat. apply in_concat. exists (Meta.nodes cluster).
    split; [apply in_map; exact Hin | exact Hnm].
  - destruct HR as (HRcat & _).
    assert (Hv : In node (visibleNodes start' end' cluster)).
    { rewrite <- HRcat. apply in_concat. exists (Cluster.nodes c). auto. }
    unfold visibleNodes in Hv. apply filter_In in Hv. apply Hv.
  - rewrite Hl, Ht, Hc. auto.
Qed.

(** ** Clustering again what is clustered *)

(** A chained non-empty list is its own only run. *)
Lemma Runs_chained {A} (R : A -> A -> bool) (l : list A) (g : list (list A)) :
  l <> [] -> chained R l -> Runs R l g -> g = [l].
Proof.
  intros Hne Hch (Hcat & Hnes & _ & Hsep).
  destruct g as [|c1 [|c2 g]].
  - simpl in Hcat. congruence.
  - simpl in Hcat. rewrite app_nil_r in Hcat. congruence.
  - exfalso.
    apply Forall_cons in Hnes as [Hc1 Hnes]. apply Forall_cons in Hnes as [Hc2 _].
    destruct (last_inv c1) as [[-> _] | (c1' & a & -> & Ha)]; [contradiction|].
    destruct c2 as [|b c2]; [contradiction|].
    destruct Hsep as [Hab _]. specialize (Hab a b Ha eq_refl).
    simpl in Hcat. rewrite <- app_assoc in Hcat. simpl in Hcat.
    rewrite (chained_split R l c1' (c2 ++ concat g) a b Hch) in Hab; [discriminate|].
    rewrite <- Hcat. reflexivity.
Qed.

Lemma Runs_member_chained {A} (R : A -> A -> bool) (l : list A) (g : list (list A))
    (c : list A) :
  Runs R l g -> In c g -> chained R c /\ c <> [].
Proof.
  intros (_ & Hne & Hch & _) Hc.
  rewrite List.Forall_forall in Hne, Hch. split; [apply Hch | apply Hne]; exact Hc.
Qed.

Lemma filter_all {A} (f : A -> bool) (l : list A) :
  Forall (fun x => f x = true) l -> List.filter f l = l.
Proof.
  induction 1 as [|x l Hx _ IH]; [reflexivity|]. simpl. rewrite Hx, IH. reflexivity.
Qed.

Section Idempotence.
Context {T : Type} `{HasNodes T}.
Variables (zoom start' end' : Q) (stickDistance minBlockSize : option Q).

(** Clustering a finished cluster alone, with the parameters it was made
    with, gives the cluster back. *)
Lemma clusterizeFlatTree_again (metas : list T)
    (out : list Cluster.ClusterizedFlatTreeNode) :
  clusterizeFlatTree metas zoom (Some start') (Some end') stickDistance minBlockSize
  = Some out ->
  Forall (fun c =>
            clusterizeFlatTree [c] zoom (Some start') (Some end')
              stickDistance minBlockSize = Some [c])
    out.
Proof.
  intros Hout.
  pose proof (clusterizeFlatTree_members _ _ _ _ _ _ _ Hout) as Hm.
  eapply Forall_impl; [exact Hm|].
  intros c (Hmk & _ & cluster & g & _ & Hcg & HR).
  destruct (Runs_member_chained _ _ _ _ HR Hcg) as [Hch Hne].
  assert (Hvis : Forall (fun n => checkNodeTimeboundNesting n start' end' = true)
                   (Cluster.nodes c)).
  { apply List.Forall_forall. intros n Hn. destruct HR as (Hcat & _).
    assert (Hv : In n (visibleNodes (Some start') (Some end') cluster)).
    { rewrite <- Hcat. apply in_concat. exists (Cluster.nodes c). auto. }
    unfold visibleNodes in Hv. apply filter_In in Hv. apply Hv. }
  unfold clusterizeFlatTree, clusterizeCore. cbn [fold_left].
  change (default 0 (Some start')) with start'. change (default 0 (Some end')) with end'.
  destruct (clusterizeScan_Runs zoom start' end'
              (default STICK_DISTANCE stickDistance)
              (default MIN_BLOCK_SIZE minBlockSize) [] c) as (g' & -> & HR').
  change (nodesOf c) with (Cluster.nodes c) in HR'.
  rewrite (filter_all _ _ Hvis) in HR'.
  rewrite (Runs_chained _ _ _ Hne Hch HR'). simpl. rewrite Hmk. reflexivity.
Qed.

(** X5: render clustering returns, and re-clustering its result with the
    same parameters returns, unchanged and in order, those of its clusters
    that pass the cluster visibility test. *)
Theorem reclusterize_clusterize (metas : list T) :
  exists out,
    clusterizeFlatTree metas zoom (Some start') (Some end') stickDistance minBlockSize
    = Some out
    /\ reclusterizeClusteredFlatTree out zoom start' end' stickDistance minBlockSize
       = Some (List.filter (fun c => checkClusterTimeboundNesting c start' end') out).
Proof.
  destruct (clusterizeFlatTree_total metas zoom (Some start') (Some end')
              stickDistance minBlockSize) as (out & Hout).
  exists out. split; [exact Hout|].
  pose proof (clusterizeFlatTree_again metas out Hout) as Hagain.
  unfold reclusterizeClusteredFlatTree.
  assert (Hfold : forall acc,
            fold_left (reclusterizeStep zoom start' end' stickDistance minBlockSize)
              out (Some acc)
            = Some (acc ++ List.filter
                             (fun c => checkClusterTimeboundNesting c start' end') out)).
  { clear -Hagain. induction Hagain as [|c out Hc _ IH]; intros acc.
    - simpl. rewrite app_nil_r. reflexivity.
    - cbn [fold_left List.filter].
      unfold reclusterizeStep at 2. cbn [mbind option_bind].
      destruct (checkClusterTimeboundNesting c start' end').
      + assert (Hstep : (if Num.leb (Cluster.duration c * zoom) MIN_CLUSTER_SIZE
                         then Some (acc ++ [c])
                         else clusterizeFlatTree [c] zoom (Some start') (Some end')
                                stickDistance minBlockSize
                              ≫= (fun clusters => Some (acc ++ clusters)))
                        = Some (acc ++ [c])).
        { destruct (Num.leb _ _); [reflexivity|]. rewrite Hc. reflexivity. }
        rewrite Hstep, IH, <- app_assoc. reflexivity.
      + apply IH. }
  apply (Hfold []).
Qed.
End Idempotence.

(** ** Clusters of a forest without negative durations *)

Lemma metaCluster_sublist (flatTree : list FlatTreeNode)
    (condition : FlatTreeNode -> FlatTreeNode -> bool)
    (cluster : Meta.MetaClusterizedFlatTreeNode) :
  In cluster (metaClusterizeFlatTree flatTree condition) ->
  Meta.nodes cluster `sublist_of` flatTree.
Proof.
  intros Hin.
  destruct (metaClusterizeFlatTree_Runs condition flatTree) as (Hcat & _).
  pose proof (sublist_of_concat (Meta.nodes cluster)
                (map Meta.nodes (metaClusterizeFlatTree flatTree condition))
                (in_map _ _ _ Hin)) as Hs.
  rewrite Hcat in Hs. exact Hs.
Qed.

(** X6: in the clusters made from the flat tree of a forest whose durations
    are not negative, a cluster starts with its earliest member, does not
    end before it starts, and has a duration that is not negative. *)
Theorem clusters_start_first (treeList : list FlameChartNode)
    (condition : FlatTreeNode -> FlatTreeNode -> bool) (zoom : Q)
    (start' end' stickDistance minBlockSize : option Q) :
  Forall (fun node => 0 <= duration node) (flat_map preorder treeList) ->
  exists out,
    clusterizeFlatTree (metaClusterizeFlatTree (flatTree treeList) condition)
      zoom start' end' stickDistance minBlockSize = Some out
    /\ Forall (fun c =>
         0 <= Cluster.duration c
         /\ Cluster.start c <= Cluster.end_ c
         /\ Forall (fun node => Cluster.start c <= start (source node))
              (Cluster.nodes c))
         out.
Proof.
  intros Hdur.
  destruct (clusterizeFlatTree_total
              (metaClusterizeFlatTree (flatTree treeList) condition)
              zoom start' end' stickDistance minBlockSize) as (out & Hout).
  exists out. split; [exact Hout|].
  pose proof (clusterizeFlatTree_members _ _ _ _ _ _ _ Hout) as Hm.
  assert (Hhom : Forall (fun cluster =>
                           forall a b, In a (Meta.nodes cluster) -> In b (Meta.nodes cluster) ->
                                       level a = level b)
                   (metaClusterizeFlatTree (flatTree treeList) condition)).
  { apply metaClusters_class; try congruence.
    intros x y Hxy. apply andb_true_iff in Hxy as [Hl _]. apply Nat.eqb_eq, Hl. }
  rewrite List.Forall_forall in Hhom.
  destruct (flatTree_walk treeList) as (result & Hflat & Hsrc & _).
  assert (Hsorted : StronglySorted flatTreeLe (flatTree treeList))
    by (rewrite Hflat; apply sort_flatTreeCompare_sorted).
  assert (Hnonneg : forall node, In node (flatTree treeList) -> 0 <= duration (source node)).
  { intros node Hn. rewrite List.Forall_forall in Hdur. apply Hdur.
    rewrite <- Hsrc. apply in_map.
    apply (Permutation_in _ (sort_Permutation flatTreeCompare result)).
    rewrite <- Hflat. exact Hn. }
  eapply Forall_impl; [exact Hm|].
  intros c (_ & (firstNode & lastNode & Hh & Hl & Hs & Hd & He & _)
            & cluster & g & Hin & Hcg & HR).
  destruct (cluster_nodes_sublist _ _ _ _ _ _ HR Hcg) as [_ Hsub].
  assert (Hsubflat : Cluster.nodes c `sublist_of` flatTree treeList).
  { transitivity (Meta.nodes cluster); [exact Hsub|].
    eapply metaCluster_sublist, Hin. }
  assert (Hfirst : Forall (fun node => start (source firstNode) <= start (source node))
                     (Cluster.nodes c)).
  { pose proof (StronglySorted_sublist _ _ _ Hsubflat Hsorted) as Hs'.
    destruct (Cluster.nodes c) as [|x rest] eqn:En; [discriminate|].
    injection Hh as ->. constructor; [lra|].
    inversion Hs' as [|? ? _ Hx]; subst.
    rewrite List.Forall_forall in Hx. apply List.Forall_forall. intros node Hn.
    assert (Hlev : level firstNode = level node).
    { apply (Hhom cluster Hin); (eapply sublist_In; [exact Hsub|]);
        [left; reflexivity | right; exact Hn]. }
    destruct (Hx node Hn) as [Hlt | [_ Hle]]; [lia | exact Hle]. }
  assert (Hla : In lastNode (Cluster.nodes c)).
  { rewrite last_list_last in Hl. apply list_elem_of_In, last_Some_elem_of, Hl. }
  assert (Hfl : start (source firstNode) <= start (source lastNode)).
  { rewrite List.Forall_forall in Hfirst. apply Hfirst, Hla. }
  assert (Hdl : 0 <= duration (source lastNode)).
  { apply Hnonneg. eapply sublist_In; eassumption. }
  rewrite He, Hd, Hs. split; [lra|]. split; [lra | exact Hfirst].
Qed.

Lemma clusters_start_first_witness :
  exists out,
    clusterizeFlatTree
      (metaClusterizeFlatTree (flatTree example_forest) defaultClusterizeCondition)
      (1 # 10) (Some 0) (Some 10) None None = Some out
    /\ Forall (fun c =>
         0 <= Cluster.duration c
         /\ Cluster.start c <= Cluster.end_ c
         /\ Forall (fun node => Cluster.start c <= start (source node))
              (Cluster.nodes c))
         out.
Proof.
  apply clusters_start_first.
  vm_compute. repeat constructor; discriminate.
Defined.

(** ** Re-clustering keeps to the nodes it is given *)

Lemma clusterizeFlatTree_nodes_sublist {T} `{HasNodes T} (metas : list T) (zoom : Q)
    (start' end' stickDistance minBlockSize : option Q) :
  exists out,
    clusterizeFlatTree metas zoom start' end' stickDistance minBlockSize = Some out
    /\ concat (map Cluster.nodes out) `sublist_of` concat (map nodesOf metas).
Proof.
  destruct (clusterizeFlatTree_groups zoom start' end' stickDistance minBlockSize metas)
    as (out & groups & Hout & Hmap & HF & _).
  exists out. split; [exact Hout|]. rewrite Hmap.
  clear Hout Hmap. induction HF as [|cluster g metas groups HR _ IH]; [constructor|].
  simpl. rewrite concat_app. apply sublist_app; [|exact IH].
  destruct HR as (-> & _). apply sublist_of_filter.
Qed.

(** X7: re-clustering returns, and the nodes of its clusters, taken in
    order, are nodes of the clusters it was given, in the same order: no
    node is added, repeated or moved. *)
Theorem reclusterize_nodes_sublist (clusters : list Cluster.ClusterizedFlatTreeNode)
    (zoom start' end' : Q) (stickDistance minBlockSize : option Q) :
  exists out,
    reclusterizeClusteredFlatTree clusters zoom start' end' stickDistance minBlockSize
    = Some out
    /\ concat (map Cluster.nodes out) `sublist_of` concat (map Cluster.nodes clusters).
Proof.
  destruct (reclusterize_fold zoom start' end' stickDistance minBlockSize clusters [])
    as (pieces & Hfold & HF).
  exists (concat pieces). split; [exact Hfold|].
  clear Hfold. induction HF as [|cluster piece clusters pieces Hp _ IH]; [constructor|].
  simpl. rewrite map_app, concat_app. apply sublist_app; [|exact IH].
  destruct Hp as [(_ & _ & ->) | [(_ & _ & Hc) | (_ & ->)]].
  - simpl. rewrite app_nil_r. reflexivity.
  - destruct (clusterizeFlatTree_nodes_sublist [cluster] zoom (Some start') (Some end')
                stickDistance minBlockSize) as (out & Hout & Hsub).
    rewrite Hc in Hout. injection Hout as <-.
    simpl in Hsub. rewrite app_nil_r in Hsub. exact Hsub.
  - apply sublist_nil_l.
Qed.

(** ** The panels follow the root engine *)

Section Synced.
Import BasicRenderEngine.

(** Every panel has the zoom, position and extent of the root. *)
Definition Synced (e : RenderEngine.t) : Prop :=
  Forall (fun engine =>
            zoom (OffscreenRenderEngine.base engine) = zoom (RenderEngine.base e)
            /\ positionX (OffscreenRenderEngine.base engine) = positionX (RenderEngine.base e)
            /\ min (OffscreenRenderEngine.base engine) = min (RenderEngine.base e)
            /\ max (OffscreenRenderEngine.base engine) = max (RenderEngine.base e))
    (RenderEngine.children e).

Lemma Synced_setZoom (e : RenderEngine.t) (z : Q) :
  Synced e -> Synced (RenderEngine.setZoom e z).1.
Proof.
  unfold Synced, RenderEngine.setZoom. intros Hs.
  destruct (_ || _); simpl; [|exact Hs].
  apply List.Forall_map. eapply Forall_impl; [exact Hs|].
  intros engine (_ & H2 & H3 & H4). simpl. auto.
Qed.

Lemma Synced_setPositionX (e : RenderEngine.t) (x : Q) :
  Synced e -> Synced (RenderEngine.setPositionX e x).1.
Proof.
  unfold Synced, RenderEngine.setPositionX. intros Hs. simpl.
  apply List.Forall_map. eapply Forall_impl; [exact Hs|].
  intros engine (H1 & _ & H3 & H4). simpl. auto.
Qed.

Lemma Synced_setMinMax (e : RenderEngine.t) (min' max' : Q) :
  Synced e -> Synced (RenderEngine.setMinMax e min' max').
Proof.
  unfold Synced, RenderEngine.setMinMax. intros Hs. simpl.
  apply List.Forall_map. eapply Forall_impl; [exact Hs|].
  intros engine (H1 & H2 & _ & _). simpl. auto.
Qed.

Lemma Synced_tryToChangePosition (e : RenderEngine.t) (positionDelta : Q) :
  Synced e -> Synced (tryToChangePosition e positionDelta).
Proof.
  intros Hs. unfold tryToChangePosition.
  destruct (_ && _); [apply Synced_setPositionX, Hs|].
  destruct (Num.leb _ _); [apply Synced_setPositionX, Hs|].
  destruct (Num.geb _ _); [apply Synced_setPositionX, Hs | exact Hs].
Qed.

Lemma Synced_resetView (e : RenderEngine.t) : Synced e -> Synced (resetView e).
Proof.
  intros Hs. unfold resetView. apply Synced_setPositionX.
  apply (Synced_setZoom e), Hs.
Qed.

Lemma Synced_handleMouseWheel {D} (s : InteractionsEngine.t D) (deltaX deltaY : Q) :
  Synced (InteractionsEngine.renderEngine s) ->
  Synced (InteractionsEngine.renderEngine
            (InteractionsEngine.handleMouseWheel s deltaX deltaY).1).
Proof.
  intros Hs. unfold InteractionsEngine.handleMouseWheel.
  set (engine1 := tryToChangePosition (InteractionsEngine.renderEngine s) _).
  assert (H1 : Synced engine1) by apply Synced_tryToChangePosition, Hs.
  set (zoomDelta := if Num.geb _ _ then _ else _).
  set (engine2 := if negb (Num.eqb zoomDelta 0) then _ else _).
  assert (H2 : Synced engine2).
  { subst engine2. destruct (negb _); [|exact H1].
    pose proof (Synced_setZoom engine1 (zoom (basic engine1) - zoomDelta) H1) as Hz.
    destruct (RenderEngine.setZoom _ _) as [engine' zoomed]. simpl in Hz.
    destruct zoomed; [apply Synced_tryToChangePosition, Hz | exact Hz]. }
  pose proof (checkRegionHover_renderEngine
                (InteractionsEngine.setRenderEngine s engine2)) as Hr.
  destruct (InteractionsEngine.checkRegionHover _) as [s' effects].
  simpl in *. rewrite Hr. exact H2.
Qed.

(** X8: when every panel has the zoom, position and extent of the root
    engine, it still has after the root sets its zoom (accepted or not), its
    position or its extent, after a pan, after a reset of the view, after
    the container's [setZoom] and after a wheel event. *)
Theorem panels_stay_synced {D} (e : RenderEngine.t) (s : InteractionsEngine.t D)
    (a b : Q) :
  Synced e ->
  Synced (RenderEngine.setZoom e a).1
  /\ Synced (RenderEngine.setPositionX e a).1
  /\ Synced (RenderEngine.setMinMax e a b)
  /\ Synced (tryToChangePosition e a)
  /\ Synced (resetView e)
  /\ Synced (FlameChartContainer_setZoom e a b)
  /\ Synced (InteractionsEngine.renderEngine
               (InteractionsEngine.handleMouseWheel
                  (InteractionsEngine.setRenderEngine s e) a b).1).
Proof.
  intros Hs.
  split; [apply Synced_setZoom, Hs|]. split; [apply Synced_setPositionX, Hs|].
  split; [apply Synced_setMinMax, Hs|].
  split; [apply Synced_tryToChangePosition, Hs|].
  split; [apply Synced_resetView, Hs|]. split.
  - unfold FlameChartContainer_setZoom. apply Synced_setZoom, Synced_setPositionX, Hs.
  - apply Synced_handleMouseWheel. exact Hs.
Qed.
End Synced.

(** An engine with two panels, for the examples below: the extent [0, 10]
    on 100 pixels at the fitted zoom 10. *)
Definition demo_view : BasicRenderEngine.t :=
  {| BasicRenderEngine.width := 100; BasicRenderEngine.height := 50;
     BasicRenderEngine.zoom := 10; BasicRenderEngine.positionX := 0;
     BasicRenderEngine.min := 0; BasicRenderEngine.max := 10 |}.

Definition demo_panel (position : Q) (id : nat) : OffscreenRenderEngine.t :=
  {| OffscreenRenderEngine.base := demo_view;
     OffscreenRenderEngine.flexible := false;
     OffscreenRenderEngine.collapsed := false;
     OffscreenRenderEngine.position := position;
     OffscreenRenderEngine.id := Some id |}.

Definition demo_engine : RenderEngine.t :=
  {| RenderEngine.base := demo_view;
     RenderEngine.children := [demo_panel 0 0; demo_panel 50 1];
     RenderEngine.timeGridAccuracy := 0 |}.

Definition demo_state : InteractionsEngine.t string :=
  {| InteractionsEngine.renderEngine := demo_engine;
     InteractionsEngine.hitRegions := [];
     InteractionsEngine.instances := [];
     InteractionsEngine.mouse := {| Mouse.x := 50; Mouse.y := 10 |};
     InteractionsEngine.selectedRegion := None;
     InteractionsEngine.hoveredRegion := None;
     InteractionsEngine.hoveredInstance := None;
     InteractionsEngine.moveActive := false;
     InteractionsEngine.currentCursor := None;
     InteractionsEngine.canvasCursor := None |}.

Lemma panels_stay_synced_witness :
  Synced (tryToChangePosition demo_engine 3)
  /\ Synced (FlameChartContainer_setZoom demo_engine 2 4).
Proof.
  assert (Hs : Synced demo_engine) by (repeat constructor).
  destruct (panels_stay_synced demo_engine demo_state 3 4 Hs) as (_ & _ & _ & H4 & _).
  destruct (panels_stay_synced demo_engine demo_state 2 4 Hs)
    as (_ & _ & _ & _ & _ & H6 & _).
  split; assumption.
Defined.

(** ** Fitting the view *)

Section Fit.
Import BasicRenderEngine.

Lemma resetView_basic (e : RenderEngine.t) :
  positionX (basic (resetView e)) = min (basic e)
  /\ min (basic (resetView e)) = min (basic e)
  /\ max (basic (resetView e)) = max (basic e)
  /\ width (basic (resetView e)) = width (basic e)
  /\ ((RenderEngine.setZoom e (getInitialZoom (basic e))).2 = true ->
      zoom (basic (resetView e)) = getInitialZoom (basic e))
  /\ ((RenderEngine.setZoom e (getInitialZoom (basic e))).2 = false ->
      zoom (basic (resetView e)) = zoom (basic e)).
Proof.
  unfold resetView. simpl. unfold RenderEngine.setZoom.
  destruct (_ || _); simpl; repeat split; auto; discriminate.
Qed.

End Fit.

(** ** The container's zoom *)

Section ContainerZoom.
Import BasicRenderEngine.

(** X10: [FlameChartContainer.setZoom(start, end)] with [start < end] puts
    the left edge at [start], whatever the extent, and leaves the extent
    and the width as they were.  When the root accepts the zoom
    [width / (end - start)] (the accuracy is below [MAX_ACCURACY], or it is
    a zoom-out) that is the new zoom, and [start] is drawn at pixel 0.  When
    the zoom is refused, the left edge has moved all the same and the zoom
    is as before. *)
Theorem container_setZoom_window (e : RenderEngine.t) (start' end' : Q) :
  start' < end' ->
  let zoom' := width (basic e) / (end' - start') in
  let e' := FlameChartContainer_setZoom e start' end' in
  positionX (basic e') = start'
  /\ min (basic e') = min (basic e) /\ max (basic e') = max (basic e)
  /\ width (basic e') = width (basic e)
  /\ ((RenderEngine.getAccuracy e < MAX_ACCURACY)%Z \/ zoom' <= zoom (basic e) ->
      zoom (basic e') = zoom'
      /\ timeToPosition (basic e') start' == 0)
  /\ (~ ((RenderEngine.getAccuracy e < MAX_ACCURACY)%Z \/ zoom' <= zoom (basic e)) ->
      zoom (basic e') = zoom (basic e)).
Proof.
  intros _. cbv zeta. unfold FlameChartContainer_setZoom.
  set (e1 := (RenderEngine.setPositionX e start').1).
  set (z := width (RenderEngine.base e) / (end' - start')).
  change (width (basic e) / (end' - start')) with z.
  pose proof (setZoom_condition e1 z) as Hc.
  change (RenderEngine.getAccuracy e1) with (RenderEngine.getAccuracy e) in Hc.
  change (zoom (basic e1)) with (zoom (basic e)) in Hc.
  unfold RenderEngine.setZoom in *.
  destruct (_ || _) eqn:E; simpl in *.
  - repeat (split; [reflexivity|]).
    split; [|intros Hno; exfalso; apply Hno, Hc; reflexivity].
    intros _. split; [reflexivity|].
    unfold timeToPosition. simpl. ring.
  - repeat (split; [reflexivity|]). split; [|reflexivity].
    intros Hok. apply Hc in Hok. discriminate.
Qed.
End ContainerZoom.

Lemma container_setZoom_window_witness :
  BasicRenderEngine.positionX (basic (FlameChartContainer_setZoom demo_engine 2 12)) = 2.
Proof.
  refine (proj1 (container_setZoom_window demo_engine 2 12 _)).
  reflexivity.
Defined.

(** ** The layout of the panels *)

Section LayoutFacts.
Import Layout.

(** Each size starts where the one before it ends, the first at [p]. *)
Fixpoint Stacked (p : Q) (sizes : list Size) : Prop :=
  match sizes with
  | [] => True
  | size :: rest => position size = p /\ Stacked (p + height size) rest
  end.

Lemma Stacked_app (p : Q) (l1 l2 : list Size) :
  Stacked p (l1 ++ l2)
  <-> Stacked p l1 /\ Stacked (fold_left (fun acc s => acc + height s) l1 p) l2.
Proof.
  revert p. induction l1 as [|s l1 IH]; intros p; simpl; [tauto|].
  rewrite IH. tauto.
Qed.

Definition Panel : Type := EngineType * OffscreenRenderEngine.t * option Q.

Definition panelSize (width' freeSpacePart : Q) (position' : Q) (p : Panel) : Size :=
  let '(type, engine, pluginHeight) := p in
  {| width := width'; position := position';
     height := newHeight freeSpacePart type engine pluginHeight |}.

(** The step of the second [reduce] of [getChildrenSizes]. *)
Definition sizeStep (width' freeSpacePart : Q) : Q * list Size -> Panel -> Q * list Size :=
  fun '(position, result) '(type, engine, pluginHeight) =>
    let height := newHeight freeSpacePart type engine pluginHeight in
    (position + height,
     result ++ [ {| width := width'; position := position; height := height |} ]).

(** The two numbers [getChildrenSizes] computes before it sizes the panels. *)
Definition freeSpaceOf (rootHeight : Q) (ps : list Panel) : Q :=
  fold_left (fun acc '(type, engine, pluginHeight) =>
               acc - takenHeight type engine pluginHeight) ps rootHeight.

Definition growingCount (ps : list Panel) : nat :=
  length (List.filter (fun '(type, _, _) =>
                         match type with flexibleGrowing => true | _ => false end) ps).

Definition freeSpacePartOf (rootHeight : Q) (ps : list Panel) : Q :=
  inject_Z (Qfloor (freeSpaceOf rootHeight ps / inject_Z (Z.of_nat (growingCount ps)))).

Lemma getChildrenSizes_eq (e : RenderEngine.t) (pluginHeights : list (option Q)) :
  getChildrenSizes e pluginHeights
  = ps ← panels (RenderEngine.children e) pluginHeights;
    Some (fold_left
            (sizeStep (BasicRenderEngine.width (RenderEngine.base e))
               (freeSpacePartOf (BasicRenderEngine.height (RenderEngine.base e)) ps))
            ps (0, [])).2.
Proof. reflexivity. Qed.

Lemma sizes_fold (width' freeSpacePart : Q) (ps : list Panel) (p0 : Q) (r0 : list Size) :
  exists sizes,
    fold_left (sizeStep width' freeSpacePart) ps (p0, r0)
    = (fold_left (fun acc s => acc + height s) sizes p0, r0 ++ sizes)
    /\ Stacked p0 sizes
    /\ Forall2 (fun p size =>
                  width size = width'
                  /\ height size = newHeight freeSpacePart p.1.1 p.1.2 p.2)
         ps sizes.
Proof.
  revert p0 r0. induction ps as [|[[type engine] pluginHeight] ps IH]; intros p0 r0.
  - exists []. simpl. rewrite app_nil_r. repeat split; constructor.
  - cbn [fold_left]. unfold sizeStep at 2. cbv zeta.
    destruct (IH (p0 + newHeight freeSpacePart type engine pluginHeight)
                (r0 ++ [ {| width := width'; position := p0;
                            height := newHeight freeSpacePart type engine pluginHeight |} ]))
      as (sizes & -> & Hst & HF).
    exists ({| width := width'; position := p0;
               height := newHeight freeSpacePart type engine pluginHeight |} :: sizes).
    simpl. rewrite <- app_assoc. simpl.
    split; [reflexivity|]. split; [split; [reflexivity | exact Hst]|].
    constructor; [split; reflexivity | exact HF].
Qed.

Lemma imap_lookup_mapM {A B C} (f : nat -> A -> B) (g : B -> option C)
    (l : list A) (k : list C) :
  mapM g (imap f l) = Some k ->
  length k = length l
  /\ forall i a, l !! i = Some a -> exists c, k !! i = Some c /\ g (f i a) = Some c.
Proof.
  revert f k. induction l as [|x l IH]; intros f k Hk.
  - simpl in Hk. injection Hk as <-. split; [reflexivity|]. intros i a Hi. discriminate.
  - simpl in Hk. destruct (g (f 0%nat x)) as [c|] eqn:Ec; [|discriminate].
    simpl in Hk. destruct (mapM g (imap (f ∘ S) l)) as [k'|] eqn:Ek; [|discriminate].
    simpl in Hk. injection Hk as <-.
    destruct (IH (f ∘ S) k' Ek) as [Hlen Hlk].
    split; [simpl; rewrite Hlen; reflexivity|].
    intros [|i] a Hi; simpl in Hi.
    + injection Hi as <-. exists c. split; [reflexivity | exact Ec].
    + apply (Hlk i a Hi).
Qed.

Lemma imap_mapM_None {A B C} (f : nat -> A -> B) (g : B -> option C) (l : list A) :
  mapM g (imap f l) = None <-> exists i a, l !! i = Some a /\ g (f i a) = None.
Proof.
  revert f. induction l as [|x l IH]; intros f.
  - simpl. split; [discriminate|]. intros (i & a & Hi & _). discriminate.
  - simpl. destruct (g (f 0%nat x)) as [c|] eqn:Ec; simpl.
    + destruct (mapM g (imap (f ∘ S) l)) as [k'|] eqn:Ek; simpl.
      * split; [discriminate|]. intros ([|i] & a & Hi & Hg); simpl in Hi.
        -- injection Hi as <-. congruence.
        -- assert (HN : mapM g (imap (f ∘ S) l) = None)
             by (apply IH; exists i, a; auto).
           congruence.
      * split; [|reflexivity]. intros _. apply IH in Ek as (i & a & Hi & Hg).
        exists (S i), a. auto.
    + split; [|reflexivity]. intros _. exists 0%nat, x. auto.
Qed.

(** The panels are the children with their types and plugin heights. *)
Lemma panels_Some (children : list OffscreenRenderEngine.t)
    (pluginHeights : list (option Q)) (ps : list Panel) :
  panels children pluginHeights = Some ps ->
  length ps = length children
  /\ forall i engine, children !! i = Some engine ->
       exists pluginHeight,
         pluginHeights !! i = Some pluginHeight
         /\ ps !! i = Some (engineType engine pluginHeight, engine, pluginHeight).
Proof.
  intros Hps. unfold panels in Hps.
  apply imap_lookup_mapM in Hps as [Hlen Hlk].
  split; [exact Hlen|]. intros i engine Hi.
  destruct (Hlk i engine Hi) as (c & Hc & Hg). simpl in Hg.
  destruct (pluginHeights !! i) as [h|]; [|discriminate]. simpl in Hg.
  injection Hg as <-. exists h. auto.
Qed.

Lemma panels_None (children : list OffscreenRenderEngine.t)
    (pluginHeights : list (option Q)) :
  panels children pluginHeights = None
  <-> (length pluginHeights < length children)%nat.
Proof.
  unfold panels. rewrite imap_mapM_None. split.
  - intros (i & engine & Hi & Hg). simpl in Hg.
    destruct (pluginHeights !! i) as [h|] eqn:Eh; [discriminate|].
    apply lookup_ge_None in Eh. apply lookup_lt_Some in Hi. lia.
  - intros Hlt.
    destruct (lookup_lt_is_Some_2 children (length pluginHeights) Hlt) as (engine & He).
    exists (length pluginHeights), engine. split; [exact He|]. simpl.
    rewrite (proj2 (lookup_ge_None pluginHeights (length pluginHeights))) by lia.
    reflexivity.
Qed.

Lemma getChildrenSizes_None (e : RenderEngine.t) (pluginHeights : list (option Q)) :
  getChildrenSizes e pluginHeights = None
  <-> (length pluginHeights < length (RenderEngine.children e))%nat.
Proof.
  rewrite getChildrenSizes_eq.
  destruct (panels (RenderEngine.children e) pluginHeights) as [ps|] eqn:Eps; simpl.
  - split; [discriminate|]. intros Hlt. apply panels_None in Hlt. congruence.
  - split; [|reflexivity]. intros _. apply panels_None, Eps.
Qed.

(** The sizes are those of the panels, one for one. *)
Lemma getChildrenSizes_Some (e : RenderEngine.t) (pluginHeights : list (option Q))
    (sizes : list Size) :
  getChildrenSizes e pluginHeights = Some sizes ->
  exists ps,
    panels (RenderEngine.children e) pluginHeights = Some ps
    /\ Stacked 0 sizes
    /\ Forall2 (fun p size =>
                  width size = BasicRenderEngine.width (RenderEngine.base e)
                  /\ height size
                     = newHeight
                         (freeSpacePartOf (BasicRenderEngine.height (RenderEngine.base e)) ps)
                         p.1.1 p.1.2 p.2)
         ps sizes.
Proof.
  rewrite getChildrenSizes_eq. intros Hs.
  destruct (panels (RenderEngine.children e) pluginHeights) as [ps|] eqn:Eps;
    [|discriminate].
  cbn [mbind option_bind] in Hs.
  destruct (sizes_fold (BasicRenderEngine.width (RenderEngine.base e))
              (freeSpacePartOf (BasicRenderEngine.height (RenderEngine.base e)) ps)
              ps 0 []) as (sizes' & Hfold & Hst & HF).
  rewrite Hfold in Hs. cbn [snd app] in Hs. injection Hs as <-.
  exists ps. auto.
Qed.

(** X12: [getChildrenSizes] fails exactly when a panel has no plugin at its
    index.  Otherwise it gives one size per panel, of the root's width; the
    panels are stacked, the first at position 0 and each at the position
    where the one before it ends; a collapsed panel has height 0; and a
    panel that is neither collapsed nor growing has its plugin's height, or
    its own height when it is flexible and has one. *)
Theorem getChildrenSizes_stacked (e : RenderEngine.t) (pluginHeights : list (option Q)) :
  (getChildrenSizes e pluginHeights = None
   <-> (length pluginHeights < length (RenderEngine.children e))%nat)
  /\ forall sizes,
       getChildrenSizes e pluginHeights = Some sizes ->
       length sizes = length (RenderEngine.children e)
       /\ Stacked 0 sizes
       /\ Forall (fun size => width size = BasicRenderEngine.width (RenderEngine.base e))
            sizes
       /\ forall i engine pluginHeight size,
            RenderEngine.children e !! i = Some engine ->
            pluginHeights !! i = Some pluginHeight ->
            sizes !! i = Some size ->
            (OffscreenRenderEngine.collapsed engine = true -> height size = 0)
            /\ (OffscreenRenderEngine.collapsed engine = false ->
                match engineType engine pluginHeight with
                | static => height size = default 0 pluginHeight
                | flexibleStatic =>
                    height size
                    = if Num.eqb (engineHeight engine) 0 then default 0 pluginHeight
                      else engineHeight engine
                | flexibleGrowing => True
                end).
Proof.
  split; [apply getChildrenSizes_None|].
  intros sizes Hs.
  destruct (getChildrenSizes_Some e pluginHeights sizes Hs) as (ps & Eps & Hst & HF).
  destruct (panels_Some _ _ _ Eps) as [Hlen Hlk].
  split; [rewrite <- Hlen; symmetry; eapply Forall2_length, HF|].
  split; [exact Hst|]. split.
  - eapply Forall2_Forall_r; [exact HF|]. apply Forall_forall. intros p _ size [Hw _].
    exact Hw.
  - intros i engine pluginHeight size Hi Hp Hsz.
    destruct (Hlk i engine Hi) as (h & Hh & Hpi).
    rewrite Hp in Hh. injection Hh as <-.
    destruct (Forall2_lookup_lr _ _ _ _ _ _ HF Hpi Hsz) as [_ Hhe].
    rewrite Hhe. simpl. unfold newHeight.
    split; [intros ->; reflexivity|]. intros ->.
    destruct (engineType engine pluginHeight); auto.
Qed.
End LayoutFacts.

(** ** What the layout leaves free *)

Section LayoutSpace.
Import Layout.


Definition isGrowing (p : Panel) : bool :=
  let '(type, _, _) := p in
  match type with flexibleGrowing => true | _ => false end.












End LayoutSpace.


(** ** Resizing *)

Section Resize.
Import Layout.

(** The panels lie one under the other from [p] on. *)
Fixpoint StackedPanels (p : Q) (children : list OffscreenRenderEngine.t) : Prop :=
  match children with
  | [] => True
  | engine :: rest =>
      OffscreenRenderEngine.position engine == p
      /\ StackedPanels (p + engineHeight engine) rest
  end.

Lemma basicResize_size (b : BasicRenderEngine.t) (width' height' : Q) :
  let b' := (basicResize b (Some width') (Some height')).1 in
  BasicRenderEngine.width b' == width'
  /\ BasicRenderEngine.height b' == height'
  /\ BasicRenderEngine.zoom b' = BasicRenderEngine.zoom b
  /\ BasicRenderEngine.positionX b' = BasicRenderEngine.positionX b
  /\ BasicRenderEngine.min b' = BasicRenderEngine.min b
  /\ BasicRenderEngine.max b' = BasicRenderEngine.max b.
Proof.
  unfold basicResize.
  destruct (Num.eqb (BasicRenderEngine.width b) width') eqn:Ew;
    destruct (Num.eqb (BasicRenderEngine.height b) height') eqn:Eh;
    cbn [negb orb fst default from_option BasicRenderEngine.width
         BasicRenderEngine.height BasicRenderEngine.zoom BasicRenderEngine.positionX
         BasicRenderEngine.min BasicRenderEngine.max];
    try apply eqb_eq in Ew; try apply eqb_eq in Eh;
    repeat split; try reflexivity; assumption.
Qed.

Lemma StackedPanels_sizes (children : list OffscreenRenderEngine.t) (sizes : list Size)
    (p p' : Q) :
  Forall2 (fun engine size =>
             OffscreenRenderEngine.position engine = position size
             /\ engineHeight engine == height size) children sizes ->
  Stacked p sizes -> p == p' -> StackedPanels p' children.
Proof.
  intros HF. revert p p'.
  induction HF as [|engine size children sizes [Hp Hh] HF IH]; intros p p' Hst Hpp.
  - exact I.
  - destruct Hst as [Hpos Hst]. split.
    + rewrite Hp, Hpos. exact Hpp.
    + apply (IH (p + height size)); [exact Hst|]. rewrite Hh, Hpp. reflexivity.
Qed.

(** X14: for a chart whose panels have made no engine of their own (one
    without a timeframe selector), [recalcChildrenSizes] fails exactly when
    a panel has no plugin at its index.  Otherwise it leaves the root's own
    fields alone, and gives every panel the root's width and its place in
    the stack: the first panel at position 0, each next one where the one
    before it ends, a collapsed panel with height 0.  A panel keeps its id,
    its flags and its view. *)
Theorem recalcChildrenSizes_panels (e : RenderEngine.t) (pluginHeights : list (option Q)) :
  (recalcChildrenSizes e pluginHeights = None
   <-> (length pluginHeights < length (RenderEngine.children e))%nat)
  /\ forall e' freeSpace,
       recalcChildrenSizes e pluginHeights = Some (e', freeSpace) ->
       RenderEngine.base e' = RenderEngine.base e
       /\ RenderEngine.timeGridAccuracy e' = RenderEngine.timeGridAccuracy e
       /\ StackedPanels 0 (RenderEngine.children e')
       /\ Forall2 (fun engine engine' =>
                     OffscreenRenderEngine.id engine' = OffscreenRenderEngine.id engine
                     /\ OffscreenRenderEngine.flexible engine'
                        = OffscreenRenderEngine.flexible engine
                     /\ OffscreenRenderEngine.collapsed engine'
                        = OffscreenRenderEngine.collapsed engine
                     /\ BasicRenderEngine.zoom (OffscreenRenderEngine.base engine')
                        = BasicRenderEngine.zoom (OffscreenRenderEngine.base engine)
                     /\ BasicRenderEngine.positionX (OffscreenRenderEngine.base engine')
                        = BasicRenderEngine.positionX (OffscreenRenderEngine.base engine)
                     /\ BasicRenderEngine.min (OffscreenRenderEngine.base engine')
                        = BasicRenderEngine.min (OffscreenRenderEngine.base engine)
                     /\ BasicRenderEngine.max (OffscreenRenderEngine.base engine')
                        = BasicRenderEngine.max (OffscreenRenderEngine.base engine)
                     /\ BasicRenderEngine.width (OffscreenRenderEngine.base engine')
                        == BasicRenderEngine.width (RenderEngine.base e)
                     /\ (OffscreenRenderEngine.collapsed engine = true ->
                         engineHeight engine' == 0))
            (RenderEngine.children e) (RenderEngine.children e').
Proof.
  pose proof (getChildrenSizes_None e pluginHeights) as HNone.
  unfold recalcChildrenSizes.
  destruct (getChildrenSizes e pluginHeights) as [sizes|] eqn:Es.
  - destruct (getChildrenSizes_Some e pluginHeights sizes Es) as (ps & Eps & Hst & HF).
    destruct (panels_Some _ _ _ Eps) as [Hlenps Hlkps].
    assert (Hlen : length sizes = length (RenderEngine.children e))
      by (rewrite <- Hlenps; symmetry; eapply Forall2_length, HF).
    assert (Hw : Forall (fun size => width size
                                     = BasicRenderEngine.width (RenderEngine.base e)) sizes).
    { eapply Forall2_Forall_r; [exact HF|]. apply Forall_forall.
      intros p _ size [H _]. exact H. }
    assert (Hh : forall i engine pluginHeight size,
               RenderEngine.children e !! i = Some engine ->
               pluginHeights !! i = Some pluginHeight ->
               sizes !! i = Some size ->
               OffscreenRenderEngine.collapsed engine = true -> height size = 0).
    { intros i engine pluginHeight size Hi Hp Hsz Hcol.
      destruct (Hlkps i engine Hi) as (h & _ & Hpi).
      destruct (Forall2_lookup_lr _ _ _ _ _ _ HF Hpi Hsz) as [_ Hhe].
      rewrite Hhe. cbn [fst snd]. unfold newHeight. rewrite Hcol. reflexivity. }
    cbn [mbind option_bind].
    destruct (mapM _ _) as [children'|] eqn:Em.
    + cbn [mbind option_bind]. split.
      { split; [discriminate|]. intros Hlt. apply HNone in Hlt. discriminate. }
      intros e' freeSpace [= <- _]. cbn [RenderEngine.base RenderEngine.children
                                       RenderEngine.timeGridAccuracy].
      apply imap_lookup_mapM in Em as [Hlen' Hlk].
      assert (Hphl : (length (RenderEngine.children e) <= length pluginHeights)%nat).
      { destruct (Nat.le_gt_cases (length (RenderEngine.children e))
                    (length pluginHeights)) as [H|H]; [exact H|].
        apply HNone in H. discriminate. }
      assert (Hrel : forall i engine engine',
                 RenderEngine.children e !! i = Some engine ->
                 children' !! i = Some engine' ->
                 exists size, sizes !! i = Some size
                              /\ engine' = offscreenResize engine size).
      { intros i engine engine' Hi Hi'.
        destruct (Hlk i engine Hi) as (c & Hc & Hg). cbn beta iota in Hg.
        destruct (sizes !! i) as [size|]; [|discriminate].
        cbn [mbind option_bind] in Hg. exists size. split; [reflexivity|]. congruence. }
      split; [reflexivity|]. split; [reflexivity|]. split.
      * apply (StackedPanels_sizes children' sizes 0 0); [|exact Hst|reflexivity].
        apply Forall2_same_length_lookup_2; [lia|].
        intros i engine' size Hi' Hsz.
        destruct (lookup_lt_is_Some_2 (RenderEngine.children e) i) as [engine Hi].
        { rewrite <- Hlen'. apply lookup_lt_Some in Hi'. exact Hi'. }
        destruct (Hrel i engine engine' Hi Hi') as (size' & Hsz' & ->).
        rewrite Hsz in Hsz'. injection Hsz' as <-.
        split; [reflexivity|]. unfold engineHeight, offscreenResize.
        cbn [OffscreenRenderEngine.base]. apply basicResize_size.
      * apply Forall2_same_length_lookup_2; [lia|].
        intros i engine engine' Hi Hi'.
        destruct (Hrel i engine engine' Hi Hi') as (size & Hsz & ->).
        unfold offscreenResize, engineHeight.
        cbn [OffscreenRenderEngine.base OffscreenRenderEngine.id
             OffscreenRenderEngine.flexible OffscreenRenderEngine.collapsed].
        destruct (basicResize_size (OffscreenRenderEngine.base engine)
                    (width size) (height size)) as (Bw & Bh & Bz & Bx & Bmin & Bmax).
        cbv zeta in Bw, Bh, Bz, Bx, Bmin, Bmax.
        repeat (split; [first [reflexivity | assumption]|]). split.
        -- rewrite Bw. eapply Forall_lookup_1 in Hw; [|exact Hsz]. rewrite Hw. reflexivity.
        -- intros Hcol. rewrite Bh.
           destruct (lookup_lt_is_Some_2 pluginHeights i) as [pluginHeight Hp].
           { apply lookup_lt_Some in Hi. lia. }
           rewrite (Hh i engine pluginHeight size Hi Hp Hsz Hcol). reflexivity.
    + exfalso. apply imap_mapM_None in Em as (i & engine & Hi & Hg).
      cbn beta iota in Hg.
      destruct (sizes !! i) as [size|] eqn:Hsz; [discriminate|].
      apply lookup_ge_None in Hsz. apply lookup_lt_Some in Hi. lia.
  - cbn [mbind option_bind]. split; [|intros e' freeSpace; discriminate].
    split; [intros _; apply HNone; reflexivity | reflexivity].
Qed.

Lemma recalcChildrenSizes_base (e e' : RenderEngine.t) (pluginHeights : list (option Q))
    (freeSpace : Q) :
  recalcChildrenSizes e pluginHeights = Some (e', freeSpace) ->
  RenderEngine.base e' = RenderEngine.base e
  /\ RenderEngine.timeGridAccuracy e' = RenderEngine.timeGridAccuracy e.
Proof.
  unfold recalcChildrenSizes. intros Hr.
  destruct (getChildrenSizes e pluginHeights) as [sizes|]; [|discriminate].
  cbn [mbind option_bind] in Hr.
  destruct (mapM _ _) as [children'|]; [|discriminate].
  cbn [mbind option_bind] in Hr. injection Hr as <- _. split; reflexivity.
Qed.

(** X15: [resize] gives the root the new width and height and keeps its
    extent and the accuracy of its time grid; and unless that accuracy has
    reached [MAX_ACCURACY], the zoom it leaves is at least the initial zoom
    of the new width. *)
Theorem resize_zoom_floor (e e' : RenderEngine.t) (pluginHeights : list (option Q))
    (width' height' freeSpace : Q) :
  resize e pluginHeights width' height' = Some (e', freeSpace) ->
  BasicRenderEngine.width (basic e') == width'
  /\ BasicRenderEngine.height (basic e') == height'
  /\ BasicRenderEngine.min (basic e') = BasicRenderEngine.min (basic e)
  /\ BasicRenderEngine.max (basic e') = BasicRenderEngine.max (basic e)
  /\ RenderEngine.timeGridAccuracy e' = RenderEngine.timeGridAccuracy e
  /\ ((RenderEngine.timeGridAccuracy e < MAX_ACCURACY)%Z ->
      BasicRenderEngine.getInitialZoom (basic e') <= BasicRenderEngine.zoom (basic e')).
Proof.
  unfold resize. intros Hr.
  destruct (recalcChildrenSizes _ pluginHeights) as [[e2 fs]|] eqn:Er; [|discriminate].
  cbn [mbind option_bind] in Hr. injection Hr as <- _.
  destruct (recalcChildrenSizes_base _ _ _ _ Er) as [Hb Ha].
  cbn [RenderEngine.base RenderEngine.timeGridAccuracy] in Hb, Ha.
  destruct (basicResize_size (RenderEngine.base e) width' height')
    as (Bw & Bh & Bz & Bx & Bmin & Bmax).
  cbv zeta in Bw, Bh, Bz, Bx, Bmin, Bmax.
  assert (Hbasic : basic e2 = (basicResize (RenderEngine.base e) (Some width') (Some height')).1)
    by exact Hb.
  change (RenderEngine.base e2) with (basic e2).
  match goal with
  | |- context [if ?c then resetView e2 else _] => destruct c eqn:Eg
  end.
  - cbv beta iota zeta.
    destruct (resetView_basic e2) as (_ & Rmin & Rmax & Rw & Rz & _).
    assert (Rh : BasicRenderEngine.height (basic (resetView e2))
                 = BasicRenderEngine.height (basic e2)).
    { unfold resetView. simpl. unfold RenderEngine.setZoom.
      destruct (_ || _); reflexivity. }
    assert (Ra : RenderEngine.timeGridAccuracy (resetView e2)
                 = RenderEngine.timeGridAccuracy e2).
    { unfold resetView. simpl. unfold RenderEngine.setZoom.
      destruct (_ || _); reflexivity. }
    rewrite Rw, Rh, Rmin, Rmax, Ra, Hbasic, Ha.
    repeat (split; [assumption|]). split; [reflexivity|].
    intros Hacc.
    assert (Hz : BasicRenderEngine.zoom (basic (resetView e2))
                 = BasicRenderEngine.getInitialZoom (basic e2)).
    { apply Rz. apply setZoom_condition. left. unfold RenderEngine.getAccuracy.
      rewrite Ha. exact Hacc. }
    rewrite Hz. unfold BasicRenderEngine.getInitialZoom. rewrite Rw, Rmin, Rmax.
    apply Qle_refl.
  - cbv beta iota zeta. apply gtb_le in Eg.
    assert (Hframe : forall d,
               BasicRenderEngine.width (basic (tryToChangePosition e2 d)) == width'
               /\ BasicRenderEngine.height (basic (tryToChangePosition e2 d)) == height'
               /\ BasicRenderEngine.min (basic (tryToChangePosition e2 d))
                  = BasicRenderEngine.min (basic e)
               /\ BasicRenderEngine.max (basic (tryToChangePosition e2 d))
                  = BasicRenderEngine.max (basic e)
               /\ RenderEngine.timeGridAccuracy (tryToChangePosition e2 d)
                  = RenderEngine.timeGridAccuracy e
               /\ ((RenderEngine.timeGridAccuracy e < MAX_ACCURACY)%Z ->
                   BasicRenderEngine.getInitialZoom (basic (tryToChangePosition e2 d))
                   <= BasicRenderEngine.zoom (basic (tryToChangePosition e2 d)))).
    { intros d.
      destruct (tryToChangePosition_frame e2 d) as (Tw & Tz & Tmin & Tmax & Th).
      cbv zeta in Tw, Tz, Tmin, Tmax, Th.
      rewrite tryToChangePosition_initialZoom, Tw, Th, Tz, Tmin, Tmax, Hbasic.
      repeat (split; [assumption|]). split.
      - rewrite <- Ha. unfold tryToChangePosition.
        destruct (_ && _); [|destruct (Num.leb _ _); [|destruct (Num.geb _ _)]];
          reflexivity.
      - intros _. rewrite <- Hbasic. exact Eg. }
    destruct (Num.gtb (BasicRenderEngine.positionX (basic e2))
                (BasicRenderEngine.min (basic e2))); [apply Hframe|].
    rewrite Hbasic. repeat (split; [assumption|]).
    intros _. rewrite <- Hbasic. exact Eg.
Qed.
End Resize.

Lemma resize_zoom_floor_witness :
  match Layout.resize demo_engine [Some 20; None] 200 50 with
  | Some (e', _) =>
      BasicRenderEngine.width (basic e') == 200
      /\ BasicRenderEngine.getInitialZoom (basic e') <= BasicRenderEngine.zoom (basic e')
  | None => False
  end.
Proof.
  destruct (Layout.resize demo_engine [Some 20; None] 200 50) as [[e' freeSpace]|] eqn:E;
    [|vm_compute in E; discriminate].
  destruct (resize_zoom_floor demo_engine e' [Some 20; None] 200 50 freeSpace E)
    as (Hw & _ & _ & _ & _ & Hz).
  split; [exact Hw|]. apply Hz. reflexivity.
Defined.

(** ** The panel under the pointer *)

Section Hovered.
Import Layout.
Context {D : Type}.

Lemma findIndex_Some {A} (f : A -> bool) (l : list A) (n i : nat) (a : A) :
  InteractionsEngine.findIndex f l n = Some (i, a) ->
  (n <= i)%nat /\ l !! (i - n)%nat = Some a /\ f a = true
  /\ forall j b, (j < i - n)%nat -> l !! j = Some b -> f b = false.
Proof.
  revert n. induction l as [|x l IH]; intros n Hf; simpl in Hf; [discriminate|].
  destruct (f x) eqn:Ex.
  - injection Hf as <- <-. rewrite Nat.sub_diag. repeat split; auto. intros j b Hj. lia.
  - destruct (IH (S n) Hf) as (Hle & Hlk & Hfa & Hbefore).
    split; [lia|]. replace (i - n)%nat with (S (i - S n)) by lia.
    split; [exact Hlk|]. split; [exact Hfa|].
    intros [|j] b Hj Hb; simpl in Hb.
    + injection Hb as <-. exact Ex.
    + apply (Hbefore j b); [lia | exact Hb].
Qed.

Lemma findIndex_None {A} (f : A -> bool) (l : list A) (n : nat) :
  InteractionsEngine.findIndex f l n = None -> Forall (fun a => f a = false) l.
Proof.
  revert n. induction l as [|x l IH]; intros n Hf; simpl in Hf; [constructor|].
  destruct (f x) eqn:Ex; [discriminate|]. constructor; [exact Ex | apply (IH _ Hf)].
Qed.

Lemma StackedPanels_order (children : list OffscreenRenderEngine.t) (p : Q)
    (i d : nat) (a b : OffscreenRenderEngine.t) :
  StackedPanels p children ->
  Forall (fun engine => 0 <= engineHeight engine) children ->
  children !! i = Some a -> children !! (i + S d)%nat = Some b ->
  OffscreenRenderEngine.position a + engineHeight a <= OffscreenRenderEngine.position b.
Proof.
  revert p i. induction children as [|c children IH]; intros p i Hst Hh Ha Hb;
    [discriminate|].
  destruct Hst as [Hp Hst]. apply Forall_cons in Hh as [Hc Hh].
  destruct i as [|i]; simpl in Ha, Hb.
  - injection Ha as <-. clear IH.
    assert (Hfrom : forall q l j, StackedPanels q l ->
                      Forall (fun engine => 0 <= engineHeight engine) l ->
                      l !! j = Some b -> q <= OffscreenRenderEngine.position b).
    { intros q l. revert q. induction l as [|x l IHl]; intros q j Hq Hl Hj;
        [discriminate|].
      destruct Hq as [Hx Hq]. apply Forall_cons in Hl as [Hx0 Hl].
      destruct j as [|j]; simpl in Hj.
      - injection Hj as <-. rewrite Hx. apply Qle_refl.
      - specialize (IHl _ _ Hq Hl Hj). lra. }
    specialize (Hfrom _ _ _ Hst Hh Hb). rewrite Hp. exact Hfrom.
  - apply (IH _ i Hst Hh Ha Hb).
Qed.

(** In a stack of panels, a point strictly inside one panel is in no other,
    not even on its edge. *)
Lemma StackedPanels_disjoint (children : list OffscreenRenderEngine.t) (p y : Q)
    (j k : nat) (cj ck : OffscreenRenderEngine.t) :
  StackedPanels p children ->
  Forall (fun engine => 0 <= engineHeight engine) children ->
  children !! j = Some cj -> children !! k = Some ck -> j <> k ->
  OffscreenRenderEngine.position cj < y ->
  y < OffscreenRenderEngine.position cj + engineHeight cj ->
  ~ (OffscreenRenderEngine.position ck <= y
     /\ y <= OffscreenRenderEngine.position ck + engineHeight ck).
Proof.
  intros Hst Hh Hj Hk Hjk Hlo Hhi [H1 H2].
  destruct (Nat.lt_total j k) as [Hlt|[Heq|Hgt]]; [|contradiction|].
  - replace k with (j + S (k - j - 1))%nat in Hk by lia.
    pose proof (StackedPanels_order _ _ _ _ _ _ Hst Hh Hj Hk). lra.
  - replace j with (k + S (j - k - 1))%nat in Hj by lia.
    pose proof (StackedPanels_order _ _ _ _ _ _ Hst Hh Hk Hj). lra.
Qed.

(** X16: with the panels stacked, the pointer strictly inside panel [j] and
    on no region of the root, [getHoveredRegion] makes the first instance
    that draws on panel [j] the hovered instance and looks the region up
    among that instance's regions, moved down by the panel's position; when
    no instance draws on panel [j] nothing is hovered. *)
Theorem hovered_instance_panel (s : InteractionsEngine.t D) (j : nat)
    (panel : OffscreenRenderEngine.t) :
  let children := RenderEngine.children (InteractionsEngine.renderEngine s) in
  let y := Mouse.y (InteractionsEngine.mouse s) in
  StackedPanels 0 children ->
  Forall (fun engine => 0 <= engineHeight engine) children ->
  children !! j = Some panel ->
  OffscreenRenderEngine.position panel < y ->
  y < OffscreenRenderEngine.position panel + engineHeight panel ->
  Forall (fun instance =>
            is_Some (children !! SeparatedInteractionsEngine.renderEngine instance))
    (InteractionsEngine.instances s) ->
  List.find (InteractionsEngine.rootRegionContains (InteractionsEngine.mouse s))
    (InteractionsEngine.hitRegions s) = None ->
  let s' := (InteractionsEngine.getHoveredRegion s).1 in
  let found := (InteractionsEngine.getHoveredRegion s).2 in
  match InteractionsEngine.hoveredInstance s' with
  | Some i =>
      exists instance,
        InteractionsEngine.instances s !! i = Some instance
        /\ SeparatedInteractionsEngine.renderEngine instance = j
        /\ (forall i' instance',
              (i' < i)%nat -> InteractionsEngine.instances s !! i' = Some instance' ->
              SeparatedInteractionsEngine.renderEngine instance' <> j)
        /\ found
           = List.find (InteractionsEngine.regionContains (InteractionsEngine.mouse s)
                          (OffscreenRenderEngine.position panel))
               (SeparatedInteractionsEngine.hitRegions instance)
  | None =>
      found = None
      /\ Forall (fun instance => SeparatedInteractionsEngine.renderEngine instance <> j)
           (InteractionsEngine.instances s)
  end.
Proof.
  intros children y Hst Hh Hj Hlo Hhi Hvalid Hroot.
  assert (Hcontains : forall instance,
             In instance (InteractionsEngine.instances s) ->
             (InteractionsEngine.instanceContains s instance = true
              <-> SeparatedInteractionsEngine.renderEngine instance = j)).
  { intros instance Hin.
    eapply Forall_forall in Hvalid as [engine He]; [|apply list_elem_of_In; exact Hin].
    unfold InteractionsEngine.instanceContains, InteractionsEngine.panelOf.
    fold children. split.
    - rewrite He. intros Hc. apply andb_true_iff in Hc as [H1 H2].
      apply leb_le in H1. apply geb_ge in H2.
      destruct (Nat.eq_dec (SeparatedInteractionsEngine.renderEngine instance) j)
        as [E|N]; [exact E|]. exfalso.
      apply (StackedPanels_disjoint children 0 y j _ panel engine Hst Hh Hj He);
        [congruence | exact Hlo | exact Hhi|].
      fold y in H1, H2. unfold engineHeight. split; lra.
    - intros ->. rewrite Hj. apply andb_true_iff. split.
      + apply leb_le. fold y. lra.
      + apply geb_ge. fold y. unfold engineHeight in Hhi. lra. }
  unfold InteractionsEngine.getHoveredRegion. rewrite Hroot.
  destruct (InteractionsEngine.findIndex _ _ _) as [[i instance]|] eqn:Ef; cbn [fst snd].
  - apply findIndex_Some in Ef as (_ & Hlk & Hc & Hbefore).
    rewrite Nat.sub_0_r in Hlk, Hbefore.
    cbn [InteractionsEngine.hoveredInstance InteractionsEngine.setHoveredInstance].
    assert (Hin : In instance (InteractionsEngine.instances s)).
    { apply list_elem_of_In. eapply list_elem_of_lookup_2, Hlk. }
    pose proof (proj1 (Hcontains instance Hin) Hc) as Hr.
    exists instance. split; [exact Hlk|]. split; [exact Hr|]. split.
    + intros i' instance' Hi' Hlk' Hr'.
      assert (Hin' : In instance' (InteractionsEngine.instances s)).
      { apply list_elem_of_In. eapply list_elem_of_lookup_2, Hlk'. }
      apply (Hcontains instance' Hin') in Hr'.
      rewrite (Hbefore i' instance' Hi' Hlk') in Hr'. discriminate.
    + unfold InteractionsEngine.panelOf. fold children. rewrite Hr, Hj. reflexivity.
  - cbn [InteractionsEngine.hoveredInstance InteractionsEngine.setHoveredInstance].
    split; [reflexivity|]. apply findIndex_None in Ef.
    apply Forall_forall. intros instance Hin Hr.
    eapply Forall_forall in Ef; [|exact Hin].
    apply list_elem_of_In in Hin. apply (Hcontains instance Hin) in Hr. congruence.
Qed.
End Hovered.

(** A pointer in the second panel of the engine above, with one instance
    and one region on each panel. *)
Definition demo_region (id : nat) : HitRegion.t string :=
  {| HitRegion.type := CLUSTER; HitRegion.data := "node"%string;
     HitRegion.x := 0; HitRegion.y := 0; HitRegion.w := 100; HitRegion.h := 20;
     HitRegion.cursor := None; HitRegion.id := Some id |}.

Definition demo_instance (id : nat) : SeparatedInteractionsEngine.t string :=
  {| SeparatedInteractionsEngine.id := id;
     SeparatedInteractionsEngine.renderEngine := id;
     SeparatedInteractionsEngine.hitRegions := [demo_region id] |}.

Definition demo_hover_state : InteractionsEngine.t string :=
  {| InteractionsEngine.renderEngine := demo_engine;
     InteractionsEngine.hitRegions := [];
     InteractionsEngine.instances := [demo_instance 0; demo_instance 1];
     InteractionsEngine.mouse := {| Mouse.x := 50; Mouse.y := 60 |};
     InteractionsEngine.selectedRegion := None;
     InteractionsEngine.hoveredRegion := None;
     InteractionsEngine.hoveredInstance := None;
     InteractionsEngine.moveActive := false;
     InteractionsEngine.currentCursor := None;
     InteractionsEngine.canvasCursor := None |}.

Lemma hovered_instance_panel_witness :
  exists instance,
    InteractionsEngine.instances demo_hover_state !! 1%nat = Some instance
    /\ SeparatedInteractionsEngine.renderEngine instance = 1%nat
    /\ (InteractionsEngine.getHoveredRegion demo_hover_state).2 = Some (demo_region 1).
Proof.
  assert (Hst : StackedPanels 0 (RenderEngine.children demo_engine))
    by (repeat split; reflexivity).
  assert (Hh : Forall (fun engine => 0 <= Layout.engineHeight engine)
                 (RenderEngine.children demo_engine))
    by (repeat constructor; discriminate).
  assert (Hv : Forall (fun instance =>
                         is_Some (RenderEngine.children demo_engine
                                    !! SeparatedInteractionsEngine.renderEngine instance))
                 (InteractionsEngine.instances demo_hover_state))
    by (repeat constructor; eexists; reflexivity).
  pose proof (hovered_instance_panel demo_hover_state 1 (demo_panel 50 1)
                Hst Hh eq_refl eq_refl eq_refl Hv eq_refl) as H.
  cbv zeta in H.
  change (InteractionsEngine.hoveredInstance
            (InteractionsEngine.getHoveredRegion demo_hover_state).1)
    with (Some 1%nat) in H.
  destruct H as (instance & Hi & Hr & _ & Hf).
  exists instance. split; [exact Hi|]. split; [exact Hr|].
  rewrite Hf. injection Hi as <-. reflexivity.
Defined.

(** ** The search in a series *)

Section Search.
Import ChartSearch.

Lemma Qceiling_half (z : Z) : Qceiling (inject_Z z / 2) = ((z + 1) / 2)%Z.
Proof.
  unfold Qceiling, Qfloor, Qdiv, Qmult, Qinv, Qopp, inject_Z. simpl.
  rewrite Z.mul_1_r. Z.to_euclidean_division_equations. lia.
Qed.

Lemma at_Some (array : list Point) (i : Z) :
  (0 <= i < Z.of_nat (length array))%Z -> exists p, at_ array i = Some p /\ In p array.
Proof.
  intros Hi. unfold at_.
  destruct (Z.ltb_spec i 0) as [H|_]; [lia|].
  destruct (lookup_lt_is_Some_2 array (Z.to_nat i)) as [p Hp]; [lia|].
  exists p. split; [exact Hp|]. apply list_elem_of_In. eapply list_elem_of_lookup_2, Hp.
Qed.

(** The time of the point at an index. *)
Definition timeAt (array : list Point) (i : Z) : Q :=
  match at_ array i with Some p => p.1 | None => 0 end.

(** The loop reads inside the array and stops within [end - start + 1]
    iterations, whatever the order of the points. *)
Lemma search_safe (array : list Point) (value : Q) (fuel : nat) (start end' : Z) :
  (0 <= start)%Z -> (end' < Z.of_nat (length array))%Z ->
  (start = 0%Z -> timeAt array 0 < value /\ end' <> 0%Z) ->
  (end' - start + 1 <= Z.of_nat fuel)%Z ->
  exists r, search fuel array value start end' = Return r
            /\ forall p, r = Some p -> In p array.
Proof.
  revert start end'. induction fuel as [|fuel IH]; intros start end' Hs He H0 Hfuel.
  - simpl. destruct (Z.leb_spec start end') as [Hle|_]; [lia|].
    exists None. split; [reflexivity | discriminate].
  - cbn [search]. destruct (Z.leb_spec start end') as [Hle|_];
      [|exists None; split; [reflexivity | discriminate]].
    rewrite Qceiling_half. set (mid := ((end' + start + 1) / 2)%Z).
    assert (Hmid : (start <= mid <= end')%Z)
      by (unfold mid; Z.to_euclidean_division_equations; lia).
    assert (Hmid1 : (1 <= mid)%Z).
    { destruct (Z.eq_dec start 0%Z) as [E|N].
      - destruct (H0 E) as [_ Hend]. unfold mid.
        Z.to_euclidean_division_equations; lia.
      - lia. }
    destruct (at_Some array (mid - 1)) as (before & Hb & Hinb); [lia|].
    destruct (at_Some array mid) as (at_mid & Hm & Hinm); [lia|].
    rewrite Hb, Hm.
    destruct (Num.geb value before.1 && Num.leb value at_mid.1) eqn:Ec.
    { eexists. split; [reflexivity|]. intros p [= <-].
      destruct (Num.ltb _ _); assumption. }
    destruct (Num.ltb at_mid.1 value) eqn:El.
    + apply IH; try lia.
    + apply IH; try lia. intros ->.
      destruct (H0 eq_refl) as [Hfirst Hend]. split; [exact Hfirst|].
      intros Hm1. assert (mid = 1)%Z by lia.
      apply ltb_ge in El. apply andb_false_iff in Ec.
      unfold timeAt in Hfirst.
      replace (mid - 1)%Z with 0%Z in Hb by lia. rewrite Hb in Hfirst.
      destruct Ec as [Ec|Ec].
      * apply geb_lt in Ec. lra.
      * apply leb_gt in Ec. lra.
Qed.

(** X17: on a series with at least one point the search, started with as
    many iterations as there are points, comes to a result: it reads no
    absent point and its loop ends, whatever the order of the points; and
    a point it returns is a point of the series.  On the empty series the
    first read is a [TypeError]. *)
Theorem chartPointsBinarySearch_safe (array : list Point) (value : Q) (outside : bool) :
  (array = [] -> chartPointsBinarySearch array value outside = TypeError)
  /\ (array <> [] ->
      exists r, chartPointsBinarySearch array value outside = Return r
                /\ forall p, r = Some p -> In p array).
Proof.
  split; [intros ->; reflexivity|]. intros Hne.
  unfold chartPointsBinarySearch.
  destruct (at_Some array 0) as (first & Hf & Hinf).
  { destruct array; [contradiction | simpl; lia]. }
  rewrite Hf.
  destruct (Num.geb first.1 value) eqn:E1.
  { eexists. split; [reflexivity|]. intros p. destruct outside; [|discriminate].
    intros [= <-]. exact Hinf. }
  destruct (last_inv array) as [[-> _]|(l' & x & Hl & Hlast)]; [contradiction|].
  rewrite Hlast.
  assert (Hinx : In x array) by (rewrite Hl; apply in_or_app; right; left; reflexivity).
  destruct (Num.leb x.1 value) eqn:E2.
  { eexists. split; [reflexivity|]. intros p. destruct outside; [|discriminate].
    intros [= <-]. exact Hinx. }
  destruct (Nat.leb_spec (length array) 1) as [Hn|Hn].
  { eexists. split; [reflexivity|]. intros p [= <-]. exact Hinf. }
  apply search_safe; try lia.
  intros _. split; [|lia]. unfold timeAt. rewrite Hf. apply geb_lt in E1. exact E1.
Qed.

Lemma sorted_lookup (array : list Point) (i j : nat) (p q : Point) :
  StronglySorted (fun p q : Point => p.1 <= q.1) array ->
  array !! i = Some p -> array !! j = Some q -> (i <= j)%nat -> p.1 <= q.1.
Proof.
  intros Hs. revert i j p q. induction Hs as [|a l Hs IH Ha]; intros i j p q Hi Hj Hij;
    [discriminate|].
  destruct i as [|i], j as [|j]; simpl in Hi, Hj; try lia.
  - injection Hi as <-. injection Hj as <-. apply Qle_refl.
  - injection Hi as <-. eapply (proj1 (Forall_forall _ _)) in Ha; [exact Ha|].
    eapply list_elem_of_lookup_2, Hj.
  - apply (IH i j p q Hi Hj). lia.
Qed.

Lemma sorted_timeAt (array : list Point) (i j : Z) :
  StronglySorted (fun p q : Point => p.1 <= q.1) array ->
  (0 <= i <= j)%Z -> (j < Z.of_nat (length array))%Z ->
  timeAt array i <= timeAt array j.
Proof.
  intros Hs Hij Hj. unfold timeAt, at_.
  destruct (Z.ltb_spec i 0) as [H|_]; [lia|].
  destruct (Z.ltb_spec j 0) as [H|_]; [lia|].
  destruct (lookup_lt_is_Some_2 array (Z.to_nat i)) as [p Hp]; [lia|].
  destruct (lookup_lt_is_Some_2 array (Z.to_nat j)) as [q Hq]; [lia|].
  rewrite Hp, Hq. apply (sorted_lookup array _ _ p q Hs Hp Hq). lia.
Qed.

Lemma In_timeAt (array : list Point) (q : Point) :
  In q array -> exists i, (0 <= i < Z.of_nat (length array))%Z /\ timeAt array i = q.1.
Proof.
  intros Hin. apply list_elem_of_In, list_elem_of_lookup_1 in Hin as [i Hi].
  exists (Z.of_nat i). pose proof (lookup_lt_Some _ _ _ Hi). split; [lia|].
  unfold timeAt, at_. destruct (Z.ltb_spec (Z.of_nat i) 0) as [H'|_]; [lia|].
  rewrite Nat2Z.id, Hi. reflexivity.
Qed.

Lemma abs_below (v a q : Q) : q <= a -> a <= v -> Qabs (v - a) <= Qabs (v - q).
Proof.
  intros H1 H2. rewrite (Qabs_pos (v - a)) by lra. rewrite (Qabs_pos (v - q)) by lra. lra.
Qed.

Lemma abs_above (v a q : Q) : v <= a -> a <= q -> Qabs (v - a) <= Qabs (v - q).
Proof.
  intros H1 H2. rewrite (Qabs_neg (v - a)) by lra. rewrite (Qabs_neg (v - q)) by lra. lra.
Qed.

(** A point of the series at the least distance in time from [value]. *)
Definition nearest (array : list Point) (value : Q) (p : Point) : Prop :=
  In p array /\ forall q, In q array -> Qabs (value - p.1) <= Qabs (value - q.1).

(** On a series in the order of time, the loop keeps [value] between what
    is left of [start] and what is right of [end], and ends on a nearest
    point. *)
Lemma search_sorted (array : list Point) (value : Q) (fuel : nat) (start end' : Z) :
  StronglySorted (fun p q : Point => p.1 <= q.1) array ->
  (0 <= start)%Z -> (0 <= end' < Z.of_nat (length array))%Z ->
  timeAt array 0 < value ->
  (forall i, (0 <= i < start)%Z -> timeAt array i < value) ->
  (forall i, (end' <= i < Z.of_nat (length array))%Z -> value < timeAt array i) ->
  (end' - start + 1 <= Z.of_nat fuel)%Z ->
  exists p, search fuel array value start end' = Return (Some p)
            /\ nearest array value p.
Proof.
  intros Hsorted. revert start end'.
  induction fuel as [|fuel IH]; intros start end' Hs He H0 Hlo Hhi Hfuel.
  - exfalso. assert (end' < start)%Z by lia.
    specialize (Hlo end' ltac:(lia)). specialize (Hhi end' ltac:(lia)). lra.
  - cbn [search]. destruct (Z.leb_spec start end') as [Hle|Hgt].
    2:{ exfalso. specialize (Hlo end' ltac:(lia)). specialize (Hhi end' ltac:(lia)). lra. }
    rewrite Qceiling_half. set (mid := ((end' + start + 1) / 2)%Z).
    assert (Hmid : (start <= mid <= end')%Z)
      by (unfold mid; Z.to_euclidean_division_equations; lia).
    assert (Hend : (end' <> 0)%Z).
    { intros ->. specialize (Hhi 0%Z ltac:(lia)). lra. }
    assert (Hmid1 : (1 <= mid)%Z)
      by (unfold mid; Z.to_euclidean_division_equations; lia).
    destruct (at_Some array (mid - 1)) as (before & Hb & Hinb); [lia|].
    destruct (at_Some array mid) as (at_mid & Hm & Hinm); [lia|].
    rewrite Hb, Hm.
    assert (Tb : timeAt array (mid - 1) = before.1) by (unfold timeAt; rewrite Hb; reflexivity).
    assert (Tm : timeAt array mid = at_mid.1) by (unfold timeAt; rewrite Hm; reflexivity).
    destruct (Num.geb value before.1 && Num.leb value at_mid.1) eqn:Ec.
    { apply andb_true_iff in Ec as [Ec1 Ec2]. apply geb_ge in Ec1. apply leb_le in Ec2.
      eexists. split; [reflexivity|].
      assert (Hbelow : forall q, In q array ->
                 Qabs (value - before.1) <= Qabs (value - q.1)
                 \/ Qabs (value - at_mid.1) <= Qabs (value - q.1)).
      { intros q Hq. apply In_timeAt in Hq as (i & Hi & <-).
        destruct (Z.le_gt_cases i (mid - 1)) as [Hc|Hc].
        - left. apply abs_below; [|exact Ec1]. rewrite <- Tb.
          apply sorted_timeAt; [exact Hsorted | lia | lia].
        - right. apply abs_above; [exact Ec2|]. rewrite <- Tm.
          apply sorted_timeAt; [exact Hsorted | lia | lia]. }
      destruct (Num.ltb (Qabs (value - before.1)) (Qabs (value - at_mid.1))) eqn:Ea.
      - apply ltb_lt in Ea. split; [exact Hinb|]. intros q Hq.
        destruct (Hbelow q Hq) as [H|H]; lra.
      - apply ltb_ge in Ea. split; [exact Hinm|]. intros q Hq.
        destruct (Hbelow q Hq) as [H|H]; lra. }
    apply andb_false_iff in Ec.
    destruct (Num.ltb at_mid.1 value) eqn:El.
    + apply ltb_lt in El.
      assert (mid < end')%Z.
      { destruct (Z.eq_dec mid end') as [E|N]; [|lia].
        specialize (Hhi mid ltac:(lia)). rewrite Tm in Hhi. lra. }
      apply IH; try lia; [exact H0| |].
      * intros i Hi. apply Qle_lt_trans with (timeAt array mid); [|rewrite Tm; exact El].
        apply sorted_timeAt; [exact Hsorted | lia | lia].
      * intros i Hi. apply Hhi. lia.
    + apply ltb_ge in El.
      assert (Hb' : value < before.1).
      { destruct Ec as [Ec|Ec]; [apply geb_lt in Ec; exact Ec|].
        apply leb_gt in Ec. lra. }
      apply IH; try lia; [exact H0| |].
      * intros i Hi. apply Hlo. lia.
      * intros i Hi. apply Qlt_le_trans with (timeAt array (mid - 1)); [rewrite Tb; exact Hb'|].
        apply sorted_timeAt; [exact Hsorted | lia | lia].
Qed.

(** X18: on a series in the order of time the search gives a point of the
    series nearest in time to [value]; only with [outside] off does it give
    [null], exactly when [value] is not strictly between the first and the
    last time. *)
Theorem chartPointsBinarySearch_nearest (array : list Point) (value : Q)
    (outside : bool) (first last' : Point) :
  StronglySorted (fun p q : Point => p.1 <= q.1) array ->
  array !! 0%nat = Some first -> last array = Some last' ->
  exists r,
    chartPointsBinarySearch array value outside = Return r
    /\ (r = None <-> outside = false /\ (value <= first.1 \/ last'.1 <= value))
    /\ forall p, r = Some p -> nearest array value p.
Proof.
  intros Hsorted Hfirst Hlast. unfold chartPointsBinarySearch.
  assert (Hf : at_ array 0 = Some first) by exact Hfirst.
  rewrite Hf, Hlast.
  assert (Hinf : In first array)
    by (apply list_elem_of_In; eapply list_elem_of_lookup_2, Hfirst).
  assert (Hinl : In last' array)
    by (apply list_elem_of_In; eapply list_elem_of_lookup_2, Hlast).
  assert (Hn : (0 < length array)%nat) by (apply lookup_lt_Some in Hfirst; exact Hfirst).
  assert (Tf : timeAt array 0 = first.1) by (unfold timeAt; rewrite Hf; reflexivity).
  assert (Tl : timeAt array (Z.of_nat (length array) - 1) = last'.1).
  { unfold timeAt, at_. destruct (Z.ltb_spec (Z.of_nat (length array) - 1) 0) as [H|_]; [lia|].
    replace (Z.to_nat (Z.of_nat (length array) - 1)) with (length array - 1)%nat by lia.
    unfold last in Hlast. rewrite Hlast. reflexivity. }
  assert (Hall : forall q, In q array -> first.1 <= q.1 /\ q.1 <= last'.1).
  { intros q Hq. apply In_timeAt in Hq as (i & Hi & <-). rewrite <- Tf, <- Tl.
    split; apply sorted_timeAt; try exact Hsorted; lia. }
  destruct (Num.geb first.1 value) eqn:E1.
  { apply geb_ge in E1. eexists. split; [reflexivity|]. split.
    - destruct outside; split; try discriminate; auto. intros [H _]. discriminate.
    - intros p. destruct outside; [|discriminate]. intros [= <-].
      split; [exact Hinf|]. intros q Hq. apply abs_above; [exact E1 | apply Hall, Hq]. }
  apply geb_lt in E1.
  destruct (Num.leb last'.1 value) eqn:E2.
  { apply leb_le in E2. eexists. split; [reflexivity|]. split.
    - destruct outside; split; try discriminate; auto. intros [H _]. discriminate.
    - intros p. destruct outside; [|discriminate]. intros [= <-].
      split; [exact Hinl|]. intros q Hq. apply abs_below; [apply Hall, Hq | exact E2]. }
  apply leb_gt in E2.
  destruct (Nat.leb_spec (length array) 1) as [H1|H1].
  { exfalso. assert (length array = 1)%nat by lia.
    unfold last in Hlast. replace (length array - 1)%nat with 0%nat in Hlast by lia.
    rewrite Hfirst in Hlast. injection Hlast as <-. lra. }
  assert (Hlo : forall i, (0 <= i < 0)%Z -> timeAt array i < value)
    by (intros i Hi; exfalso; lia).
  assert (Hhi : forall i, (Z.of_nat (length array) - 1 <= i < Z.of_nat (length array))%Z ->
                  value < timeAt array i).
  { intros i Hi. apply Qlt_le_trans with (timeAt array (Z.of_nat (length array) - 1));
      [rewrite Tl; exact E2|].
    apply sorted_timeAt; [exact Hsorted | lia | lia]. }
  assert (H0 : timeAt array 0 < value) by (rewrite Tf; exact E1).
  destruct (search_sorted array value (length array) 0 (Z.of_nat (length array) - 1)
              Hsorted ltac:(lia) ltac:(lia) H0 Hlo Hhi ltac:(lia)) as (p & Hp & Hnear).
  - exists (Some p). split; [exact Hp|]. split.
    + split; [discriminate|]. intros [_ [H|H]]; lra.
    + intros p' [= <-]. exact Hnear.
Qed.
End Search.

Lemma chartPointsBinarySearch_nearest_witness :
  ChartSearch.chartPointsBinarySearch [(0, 5); (10, 6); (20, 7); (30, 8)] 17 true
  = ChartSearch.Return (Some (20, 7)).
Proof.
  destruct (chartPointsBinarySearch_nearest [(0, 5); (10, 6); (20, 7); (30, 8)] 17 true
              (0, 5) (30, 8)) as (r & Hr & _ & _).
  - repeat constructor; discriminate.
  - reflexivity.
  - reflexivity.
  - rewrite Hr. vm_compute in Hr. injection Hr as <-. reflexivity.
Defined.

(** ** The extent of the chart *)

Section Extent.

Lemma fold_Math_min (l : list Q) (x : Q) :
  let m := fold_left Math_min l x in
  In m (x :: l) /\ Forall (fun y => m <= y) (x :: l).
Proof.
  revert x. induction l as [|y l IH]; intros x; cbn [fold_left].
  - split; [left; reflexivity|]. repeat constructor. apply Qle_refl.
  - destruct (IH (Math_min x y)) as [Hin Hle]. cbv zeta in Hin, Hle.
    apply Forall_cons in Hle as [Hm Hle].
    set (m := fold_left Math_min l (Math_min x y)) in *.
    assert (Hxy : Math_min x y <= x /\ Math_min x y <= y
                  /\ (Math_min x y = x \/ Math_min x y = y)).
    { unfold Math_min. destruct (Num.leb x y) eqn:E;
        [apply leb_le in E | apply leb_gt in E]; repeat split; auto; lra. }
    destruct Hxy as (H1 & H2 & H3). split.
    + destruct Hin as [Hin|Hin]; [|right; right; exact Hin].
      rewrite <- Hin. destruct H3 as [->| ->]; [left | right; left]; reflexivity.
    + repeat (apply Forall_cons; split); [lra | lra | exact Hle].
Qed.

Lemma fold_Math_max (l : list Q) (x : Q) :
  let m := fold_left Math_max l x in
  In m (x :: l) /\ Forall (fun y => y <= m) (x :: l).
Proof.
  revert x. induction l as [|y l IH]; intros x; cbn [fold_left].
  - split; [left; reflexivity|]. repeat constructor. apply Qle_refl.
  - destruct (IH (Math_max x y)) as [Hin Hle]. cbv zeta in Hin, Hle.
    apply Forall_cons in Hle as [Hm Hle].
    set (m := fold_left Math_max l (Math_max x y)) in *.
    assert (Hxy : x <= Math_max x y /\ y <= Math_max x y
                  /\ (Math_max x y = x \/ Math_max x y = y)).
    { unfold Math_max. destruct (Num.leb x y) eqn:E;
        [apply leb_le in E | apply leb_gt in E]; repeat split; auto; lra. }
    destruct Hxy as (H1 & H2 & H3). split.
    + destruct Hin as [Hin|Hin]; [|right; right; exact Hin].
      rewrite <- Hin. destruct H3 as [->| ->]; [left | right; left]; reflexivity.
    + repeat (apply Forall_cons; split); [lra | lra | exact Hle].
Qed.

Lemma In_omap {A B} (f : A -> option B) (l : list A) (b : B) :
  In b (omap f l) <-> exists a, In a l /\ f a = Some b.
Proof.
  rewrite <- list_elem_of_In, list_elem_of_omap.
  split; intros (a & Ha & Hf); exists a; split; auto; apply list_elem_of_In; exact Ha.
Qed.

(** X19: the root's [calcMinMax] throws exactly when no plugin has a [min]
    or none has a [max].  Otherwise the extent it sets, on the root and on
    every panel, runs from the least [min] to the greatest [max] that the
    plugins have; the zoom and the position stay. *)
Theorem calcMinMax_extent (c : Chart) :
  (calcMinMax c = None
   <-> omap pluginMin (plugins c) = [] \/ omap pluginMax (plugins c) = [])
  /\ forall c',
       calcMinMax c = Some c' ->
       let b := RenderEngine.base (renderEngine c) in
       let b' := RenderEngine.base (renderEngine c') in
       plugins c' = plugins c
       /\ (exists p, In p (plugins c) /\ pluginMin p = Some (BasicRenderEngine.min b'))
       /\ (forall p m, In p (plugins c) -> pluginMin p = Some m ->
             BasicRenderEngine.min b' <= m)
       /\ (exists p, In p (plugins c) /\ pluginMax p = Some (BasicRenderEngine.max b'))
       /\ (forall p m, In p (plugins c) -> pluginMax p = Some m ->
             m <= BasicRenderEngine.max b')
       /\ Forall (fun engine =>
                    BasicRenderEngine.min (OffscreenRenderEngine.base engine)
                    = BasicRenderEngine.min b'
                    /\ BasicRenderEngine.max (OffscreenRenderEngine.base engine)
                       = BasicRenderEngine.max b')
            (RenderEngine.children (renderEngine c'))
       /\ BasicRenderEngine.zoom b' = BasicRenderEngine.zoom b
       /\ BasicRenderEngine.positionX b' = BasicRenderEngine.positionX b.
Proof.
  unfold calcMinMax.
  destruct (omap pluginMin (plugins c)) as [|x mins] eqn:Emin.
  { split; [split; auto|]. intros c'. discriminate. }
  destruct (omap pluginMax (plugins c)) as [|y maxs] eqn:Emax.
  { split; [split; auto|]. intros c'. discriminate. }
  cbn [reduce1 mbind option_bind]. split.
  { split; [discriminate|]. intros [H|H]; discriminate. }
  intros c' [= <-]. cbn [renderEngine plugins RenderEngine.setMinMax RenderEngine.base
                         RenderEngine.children BasicRenderEngine.setMinMax
                         BasicRenderEngine.min BasicRenderEngine.max
                         BasicRenderEngine.zoom BasicRenderEngine.positionX].
  destruct (fold_Math_min mins x) as [Hin1 Hle1].
  destruct (fold_Math_max maxs y) as [Hin2 Hle2].
  cbv zeta in Hin1, Hle1, Hin2, Hle2. rewrite <- Emin in Hin1, Hle1.
  rewrite <- Emax in Hin2, Hle2.
  split; [reflexivity|]. split; [apply In_omap, Hin1|]. split.
  { intros p m Hp Hm. eapply (proj1 (List.Forall_forall _ _)) in Hle1; [exact Hle1|].
    apply In_omap. exists p. auto. }
  split; [apply In_omap, Hin2|]. split.
  { intros p m Hp Hm. eapply (proj1 (List.Forall_forall _ _)) in Hle2; [exact Hle2|].
    apply In_omap. exists p. auto. }
  split; [|split; reflexivity].
  apply List.Forall_map. apply Forall_forall. intros engine _. split; reflexivity.
Qed.
End Extent.

(** ** Blocks and the drag of the flame chart *)

Section Drag.
Import FlameChartDrag.
Context {D : Type}.

(** X21: the block [calcRect] gives starts where its node does and is
    wider than a twentieth of a pixel; for a node of at most a tenth of a
    pixel on screen it is a tenth of a pixel wide, and otherwise it is not
    wider than the node on screen; and, for a row height of -1 or more, a
    deeper level is not drawn higher. *)
Theorem calcRect_block (p : FlameChartPlugin.t) (renderEngine : BasicRenderEngine.t)
    (blockHeight start duration : Q) (level : nat) :
  let rect := calcRect p renderEngine blockHeight start duration level in
  let onScreen := duration * BasicRenderEngine.zoom renderEngine in
  x rect = BasicRenderEngine.timeToPosition renderEngine start
  /\ 1 # 20 < w rect
  /\ (onScreen <= 1 # 10 -> w rect = 1 # 10)
  /\ (1 # 10 < onScreen -> w rect <= onScreen)
  /\ (forall level', 0 <= blockHeight + 1 -> (level <= level')%nat ->
        y rect <= y (calcRect p renderEngine blockHeight start duration level')).
Proof.
  cbv zeta. unfold calcRect. cbn [x y w].
  set (W := duration * BasicRenderEngine.zoom renderEngine).
  assert (Hthird : W / 3 == W * (1 # 3)) by (unfold Qdiv; reflexivity).
  split; [reflexivity|]. split; [|split; [|split]].
  - destruct (Num.leb W (1 # 10)) eqn:E1; [reflexivity|]. apply leb_gt in E1.
    destruct (Num.geb W 3) eqn:E2; [apply geb_ge in E2; lra|].
    rewrite Hthird. lra.
  - intros H. apply leb_le in H. rewrite H. reflexivity.
  - intros H.
    destruct (Num.leb W (1 # 10)) eqn:E1; [apply leb_le in E1; lra|].
    destruct (Num.geb W 3) eqn:E2; [lra|]. rewrite Hthird. lra.
  - intros level' Hb Hl.
    assert (Hlev : inject_Z (Z.of_nat level) * (blockHeight + 1)
                   <= inject_Z (Z.of_nat level') * (blockHeight + 1)).
    { apply Qmult_le_compat_r; [|exact Hb]. rewrite <- Zle_Qle. lia. }
    lra.
Qed.

(** X22: [handlePositionChange], the handler of a drag, never leaves the
    flame chart above its top: [positionY] becomes [positionY + deltaY]
    when that is 0 or more and 0 otherwise.  It sets the grabbing cursor,
    pans the root engine by [deltaX], and asks for a frame exactly when the
    horizontal or the vertical position has changed. *)
Theorem drag_keeps_top (p : FlameChartPlugin.t) (s : InteractionsEngine.t D)
    (deltaX deltaY : Q) :
  let p' := (handlePositionChange p s deltaX deltaY).1.1 in
  let s' := (handlePositionChange p s deltaX deltaY).1.2 in
  let effects := (handlePositionChange p s deltaX deltaY).2 in
  0 <= FlameChartPlugin.positionY p'
  /\ (0 <= FlameChartPlugin.positionY p + deltaY ->
      FlameChartPlugin.positionY p' = FlameChartPlugin.positionY p + deltaY)
  /\ (FlameChartPlugin.positionY p + deltaY < 0 -> FlameChartPlugin.positionY p' = 0)
  /\ InteractionsEngine.currentCursor s' = Some GRABBING
  /\ InteractionsEngine.renderEngine s'
     = tryToChangePosition (InteractionsEngine.renderEngine s) deltaX
  /\ (effects = []
      <-> BasicRenderEngine.positionX (basic (InteractionsEngine.renderEngine s'))
          == BasicRenderEngine.positionX (basic (InteractionsEngine.renderEngine s))
          /\ FlameChartPlugin.positionY p' == FlameChartPlugin.positionY p)
  /\ (effects = [] \/ effects = [Render]).
Proof.
  cbv zeta. unfold handlePositionChange. cbn [fst snd].
  cbn [InteractionsEngine.renderEngine InteractionsEngine.setRenderEngine
       InteractionsEngine.setCursor InteractionsEngine.setCursors
       InteractionsEngine.currentCursor].
  set (e := InteractionsEngine.renderEngine s).
  set (p' := if Num.geb (FlameChartPlugin.positionY p + deltaY) 0 then _ else _).
  assert (Hp : 0 <= FlameChartPlugin.positionY p'
               /\ (0 <= FlameChartPlugin.positionY p + deltaY ->
                   FlameChartPlugin.positionY p' = FlameChartPlugin.positionY p + deltaY)
               /\ (FlameChartPlugin.positionY p + deltaY < 0 ->
                   FlameChartPlugin.positionY p' = 0)).
  { subst p'. destruct (Num.geb (FlameChartPlugin.positionY p + deltaY) 0) eqn:E; cbn.
    - apply geb_ge in E. split; [exact E|]. split; [reflexivity|]. intros H. lra.
    - apply geb_lt in E. split; [apply Qle_refl|]. split; [intros H; lra | reflexivity]. }
  destruct Hp as (Hp0 & Hp1 & Hp2).
  split; [exact Hp0|]. split; [exact Hp1|]. split; [exact Hp2|].
  split; [reflexivity|]. split; [reflexivity|].
  destruct (Num.eqb (BasicRenderEngine.positionX (basic e))
              (BasicRenderEngine.positionX (basic (tryToChangePosition e deltaX)))) eqn:Ex;
    destruct (Num.eqb (FlameChartPlugin.positionY p) (FlameChartPlugin.positionY p')) eqn:Ey;
    cbn [negb orb].
  - apply eqb_eq in Ex, Ey. split; [|left; reflexivity].
    split; [intros _; split; symmetry; assumption | reflexivity].
  - split; [|right; reflexivity]. split; [discriminate|]. intros [_ H].
    exfalso. apply eqb_neq in Ey. apply Ey. symmetry. exact H.
  - split; [|right; reflexivity]. split; [discriminate|]. intros [H _].
    exfalso. apply eqb_neq in Ex. apply Ex. symmetry. exact H.
  - split; [|right; reflexivity]. split; [discriminate|]. intros [H _].
    exfalso. apply eqb_neq in Ex. apply Ex. symmetry. exact H.
Qed.
End Drag.

(** A flame chart without data, for the examples below. *)
Definition demo_plugin : FlameChartPlugin.t :=
  FlameChartPlugin.mk [] [] 0 0 [] [] [] 0 None None.

(** ** The blocks of the marks *)

Section Marks.
Import MarksPlugin.
Variable renderEngine : BasicRenderEngine.t.
Variable blockPaddingLeftRight : Q.
Variable measureText : string -> Q.

Let position (mark : Mark) : Q :=
  BasicRenderEngine.timeToPosition renderEngine (timestamp mark).

Definition markStep : Q * list Block -> Mark -> Q * list Block :=
  fun '(prevEnding, blocks) node =>
    let width := measureText (shortName node) in
    let fullWidth := width + blockPaddingLeftRight * 2 in
    let position := BasicRenderEngine.timeToPosition renderEngine (timestamp node) in
    let blockPosition := calcMarksBlockPosition position prevEnding in
    (blockPosition + fullWidth,
     blocks ++ [ {| node := node; blockPosition := blockPosition;
                    fullWidth := fullWidth |} ]).

(** The blocks laid out from [prevEnding] on: each block belongs to its
    mark, and starts at the mark's position or, when that is right of 0 and
    the block before ends further right, where that block ends. *)
Fixpoint LaidOut (prevEnding : Q) (marks : list Mark) (blocks : list Block) : Prop :=
  match marks, blocks with
  | [], [] => True
  | mark :: marks', block :: blocks' =>
      node block = mark
      /\ fullWidth block = measureText (shortName mark) + blockPaddingLeftRight * 2
      /\ blockPosition block = calcMarksBlockPosition (position mark) prevEnding
      /\ LaidOut (blockPosition block + fullWidth block) marks' blocks'
  | _, _ => False
  end.

Lemma markStep_fold (marks : list Mark) (prevEnding : Q) (blocks : list Block) :
  exists out,
    (fold_left markStep marks (prevEnding, blocks)).2 = blocks ++ out
    /\ LaidOut prevEnding marks out.
Proof.
  revert prevEnding blocks. induction marks as [|mark marks IH]; intros prevEnding blocks.
  - exists []. split; [symmetry; apply app_nil_r | exact I].
  - cbn [fold_left]. unfold markStep at 2. cbv zeta.
    match goal with
    | |- context [fold_left markStep marks (?e, blocks ++ [?b])] =>
        destruct (IH e (blocks ++ [b])) as (out & Hout & Hl); exists (b :: out)
    end.
    rewrite Hout, <- app_assoc. split; [reflexivity|].
    cbn [LaidOut node fullWidth blockPosition].
    split; [reflexivity|]. split; [reflexivity|]. split; [reflexivity|]. exact Hl.
Qed.

Lemma calcMarksBlockPosition_cases (pos prevEnding : Q) :
  let b := calcMarksBlockPosition pos prevEnding in
  pos <= b
  /\ (b = pos \/ b = prevEnding)
  /\ (pos <= 0 -> b = pos)
  /\ (0 < pos -> prevEnding <= b).
Proof.
  unfold calcMarksBlockPosition.
  destruct (Num.gtb pos 0) eqn:E1; [apply gtb_gt in E1 | apply gtb_le in E1].
  - destruct (Num.gtb prevEnding pos) eqn:E2; [apply gtb_gt in E2 | apply gtb_le in E2];
      repeat split; auto; try lra; intros; lra.
  - repeat split; auto; try lra; intros; lra.
Qed.

(** X23: [MarksPlugin.render] queues one block for each mark, in order, as
    wide as the mark's short name and the padding on both sides.  No block
    starts left of its mark's position; the first block starts at it, and
    so does every block of a mark at position 0 or left of it; and a block
    of a mark right of 0 never starts before the end of the block before
    it. *)
Theorem marks_blocks_apart (marks : list Mark) :
  let blocks := render renderEngine blockPaddingLeftRight measureText marks in
  length blocks = length marks
  /\ (forall i block,
        blocks !! i = Some block ->
        marks !! i = Some (node block)
        /\ fullWidth block
           = measureText (shortName (node block)) + blockPaddingLeftRight * 2
        /\ position (node block) <= blockPosition block
        /\ (position (node block) <= 0 -> blockPosition block = position (node block))
        /\ (i = 0%nat -> blockPosition block = position (node block)))
  /\ (forall i before block,
        blocks !! i = Some before -> blocks !! S i = Some block ->
        (0 < position (node block) ->
         blockPosition before + fullWidth before <= blockPosition block)
        /\ (blockPosition block = position (node block)
            \/ blockPosition block = blockPosition before + fullWidth before)).
Proof.
  cbv zeta. unfold render. change (fold_left _ marks (0, [])) with (fold_left markStep marks (0, [])).
  destruct (markStep_fold marks 0 []) as (blocks & -> & Hl). cbn [app].
  assert (Hgen : forall prevEnding marks blocks,
             LaidOut prevEnding marks blocks ->
             length blocks = length marks
             /\ (forall i block,
                   blocks !! i = Some block ->
                   marks !! i = Some (node block)
                   /\ fullWidth block
                      = measureText (shortName (node block)) + blockPaddingLeftRight * 2
                   /\ position (node block) <= blockPosition block
                   /\ (position (node block) <= 0 ->
                       blockPosition block = position (node block))
                   /\ (i = 0%nat ->
                       blockPosition block
                       = calcMarksBlockPosition (position (node block)) prevEnding))
             /\ (forall i before block,
                   blocks !! i = Some before -> blocks !! S i = Some block ->
                   (0 < position (node block) ->
                    blockPosition before + fullWidth before <= blockPosition block)
                   /\ (blockPosition block = position (node block)
                       \/ blockPosition block = blockPosition before + fullWidth before))).
  { clear. intros prevEnding marks. revert prevEnding.
    induction marks as [|mark marks IH]; intros prevEnding [|block blocks] Hl;
      try contradiction.
    - split; [reflexivity|]. split; intros; discriminate.
    - destruct Hl as (Hn & Hw & Hb & Hl).
      destruct (IH _ _ Hl) as (Hlen & Hblocks & Hpairs).
      split; [simpl; rewrite Hlen; reflexivity|]. split.
      + intros [|i] b Hi; simpl in Hi.
        * injection Hi as <-. rewrite Hn.
          destruct (calcMarksBlockPosition_cases (position mark) prevEnding)
            as (H1 & _ & H3 & _). cbv zeta in H1, H3.
          split; [reflexivity|]. split; [exact Hw|]. rewrite Hb.
          split; [exact H1|]. split; [exact H3|]. reflexivity.
        * destruct (Hblocks i b Hi) as (H1 & H2 & H3 & H4 & _).
          split; [exact H1|]. split; [exact H2|]. split; [exact H3|].
          split; [exact H4|]. discriminate.
      + intros [|i] before b Hi Hsi; simpl in Hi, Hsi.
        * injection Hi as <-.
          destruct (Hblocks 0%nat b Hsi) as (_ & _ & _ & _ & H5).
          specialize (H5 eq_refl).
          destruct (calcMarksBlockPosition_cases (position (node b))
                      (blockPosition block + fullWidth block)) as (_ & H2 & _ & H4).
          cbv zeta in H2, H4. rewrite <- H5 in H2, H4. split; [exact H4 | exact H2].
        * apply (Hpairs i before b Hi Hsi). }
  destruct (Hgen 0 marks blocks Hl) as (Hlen & Hblocks & Hpairs).
  split; [exact Hlen|]. split; [|exact Hpairs].
  intros i block Hi. destruct (Hblocks i block Hi) as (H1 & H2 & H3 & H4 & H5).
  repeat (split; [assumption|]). intros Hi0. rewrite (H5 Hi0).
  unfold calcMarksBlockPosition.
  destruct (Num.gtb (position (node block)) 0) eqn:E1; [|reflexivity].
  apply gtb_gt in E1.
  replace (Num.gtb 0 (position (node block))) with false; [reflexivity|].
  symmetry. apply gtb_le. lra.
Qed.
End Marks.

(** ** The overview graph *)

Section Dots.
Import RenderDots.

Definition stepLevel (level : Z) (dot : Dot) : Z :=
  match type dot with start => (level + 1)%Z | end_ => (level - 1)%Z end.

(** The dots [makeRenderDots] pushes from a level on. *)
Fixpoint profile (level : Z) (dots : list Dot) : list (Q * Z) :=
  match dots with
  | [] => []
  | dot :: dots' =>
      (time dot, level) :: (time dot, stepLevel level dot)
      :: profile (stepLevel level dot) dots'
  end.

Definition finalLevel (level : Z) (dots : list Dot) : Z := fold_left stepLevel dots level.

(** No step of the graph goes below the base line. *)
Fixpoint Nested (level : Z) (dots : list Dot) : Prop :=
  match dots with
  | [] => True
  | dot :: dots' => (0 <= stepLevel level dot)%Z /\ Nested (stepLevel level dot) dots'
  end.

Lemma renderStep_fold (dots : list Dot) (out : list (Q * Z)) (level maxLevel : Z) :
  exists maxLevel',
    fold_left renderStep dots (out, level, maxLevel)
    = (out ++ profile level dots, finalLevel level dots, maxLevel')
    /\ (maxLevel <= maxLevel')%Z
    /\ Forall (fun d : Q * Z => (d.2 <= Z.max level maxLevel')%Z) (profile level dots)
    /\ (maxLevel' = maxLevel \/ exists t, In (t, maxLevel') (profile level dots)).
Proof.
  revert out level maxLevel. induction dots as [|dot dots IH]; intros out level maxLevel.
  - exists maxLevel. cbn. rewrite app_nil_r.
    split; [reflexivity|]. split; [lia|]. split; [constructor | left; reflexivity].
  - cbn [fold_left profile]. unfold renderStep at 2. fold (stepLevel level dot).
    set (level' := stepLevel level dot).
    destruct (IH ((out ++ [(time dot, level)]) ++ [(time dot, level')]) level'
                (Z.max maxLevel level')) as (m & Hfold & Hle & Hall & Hatt).
    exists m. rewrite Hfold. unfold finalLevel. cbn [fold_left]. fold level'.
    rewrite <- !app_assoc. cbn [app].
    split; [reflexivity|]. split; [lia|]. split.
    + constructor; [cbn; lia|]. constructor; [cbn; lia|].
      eapply Forall_impl; [exact Hall|]. intros d Hd. cbn beta in Hd.
      assert (level' <= level + 1)%Z by (unfold level', stepLevel; destruct (type dot); lia).
      assert (level' <= m)%Z by lia. lia.
    + destruct Hatt as [Hm|(t & Ht)].
      * destruct (Z.max_spec maxLevel level') as [[_ E]|[_ E]].
        -- right. exists (time dot). right. left. rewrite Hm, E. reflexivity.
        -- left. rewrite Hm, E. reflexivity.
      * right. exists t. right. right. exact Ht.
Qed.

Lemma Nested_profile (dots : list Dot) (level : Z) :
  (0 <= level)%Z -> Nested level dots ->
  Forall (fun d : Q * Z => (0 <= d.2)%Z) (profile level dots).
Proof.
  revert level. induction dots as [|dot dots IH]; intros level Hl Hn; [constructor|].
  destruct Hn as [H0 Hn]. cbn [profile].
  constructor; [exact Hl|]. constructor; [exact H0|]. apply IH; assumption.
Qed.

Lemma Nested_end (e : Dot) (B C : list Dot) (level : Z) :
  type e = end_ -> (0 <= level)%Z -> Nested level (B ++ C) ->
  Nested (level + 1) (B ++ e :: C)
  /\ finalLevel (level + 1) (B ++ e :: C) = finalLevel level (B ++ C).
Proof.
  intros He. revert level. induction B as [|b B IH]; intros level Hl Hn.
  - assert (E : stepLevel (level + 1) e = level)
      by (unfold stepLevel; rewrite He; lia).
    cbn [app Nested]. unfold finalLevel. cbn [app fold_left]. rewrite E. auto.
  - cbn [app Nested] in Hn |- *. destruct Hn as [H0 Hn].
    assert (E : stepLevel (level + 1) b = (stepLevel level b + 1)%Z)
      by (unfold stepLevel; destruct (type b); lia).
    unfold finalLevel in *. cbn [fold_left]. rewrite E.
    destruct (IH _ H0 Hn) as [H1 H2]. split; [split; [lia | exact H1] | exact H2].
Qed.

Lemma Nested_pair (s e : Dot) (A B C : list Dot) (level : Z) :
  type s = start -> type e = end_ -> (0 <= level)%Z -> Nested level (A ++ B ++ C) ->
  Nested level (A ++ s :: B ++ e :: C)
  /\ finalLevel level (A ++ s :: B ++ e :: C) = finalLevel level (A ++ B ++ C).
Proof.
  intros Hs He. revert level. induction A as [|a A IH]; intros level Hl Hn.
  - assert (E : stepLevel level s = (level + 1)%Z)
      by (unfold stepLevel; rewrite Hs; reflexivity).
    cbn [app Nested]. unfold finalLevel. cbn [app fold_left]. rewrite E.
    destruct (Nested_end e B C level He Hl Hn) as [H1 H2].
    split; [split; [lia | exact H1] | exact H2].
  - cbn [app Nested] in Hn |- *. destruct Hn as [H0 Hn].
    unfold finalLevel in *. cbn [fold_left].
    destruct (IH _ H0 Hn) as [H1 H2]. split; [split; [exact H0 | exact H1] | exact H2].
Qed.

Definition byTime (a b : Dot) : Q := time a - time b.

Lemma sortInsert_split (x : Dot) (l : list Dot) :
  exists l1 l2, l = l1 ++ l2 /\ sortInsert byTime x l = l1 ++ x :: l2.
Proof.
  induction l as [|y l IH]; [exists [], []; split; reflexivity|].
  cbn [sortInsert]. destruct (Num.leb (byTime x y) 0).
  - exists [], (y :: l). split; reflexivity.
  - destruct IH as (l1 & l2 & -> & ->). exists (y :: l1), l2. split; reflexivity.
Qed.

Lemma sortInsert_before (s e : Dot) (l1 l2 : list Dot) :
  time s <= time e ->
  exists la lb, l1 = la ++ lb
                /\ sortInsert byTime s (l1 ++ e :: l2) = la ++ s :: lb ++ e :: l2.
Proof.
  intros Hse. induction l1 as [|y l1 IH].
  - exists [], []. split; [reflexivity|]. cbn [app sortInsert].
    replace (Num.leb (byTime s e) 0) with true; [reflexivity|].
    symmetry. apply leb_le. unfold byTime. lra.
  - cbn [app sortInsert]. destruct (Num.leb (byTime s y) 0).
    + exists [], (y :: l1). split; reflexivity.
    + destruct IH as (la & lb & -> & ->). exists (y :: la), lb. split; reflexivity.
Qed.

Lemma intervalDots_cons (start' end' : Q) (intervals : list (Q * Q)) :
  start' <= end' ->
  exists A B C,
    intervalDots intervals = A ++ B ++ C
    /\ intervalDots ((start', end') :: intervals)
       = A ++ {| time := start'; type := start |}
              :: B ++ {| time := end'; type := end_ |} :: C.
Proof.
  intros Hse.
  assert (E : intervalDots ((start', end') :: intervals)
              = sortInsert byTime {| time := start'; type := start |}
                  (sortInsert byTime {| time := end'; type := end_ |}
                     (intervalDots intervals))) by reflexivity.
  rewrite E. set (rest := intervalDots intervals).
  destruct (sortInsert_split {| time := end'; type := end_ |} rest) as (l1 & l2 & Hrest & ->).
  destruct (sortInsert_before {| time := start'; type := start |}
              {| time := end'; type := end_ |} l1 l2 Hse) as (la & lb & -> & ->).
  exists la, lb, l2. rewrite Hrest, <- app_assoc. split; reflexivity.
Qed.

Lemma intervalDots_Nested (intervals : list (Q * Q)) :
  Forall (fun i : Q * Q => i.1 <= i.2) intervals ->
  Nested 0 (intervalDots intervals) /\ finalLevel 0 (intervalDots intervals) = 0%Z.
Proof.
  induction 1 as [|[start' end'] intervals Hi _ IH]; [split; [exact I | reflexivity]|].
  destruct IH as [Hn Hf].
  destruct (intervalDots_cons start' end' intervals Hi) as (A & B & C & E & ->).
  rewrite E in Hn, Hf.
  destruct (Nested_pair {| time := start'; type := start |}
              {| time := end'; type := end_ |} A B C 0 eq_refl eq_refl ltac:(lia) Hn)
    as [H1 H2].
  split; [exact H1 | rewrite H2; exact Hf].
Qed.

Lemma profile_sorted (dots : list Dot) (level : Z) :
  StronglySorted (fun a b => time a <= time b) dots ->
  StronglySorted (fun a b : Q * Z => a.1 <= b.1) (profile level dots).
Proof.
  intros Hs. revert level. induction Hs as [|dot dots Hs IH Hd]; intros level;
    [constructor|].
  assert (Hall : forall level', Forall (fun b : Q * Z => time dot <= b.1)
                                  (profile level' dots)).
  { clear -Hd. induction dots as [|d dots IH]; intros level'; [constructor|].
    apply Forall_cons in Hd as [H1 H2]. cbn [profile].
    constructor; [exact H1|]. constructor; [exact H1|]. apply IH, H2. }
  cbn [profile]. constructor; [constructor; [apply IH | apply Hall]|].
  constructor; [apply Qle_refl | apply Hall].
Qed.

Lemma profile_length (dots : list Dot) (level : Z) :
  length (profile level dots) = (2 * length dots)%nat.
Proof.
  revert level. induction dots as [|dot dots IH]; intros level; [reflexivity|].
  cbn [profile length]. rewrite IH. lia.
Qed.

Lemma profile_last (dots : list Dot) (level : Z) (d : Q * Z) :
  last (profile level dots) = Some d -> d.2 = finalLevel level dots.
Proof.
  rewrite last_list_last. revert level.
  induction dots as [|dot dots IH]; intros level; [discriminate|].
  cbn [profile]. unfold finalLevel. cbn [fold_left].
  destruct dots as [|dot' dots].
  - cbn. intros [= <-]. reflexivity.
  - intros H. apply (IH (stepLevel level dot)). exact H.
Qed.

(** X24: the graph drawn over intervals that do not end before they start.
    [makeRenderDots], given the start and end dots of the intervals sorted
    by time, makes four dots for each interval, in the order of time; no
    dot lies below level 0 or above [maxLevel]; the last dot is back on
    level 0; and [maxLevel] is the level of some dot, or 0. *)
Theorem intervalDots_profile (intervals : list (Q * Q)) :
  Forall (fun i : Q * Q => i.1 <= i.2) intervals ->
  let renderDots := (makeRenderDots (intervalDots intervals)).1 in
  let maxLevel := (makeRenderDots (intervalDots intervals)).2 in
  length renderDots = (4 * length intervals)%nat
  /\ StronglySorted (fun a b : Q * Z => a.1 <= b.1) renderDots
  /\ Forall (fun d : Q * Z => (0 <= d.2 <= maxLevel)%Z) renderDots
  /\ (forall d, last renderDots = Some d -> d.2 = 0%Z)
  /\ (maxLevel = 0%Z \/ exists t, In (t, maxLevel) renderDots).
Proof.
  intros Hi. cbv zeta. unfold makeRenderDots.
  destruct (renderStep_fold (intervalDots intervals) [] 0 0)
    as (m & -> & Hle & Hall & Hatt).
  cbn [app fst snd].
  destruct (intervalDots_Nested intervals Hi) as [Hn Hf].
  assert (Hlen : length (intervalDots intervals) = (2 * length intervals)%nat).
  { unfold intervalDots.
    rewrite (Permutation_length (sort_Permutation _ _)).
    clear. induction intervals as [|[s e] intervals IH]; [reflexivity|].
    cbn [flat_map app length]. rewrite IH. lia. }
  split; [rewrite profile_length, Hlen; lia|]. split.
  { apply profile_sorted.
    eapply StronglySorted_weaken; [|apply (sort_StronglySorted byTime)].
    - intros a b H. unfold byTime in H. lra.
    - intros a b. unfold byTime. destruct (Qlt_le_dec (time a) (time b)); [left | right]; lra.
    - intros a b c. unfold byTime. lra. }
  split.
  { pose proof (Nested_profile _ 0 ltac:(lia) Hn) as Hpos.
    apply Forall_forall. intros d Hd.
    eapply (proj1 (Forall_forall _ _)) in Hpos; [|exact Hd].
    eapply (proj1 (Forall_forall _ _)) in Hall; [|exact Hd].
    cbn beta in Hpos, Hall. lia. }
  split.
  { intros d Hd. rewrite (profile_last _ _ _ Hd). exact Hf. }
  exact Hatt.
Qed.
End Dots.

Lemma intervalDots_profile_witness :
  Forall (fun d : Q * Z => (0 <= d.2 <= 2)%Z)
    (RenderDots.makeRenderDots (RenderDots.intervalDots [(0, 4); (2, 6); (5, 5)])).1.
Proof.
  assert (H : Forall (fun i : Q * Q => i.1 <= i.2) [(0, 4); (2, 6); (5, 5)])
    by (repeat constructor; discriminate).
  destruct (intervalDots_profile _ H) as (_ & _ & H3 & _).
  exact H3.
Defined.

(** ** The parsed waterfall *)

Section WaterfallFacts.
Import Waterfall.

Lemma fold_left_property {A} (f : Q -> Q -> Q) (g : A -> Q) (l : list A) (a : Q) :
  fold_left (fun acc x => f acc (g x)) l a = fold_left f (map g l) a.
Proof. revert a. induction l as [|x l IH]; intros a; [reflexivity | apply IH]. Qed.

(** [getValueByChoice] with [Math.min]: the least value of the property. *)
Lemma getValueByChoice_min {A} (array : list A) (property : A -> Q) (d : Q) :
  array <> [] ->
  let m := getValueByChoice array property Math_min d in
  (exists x, In x array /\ property x = m)
  /\ Forall (fun x => m <= property x) array.
Proof.
  destruct array as [|first rest]; [contradiction|]. intros _.
  unfold getValueByChoice. rewrite fold_left_property.
  destruct (fold_Math_min (map property (first :: rest)) (property first)) as [Hin Hle].
  cbv zeta in Hin, Hle |- *. set (m := fold_left Math_min _ _) in *.
  apply Forall_cons in Hle as [_ Hle]. split.
  - destruct Hin as [Hin|Hin].
    + exists first. split; [left; reflexivity | exact Hin].
    + apply in_map_iff in Hin as (x & Hx & Hin). exists x. auto.
  - apply List.Forall_forall. intros x Hx.
    eapply (proj1 (List.Forall_forall _ _)) in Hle; [exact Hle|].
    apply in_map. exact Hx.
Qed.

Lemma getValueByChoice_max {A} (array : list A) (property : A -> Q) (d : Q) :
  array <> [] ->
  let m := getValueByChoice array property Math_max d in
  (exists x, In x array /\ property x = m)
  /\ Forall (fun x => property x <= m) array.
Proof.
  destruct array as [|first rest]; [contradiction|]. intros _.
  unfold getValueByChoice. rewrite fold_left_property.
  destruct (fold_Math_max (map property (first :: rest)) (property first)) as [Hin Hle].
  cbv zeta in Hin, Hle |- *. set (m := fold_left Math_max _ _) in *.
  apply Forall_cons in Hle as [_ Hle]. split.
  - destruct Hin as [Hin|Hin].
    + exists first. split; [left; reflexivity | exact Hin].
    + apply in_map_iff in Hin as (x & Hx & Hin). exists x. auto.
  - apply List.Forall_forall. intros x Hx.
    eapply (proj1 (List.Forall_forall _ _)) in Hle; [exact Hle|].
    apply in_map. exact Hx.
Qed.

(** The order of the comparator of [parseWaterfall]. *)
Definition itemsLe (a b : Parsed.t) : Prop :=
  Parsed.min a < Parsed.min b
  \/ (Parsed.min a == Parsed.min b /\ Parsed.max b <= Parsed.max a).

Lemma compareItems_le (a b : Parsed.t) : compareItems a b <= 0 <-> itemsLe a b.
Proof.
  unfold compareItems, itemsLe.
  destruct (Num.eqb (Parsed.min a - Parsed.min b) 0) eqn:E;
    [apply eqb_eq in E | apply eqb_neq in E].
  - split; [intros H; right; split; lra | intros [H|[_ H]]; lra].
  - split; [intros H; left | intros [H|[H _]]]; lra.
Qed.

(** What one parsed item says of the item it is made of. *)
Definition parsedFrom (waterfall : Waterfall.t) (item : Parsed.t) : Prop :=
  (exists source resolved,
     items waterfall !! Parsed.index item = Some source
     /\ Parsed.name item = Item.name source
     /\ Parsed.timing item = Item.timing source
     /\ match Item.intervals source with
        | inl key => intervals waterfall !! key = Some resolved
        | inr intervals => resolved = intervals
        end
     /\ Parsed.intervals item = prepare (Item.timing source) resolved)
  /\ Parsed.intervals item <> []
  /\ Forall (fun interval =>
               Parsed.min item <= Prepared.start interval
               /\ Prepared.end_ interval <= Parsed.max item)
       (Parsed.intervals item)
  /\ (exists interval, In interval (Parsed.intervals item)
                       /\ Prepared.start interval = Parsed.min item)
  /\ (exists interval, In interval (Parsed.intervals item)
                       /\ Prepared.end_ interval = Parsed.max item).

(** X25: [parseWaterfall] throws exactly when an item names a list of
    intervals that the waterfall does not have.  Otherwise the items come
    out by ascending [min], those of equal [min] by descending [max]; each
    has at least one interval with both times known, carries the name and
    the index of the item it comes from, and has for [min] the least start
    and for [max] the greatest end of its intervals. *)
Theorem parseWaterfall_items (waterfall : Waterfall.t) :
  (parseWaterfall waterfall = None
   <-> exists item key, In item (items waterfall)
                        /\ Item.intervals item = inl key
                        /\ intervals waterfall !! key = None)
  /\ forall parsed,
       parseWaterfall waterfall = Some parsed ->
       StronglySorted itemsLe parsed
       /\ Forall (parsedFrom waterfall) parsed
       /\ (length parsed <= length (items waterfall))%nat.
Proof.
  unfold parseWaterfall. split.
  - destruct (mapM _ _) as [parsed|] eqn:Em; cbn [mbind option_bind].
    + split; [discriminate|]. intros (item & key & Hin & Hk & Hnone). exfalso.
      apply list_elem_of_In, list_elem_of_lookup_1 in Hin as [i Hi].
      apply imap_lookup_mapM in Em as [_ Hlk].
      destruct (Hlk i item Hi) as (c & _ & Hc). cbn beta iota in Hc.
      unfold parseItem in Hc. rewrite Hk, Hnone in Hc. discriminate.
    + split; [intros _|reflexivity].
      apply imap_mapM_None in Em as (i & item & Hi & Hg). cbn beta iota in Hg.
      unfold parseItem in Hg.
      destruct (Item.intervals item) as [key|l] eqn:Ek; [|discriminate].
      destruct (intervals waterfall !! key) eqn:El; [discriminate|].
      exists item, key. split; [|auto].
      apply list_elem_of_In. eapply list_elem_of_lookup_2, Hi.
  - intros out Hout.
    destruct (mapM _ _) as [parsed|] eqn:Em; [|discriminate].
    cbn [mbind option_bind] in Hout. injection Hout as <-.
    set (kept := List.filter _ parsed).
    pose proof (sort_Permutation compareItems kept) as Hperm.
    apply imap_lookup_mapM in Em as [Hlen Hlk].
    split; [|split].
    + eapply StronglySorted_weaken; [|apply (sort_StronglySorted compareItems)].
      * intros a b. apply compareItems_le.
      * intros a b. rewrite !compareItems_le. unfold itemsLe.
        destruct (Qlt_le_dec (Parsed.min a) (Parsed.min b)) as [H|H]; [left; left; exact H|].
        destruct (Qlt_le_dec (Parsed.min b) (Parsed.min a)) as [H'|H'];
          [right; left; exact H'|].
        destruct (Qlt_le_dec (Parsed.max a) (Parsed.max b)) as [H''|H''].
        -- right. right. split; lra.
        -- left. right. split; lra.
      * intros a b c. rewrite !compareItems_le. unfold itemsLe.
        intros [H1|[H1 H1']] [H2|[H2 H2']].
        -- left. lra.
        -- left. lra.
        -- left. lra.
        -- right. split; lra.
    + apply Forall_forall. intros item Hitem.
      apply list_elem_of_In in Hitem.
      apply (Permutation_in _ Hperm) in Hitem. unfold kept in Hitem.
      apply filter_In in Hitem as [Hin Hne].
      apply list_elem_of_In, list_elem_of_lookup_1 in Hin as [i Hi].
      destruct (lookup_lt_is_Some_2 (items waterfall) i) as [source Hs].
      { rewrite <- Hlen. eapply lookup_lt_Some, Hi. }
      destruct (Hlk i source Hs) as (c & Hc & Hg). rewrite Hi in Hc. injection Hc as <-.
      cbn beta iota in Hg. unfold parseItem in Hg.
      destruct (match Item.intervals source with
                | inl key => intervals waterfall !! key
                | inr intervals => Some intervals
                end) as [resolved|] eqn:Er; [|discriminate].
      cbn [mbind option_bind] in Hg. injection Hg as <-.
      cbn [Parsed.intervals Parsed.index Parsed.name Parsed.timing Parsed.min Parsed.max]
        in Hne |- *.
      unfold parsedFrom.
      cbn [Parsed.intervals Parsed.index Parsed.name Parsed.timing Parsed.min Parsed.max].
      set (prepared := prepare (Item.timing source) resolved) in *.
      assert (Hnonempty : prepared <> []).
      { intros E. rewrite E in Hne. discriminate. }
      destruct (getValueByChoice_min prepared Prepared.start 0 Hnonempty) as [Hmin1 Hmin2].
      destruct (getValueByChoice_max prepared Prepared.end_ 0 Hnonempty) as [Hmax1 Hmax2].
      cbv zeta in Hmin1, Hmin2, Hmax1, Hmax2.
      split.
      { exists source, resolved. split; [exact Hs|]. split; [reflexivity|].
        split; [reflexivity|]. split; [|reflexivity].
        destruct (Item.intervals source); [exact Er | congruence]. }
      split; [exact Hnonempty|]. split.
      { apply Forall_forall. intros interval Hin. apply list_elem_of_In in Hin. split.
        - eapply (proj1 (List.Forall_forall _ _)) in Hmin2; [exact Hmin2 | exact Hin].
        - eapply (proj1 (List.Forall_forall _ _)) in Hmax2; [exact Hmax2 | exact Hin]. }
      split; [exact Hmin1 | exact Hmax1].
    + rewrite (Permutation_length Hperm). unfold kept. rewrite <- Hlen.
      clear. induction parsed as [|x l IH]; [reflexivity|].
      cbn [List.filter]. destruct (negb _); cbn [length]; lia.
Qed.
End WaterfallFacts.

(** ** The view after new data *)

Section NewData.
Import BasicRenderEngine.

Lemma getFlatTreeMinMax_bounds (l : list FlatTreeNode) :
  Forall (fun n => (getFlatTreeMinMax l).1 <= start (source n)
                   /\ end_ n <= (getFlatTreeMinMax l).2) l.
Proof.
  destruct l as [|n l]; [constructor|].
  unfold getFlatTreeMinMax. cbn [fold_left].
  pose proof (getFlatTreeMinMax_fold l (start (source n)) (end_ n) [n]) as H.
  destruct (fold_left _ l _) as [[b mn] mx]. simpl.
  apply H.
  - discriminate.
  - apply Forall_singleton. split; lra.
  - apply Exists_cons_hd. reflexivity.
  - apply Exists_cons_hd. reflexivity.
Qed.

Lemma resetView_children (e : RenderEngine.t) (mn mx : Q) :
  Forall (fun engine => min (OffscreenRenderEngine.base engine) = mn
                        /\ max (OffscreenRenderEngine.base engine) = mx)
    (RenderEngine.children e) ->
  Forall (fun engine => min (OffscreenRenderEngine.base engine) = mn
                        /\ max (OffscreenRenderEngine.base engine) = mx)
    (RenderEngine.children (resetView e)).
Proof.
  intros Hc. unfold resetView. simpl. unfold RenderEngine.setZoom.
  destruct (_ || _); simpl.
  - rewrite List.map_map. apply List.Forall_map.
    eapply Forall_impl; [exact Hc|]. intros engine H. exact H.
  - apply List.Forall_map. eapply Forall_impl; [exact Hc|]. intros engine H. exact H.
Qed.

(** X26: after [setData] the view shows from the start of the extent, and
    the extent, on the root and on every panel, covers every node of the
    new data and the [min] and [max] of every plugin. *)
Theorem setData_extent_covers (c c' : Chart) (i : nat) (data : list FlameChartNode) :
  setData c i data = Some c' ->
  let root := RenderEngine.base (renderEngine c') in
  (forall node, In node (flatTree data) ->
                min root <= start (source node) /\ end_ node <= max root)
  /\ (forall p m, In p (plugins c') -> pluginMin p = Some m -> min root <= m)
  /\ (forall p m, In p (plugins c') -> pluginMax p = Some m -> m <= max root)
  /\ positionX root = min root
  /\ Forall (fun engine => min (OffscreenRenderEngine.base engine) = min root
                           /\ max (OffscreenRenderEngine.base engine) = max root)
       (RenderEngine.children (renderEngine c')).
Proof.
  intros Hset. unfold setData in Hset.
  destruct (plugins c !! i) as [plugin|] eqn:Hp; [|discriminate].
  destruct (RenderEngine.children (renderEngine c) !! i) as [engine|]; [|discriminate].
  cbn [mbind option_bind] in Hset.
  destruct plugin as [p|]; [|discriminate].
  set (p1 := FlameChartPlugin.parseData (FlameChartPlugin.setDataField p data)) in Hset.
  destruct (initData_total p1 (OffscreenRenderEngine.base engine))
    as (initial & actual & Hinit).
  rewrite Hinit in Hset. cbn [mbind option_bind] in Hset.
  set (p3 := FlameChartPlugin.reset _) in Hset.
  assert (Hp3 : (FlameChartPlugin.min p3, FlameChartPlugin.max p3)
                = getFlatTreeMinMax (flatTree data)).
  { subst p3 p1. unfold FlameChartPlugin.parseData, FlameChartPlugin.calcMinMax. simpl.
    destruct (getFlatTreeMinMax (flatTree data)) as [mn mx]. reflexivity. }
  set (pl := <[i := FlamePlugin p3]> (plugins c)) in Hset.
  assert (Hin3 : In (FlamePlugin p3) pl).
  { apply list_elem_of_In. eapply list_elem_of_lookup_2.
    apply list_lookup_insert_eq. eapply lookup_lt_Some. exact Hp. }
  unfold calcMinMax in Hset. cbn [plugins renderEngine] in Hset.
  destruct (omap pluginMin pl) as [|x mins] eqn:Emin; [discriminate|].
  destruct (omap pluginMax pl) as [|y maxs] eqn:Emax; [discriminate|].
  cbn [reduce1 mbind option_bind plugins renderEngine] in Hset.
  injection Hset as <-. cbv zeta. cbn [plugins renderEngine].
  destruct (fold_Math_min mins x) as [_ Hle1].
  destruct (fold_Math_max maxs y) as [_ Hle2].
  cbv zeta in Hle1, Hle2. rewrite <- Emin in Hle1. rewrite <- Emax in Hle2.
  set (mn := fold_left Math_min mins x) in *.
  set (mx := fold_left Math_max maxs y) in *.
  set (e1 := RenderEngine.setMinMax (renderEngine c) mn mx).
  destruct (resetView_basic e1) as (Rx & Rmin & Rmax & _).
  change (RenderEngine.base (resetView e1)) with (basic (resetView e1)).
  rewrite Rx, Rmin, Rmax. cbn [basic root_RenderEngineClass e1 RenderEngine.setMinMax
                                 RenderEngine.base setMinMax min max].
  assert (Hmins : forall p m, In p pl -> pluginMin p = Some m -> mn <= m).
  { intros q m Hq Hm. eapply (proj1 (List.Forall_forall _ _)) in Hle1; [exact Hle1|].
    apply In_omap. exists q. auto. }
  assert (Hmaxs : forall p m, In p pl -> pluginMax p = Some m -> m <= mx).
  { intros q m Hq Hm. eapply (proj1 (List.Forall_forall _ _)) in Hle2; [exact Hle2|].
    apply In_omap. exists q. auto. }
  split; [|split; [exact Hmins|split; [exact Hmaxs|split; [reflexivity|]]]].
  - intros node Hnode.
    pose proof (getFlatTreeMinMax_bounds (flatTree data)) as Hb.
    eapply (proj1 (List.Forall_forall _ _)) in Hb; [|exact Hnode].
    rewrite <- Hp3 in Hb. cbn [fst snd] in Hb.
    pose proof (Hmins (FlamePlugin p3) _ Hin3 eq_refl).
    pose proof (Hmaxs (FlamePlugin p3) _ Hin3 eq_refl). lra.
  - apply resetView_children. unfold e1. cbn [RenderEngine.setMinMax RenderEngine.children].
    apply List.Forall_map. apply Forall_forall. intros engine' _. split; reflexivity.
Qed.
End NewData.

(** A chart on the engine above, with the flame chart on its first panel. *)
Definition demo_chart : Chart :=
  {| renderEngine := demo_engine;
     plugins := [FlamePlugin demo_plugin; OtherPlugin None None] |}.

Lemma setData_extent_covers_witness :
  match setData demo_chart 0 example_forest with
  | Some c' =>
      Forall (fun node =>
                BasicRenderEngine.min (RenderEngine.base (renderEngine c'))
                <= start (source node)
                /\ end_ node <= BasicRenderEngine.max (RenderEngine.base (renderEngine c')))
        (flatTree example_forest)
  | None => False
  end.
Proof.
  destruct (setData demo_chart 0 example_forest) as [c'|] eqn:E;
    [|vm_compute in E; discriminate].
  destruct (setData_extent_covers demo_chart c' 0 example_forest E) as [H _].
  apply List.Forall_forall. exact H.
Defined.

(** ** The cursor *)

Section Cursor.
Context {D : Type}.
Import InteractionsEngine.

Lemma getHoveredRegion_cursors (s : InteractionsEngine.t D) :
  currentCursor (getHoveredRegion s).1 = currentCursor s
  /\ canvasCursor (getHoveredRegion s).1 = canvasCursor s.
Proof.
  unfold getHoveredRegion.
  destruct (List.find _ _); [split; reflexivity|].
  destruct (findIndex _ _ _) as [[i inst]|]; split; reflexivity.
Qed.

(** A second look finds the same region. *)
Lemma getHoveredRegion_again (s : InteractionsEngine.t D) :
  (getHoveredRegion (getHoveredRegion s).1).2 = (getHoveredRegion s).2.
Proof.
  unfold getHoveredRegion at 2 3.
  destruct (List.find _ (hitRegions s)) as [r|] eqn:Er.
  - cbn [fst snd]. unfold getHoveredRegion. rewrite Er. reflexivity.
  - destruct (findIndex (instanceContains s) (instances s) 0) as [[i inst]|] eqn:Ef;
      cbn [fst snd]; unfold getHoveredRegion;
      cbn [hitRegions instances mouse setHoveredInstance]; rewrite Er.
    + change (instanceContains (setHoveredInstance s (Some i))) with (instanceContains s).
      rewrite Ef. reflexivity.
    + change (instanceContains (setHoveredInstance s None)) with (instanceContains s).
      rewrite Ef. reflexivity.
Qed.

Lemma clearCursor_cursors (s : InteractionsEngine.t D) :
  currentCursor (clearCursor s) = None
  /\ canvasCursor (clearCursor s) = (getHoveredRegion s).2 ≫= HitRegion.cursor.
Proof.
  unfold clearCursor. destruct (getHoveredRegion s) as [s1 found]. cbn [snd].
  destruct found as [r|]; [destruct (HitRegion.cursor r) eqn:Ec|]; cbn;
    rewrite ?Ec; split; reflexivity.
Qed.

(** X27: the cursor of the canvas.  [clearCursor] drops the forced cursor
    and shows the cursor of the region under the pointer, or none.  While a
    cursor is forced ([setCursor], as during a drag), [checkRegionHover]
    leaves both alone.  With no cursor forced, a call of [checkRegionHover]
    that finds a region, or that leaves one, shows the cursor of the region
    found, or none; a call that neither finds nor leaves a region changes
    no cursor. *)
Theorem cursor_follows_hover (s : InteractionsEngine.t D) :
  let found := (getHoveredRegion s).2 in
  let hovered := (checkRegionHover s).1 in
  (currentCursor (clearCursor s) = None
   /\ canvasCursor (clearCursor s) = found ≫= HitRegion.cursor)
  /\ (forall cursor,
        currentCursor (setCursor s cursor) = Some cursor
        /\ canvasCursor (setCursor s cursor) = Some cursor)
  /\ (forall cursor, currentCursor s = Some cursor ->
        currentCursor hovered = Some cursor /\ canvasCursor hovered = canvasCursor s)
  /\ (currentCursor s = None ->
      currentCursor hovered = None
      /\ (found <> None \/ hoveredRegion s <> None ->
          canvasCursor hovered = found ≫= HitRegion.cursor)
      /\ (found = None -> hoveredRegion s = None ->
          canvasCursor hovered = canvasCursor s)).
Proof.
  cbv zeta. split; [apply clearCursor_cursors|]. split; [intros cursor; split; reflexivity|].
  pose proof (getHoveredRegion_cursors s) as [Hcur Hcan].
  pose proof (proj1 (getHoveredRegion_hoveredRegion s)) as Hhov.
  pose proof (getHoveredRegion_again s) as Hagain.
  pose proof (clearCursor_cursors (getHoveredRegion s).1) as [Hc1 Hc2].
  rewrite Hagain in Hc2.
  unfold checkRegionHover.
  destruct (getHoveredRegion s) as [s0 found]. cbn [fst snd] in *.
  split.
  - intros cursor Hc. rewrite <- Hcur in Hc. rewrite <- Hcan.
    destruct found as [new|]; [|destruct (hoveredRegion s0)]; rewrite ?Hc; cbn;
      split; first [exact Hc | reflexivity].
  - intros Hnone. rewrite <- Hcur in Hnone. rewrite <- Hcan, <- Hhov.
    destruct found as [new|].
    + rewrite Hnone. destruct (HitRegion.cursor new) as [c|] eqn:Ec; cbn.
      * rewrite Ec. repeat split; try assumption; try reflexivity. intros; discriminate.
      * cbn in Hc2. split; [exact Hc1|]. split; [intros _; exact Hc2 | discriminate].
    + destruct (hoveredRegion s0) as [old|]; rewrite ?Hnone; cbn.
      * split; [exact Hc1|]. split; [intros _; exact Hc2 | intros _ H; discriminate].
      * split; [exact Hnone|]. split; [intros [H|H]; contradiction | reflexivity].
Qed.
End Cursor.

(** ** The rows of the waterfall *)

Section WaterfallRows.
Import Waterfall WaterfallPlugin.

(** [popStack] drops entries off the top, all of them over before [entry]
    begins. *)
Lemma popStack_suffix (entry : Parsed.t) (stack : list Parsed.t) :
  exists popped,
    stack = popped ++ popStack entry stack
    /\ Forall (fun top => Parsed.max top < Parsed.min entry) popped.
Proof.
  induction stack as [|top rest IH]; [exists []; split; [reflexivity | constructor]|].
  cbn [popStack]. destruct (Num.gtb _ 0) eqn:E.
  - apply gtb_gt in E. destruct IH as (popped & Hp & Hall).
    exists (top :: popped). split; [cbn [app]; rewrite <- Hp; reflexivity|].
    constructor; [lra | exact Hall].
  - exists []. split; [reflexivity | constructor].
Qed.

(** The entry on a level of the stack, the bottom being level 0. *)
Definition onLevel (stack : list Parsed.t) (level : nat) : option Parsed.t :=
  rev stack !! level.

(** What holds of the entries placed so far: each is still on the stack, on
    its level, or was over before [bound]; and two of them on one level do
    not overlap. *)
Definition Placed (bound : Q) (stack : list Parsed.t) (result : list (Parsed.t * nat))
    : Prop :=
  Forall (fun '(a, level) => onLevel stack level = Some a \/ Parsed.max a < bound) result
  /\ forall i j a b level,
       (i < j)%nat -> result !! i = Some (a, level) -> result !! j = Some (b, level) ->
       Parsed.max a < Parsed.min b.

Lemma levelStep_Placed (bound : Q) (stack : list Parsed.t)
    (result : list (Parsed.t * nat)) (entry : Parsed.t) :
  bound <= Parsed.min entry ->
  Placed bound stack result ->
  Placed (Parsed.min entry) (levelStep (stack, result) entry).1
    (levelStep (stack, result) entry).2.
Proof.
  intros Hb [Hall Hpairs]. unfold levelStep. cbn [fst snd].
  destruct (popStack_suffix entry stack) as (popped & Hstack & Hpopped).
  set (stack' := popStack entry stack) in *.
  assert (Hold : forall a level,
             onLevel stack level = Some a \/ Parsed.max a < bound ->
             ((level < length stack')%nat /\ onLevel (entry :: stack') level = Some a)
             \/ Parsed.max a < Parsed.min entry).
  { intros a level [Hon|Hclosed]; [|right; lra].
    unfold onLevel in *. rewrite Hstack, rev_app_distr in Hon.
    destruct (Nat.lt_ge_cases level (length stack')) as [Hlt|Hge].
    - left. split; [exact Hlt|]. cbn [rev].
      rewrite lookup_app_l in Hon by (rewrite length_rev; exact Hlt).
      rewrite lookup_app_l by (rewrite length_rev; exact Hlt). exact Hon.
    - right. rewrite lookup_app_r in Hon by (rewrite length_rev; exact Hge).
      apply list_elem_of_lookup_2 in Hon. apply list_elem_of_In in Hon.
      apply in_rev in Hon.
      eapply (proj1 (List.Forall_forall _ _)) in Hpopped; [exact Hpopped | exact Hon]. }
  split.
  - apply Forall_app. split.
    + eapply Forall_impl; [exact Hall|]. intros [a level] H.
      destruct (Hold a level H) as [[_ Hon]|Hc]; [left; exact Hon | right; exact Hc].
    + constructor; [|constructor]. left. unfold onLevel. cbn [rev].
      rewrite lookup_app_r by (rewrite length_rev; lia).
      rewrite length_rev, Nat.sub_diag. reflexivity.
  - intros i j a b level Hij Hi Hj.
    assert (Hjlen : (j < length (result ++ [(entry, length stack')]))%nat)
      by (eapply lookup_lt_Some; exact Hj).
    rewrite length_app in Hjlen. cbn [length] in Hjlen.
    destruct (Nat.eq_dec j (length result)) as [Ej|Nj].
    + subst j. rewrite lookup_app_l in Hi by lia.
      rewrite lookup_app_r in Hj by lia. rewrite Nat.sub_diag in Hj.
      injection Hj as <- <-.
      eapply (proj1 (Forall_forall _ _)) in Hall;
        [|eapply list_elem_of_lookup_2; exact Hi].
      cbn beta iota in Hall.
      destruct (Hold a _ Hall) as [[Hlt _]|Hc]; [lia | exact Hc].
    + rewrite lookup_app_l in Hi by lia. rewrite lookup_app_l in Hj by lia.
      apply (Hpairs i j a b level Hij Hi Hj).
Qed.

Lemma levelStep_fold (entries : list Parsed.t) (bound : Q) (stack : list Parsed.t)
    (result : list (Parsed.t * nat)) :
  StronglySorted (fun a b => Parsed.min a <= Parsed.min b) entries ->
  Forall (fun entry => bound <= Parsed.min entry) entries ->
  Placed bound stack result ->
  exists bound',
    Placed bound' (fold_left levelStep entries (stack, result)).1
      (fold_left levelStep entries (stack, result)).2.
Proof.
  revert bound stack result.
  induction entries as [|entry entries IH]; intros bound stack result Hs Hb Hp.
  - exists bound. exact Hp.
  - cbn [fold_left]. apply StronglySorted_inv in Hs as [Hs Hentry].
    apply Forall_cons in Hb as [Hb0 Hb].
    pose proof (levelStep_Placed bound stack result entry Hb0 Hp) as Hp'.
    destruct (levelStep (stack, result) entry) as [stack' result'].
    apply (IH (Parsed.min entry)); assumption.
Qed.

Lemma levelStep_entries (entries : list Parsed.t) (stack : list Parsed.t)
    (result : list (Parsed.t * nat)) :
  map fst (fold_left levelStep entries (stack, result)).2 = map fst result ++ entries.
Proof.
  revert stack result. induction entries as [|entry entries IH]; intros stack result.
  - cbn. rewrite app_nil_r. reflexivity.
  - cbn [fold_left]. unfold levelStep at 2. rewrite IH, map_app. cbn [map fst].
    rewrite <- app_assoc. reflexivity.
Qed.

(** X28: the rows of the waterfall.  For entries in the order of their
    [min], as [parseWaterfall] gives them, [render] puts the entries in view
    on levels, in their order, such that of two entries on one level the
    earlier is over before the later begins: no two entries of a row
    overlap. *)
Theorem waterfall_rows_disjoint (data : list Parsed.t) (leftSide rightSide : Q) :
  StronglySorted (fun a b => Parsed.min a <= Parsed.min b) data ->
  let rows := viewedData data leftSide rightSide in
  map fst rows = List.filter (viewed leftSide rightSide) data
  /\ forall i j a b level,
       (i < j)%nat -> rows !! i = Some (a, level) -> rows !! j = Some (b, level) ->
       Parsed.max a < Parsed.min b.
Proof.
  intros Hs. cbv zeta. unfold viewedData.
  set (entries := List.filter (viewed leftSide rightSide) data).
  split; [apply (levelStep_entries entries [] [])|].
  assert (Hs' : StronglySorted (fun a b => Parsed.min a <= Parsed.min b) entries).
  { eapply StronglySorted_sublist; [|exact Hs]. apply sublist_of_filter. }
  destruct entries as [|first rest] eqn:E; [intros i j a b level _ Hi; discriminate|].
  destruct (levelStep_fold (first :: rest) (Parsed.min first) [] [] Hs') as (bound & _ & H).
  - apply StronglySorted_inv in Hs' as [_ Hfirst].
    constructor; [apply Qle_refl | exact Hfirst].
  - split; [constructor|]. intros i j a b level _ Hi. discriminate.
  - exact H.
Qed.
End WaterfallRows.

(** Three entries: the second begins while the first runs, the third after
    both are over. *)
Definition demo_entry (index : nat) (min max : Q) : Waterfall.Parsed.t :=
  {| Waterfall.Parsed.intervals := [];
     Waterfall.Parsed.textBlock := (0, 0);
     Waterfall.Parsed.name := "entry"%string;
     Waterfall.Parsed.timing := ∅;
     Waterfall.Parsed.min := min;
     Waterfall.Parsed.max := max;
     Waterfall.Parsed.index := index |}.

Definition demo_entries : list Waterfall.Parsed.t :=
  [demo_entry 0 0 5; demo_entry 1 2 4; demo_entry 2 6 7].

Lemma waterfall_rows_disjoint_witness :
  map snd (WaterfallPlugin.viewedData demo_entries 0 10) = [0; 1; 0]%nat
  /\ Waterfall.Parsed.max (demo_entry 0 0 5) < Waterfall.Parsed.min (demo_entry 2 6 7).
Proof.
  split; [reflexivity|].
  assert (Hs : StronglySorted
                 (fun a b => Waterfall.Parsed.min a <= Waterfall.Parsed.min b) demo_entries)
    by (repeat constructor; discriminate).
  destruct (waterfall_rows_disjoint demo_entries 0 10 Hs) as [_ H].
  apply (H 0%nat 2%nat (demo_entry 0 0 5) (demo_entry 2 6 7) 0%nat); [lia | | ]; reflexivity.
Defined.
